(** * fast-archiver: the archiving pipeline of [falib/archiver.go]

    A shallow embedding of the archiver side of fast-archiver: the block
    codec ([writeBlock], [writeChecksumBlock]), the stream writer
    ([archiveWriter]), the two worker bodies ([directoryScanner],
    [fileReader], [getModeOwnership], [readdirnames]) and the orchestrator
    ([NewArchiver], [AddDir], [Run]) as an interleaving semantics over the
    three channels and the WaitGroup.

    Conventions.
    - Go integers are [Z]; a conversion [uint16(x)], [uint32(x)] is written
      out as a remainder.  A byte is a [Z] in [0, 256).
    - The file system is an oracle ([FileSystem]) that answers [os.Open],
      [File.Stat], [File.Readdirnames], [os.Lstat] and [Read]; it does not
      change during a run, every call on it returns, and the reads of a
      file are finitely many (no FIFO or device on which a call blocks or
      the reads never end).
    - Calls to the logger do not touch queues, counter or output and are
      left out; a logger is assumed to be installed ([NewArchiver] leaves
      [Logger] nil, and a warning on a nil logger panics).
    - The read loop of [fileReader] is modelled for a positive
      [BlockSize].
    - The sink is written through [bufio], which the model leaves out:
      it is exact for a sink that refuses no write, where the buffer
      cannot be observed. *)

From Stdlib Require Import ZArith String Ascii List Bool Lia Permutation Arith.
Import ListNotations.
Local Open Scope string_scope.
Local Open Scope list_scope.
Local Open Scope Z_scope.

(** ** Bytes and big-endian integers ([encoding/binary]) *)

Definition byte := Z.

Definition uint16 (n : Z) : Z := n mod 65536.
Definition uint32 (n : Z) : Z := n mod 4294967296.

(** [bigEndian n v]: the [n] low-order bytes of [v], most significant
    first, as [binary.Write(output, binary.BigEndian, v)] lays out an
    unsigned integer of [n] bytes. *)
Fixpoint bigEndian (n : nat) (v : Z) : list byte :=
  match n with
  | O => []
  | S k => Z.shiftr v (8 * Z.of_nat k) mod 256 :: bigEndian k v
  end.

Definition be16 := bigEndian 2.
Definition be32 := bigEndian 4.
Definition be64 := bigEndian 8.

(** [[]byte(s)] for a Go string. *)
Fixpoint bytesOf (s : string) : list byte :=
  match s with
  | EmptyString => []
  | String c r => Z.of_N (N_of_ascii c) :: bytesOf r
  end.

Definition len {A} (l : list A) : Z := Z.of_nat (length l).

(** ** CRC-64 as [hash/crc64] computes it with the ECMA table *)

Module crc64.

Definition ECMA : Z := 0xC96C5795D7870F42.
Definition ones : Z := 0xFFFFFFFFFFFFFFFF.

(** One entry of [MakeTable(poly)]: eight conditional shift-xor rounds. *)
Fixpoint rounds (n : nat) (poly crc : Z) : Z :=
  match n with
  | O => crc
  | S k =>
      rounds k poly
        (if Z.testbit crc 0 then Z.lxor (Z.shiftr crc 1) poly
         else Z.shiftr crc 1)
  end.

Definition MakeTable (poly : Z) (i : Z) : Z := rounds 8 poly i.

(** The byte loop of [update], between the two complements. *)
Definition feed (tab : Z -> Z) (crc : Z) (p : list byte) : Z :=
  fold_left (fun c v => Z.lxor (tab (Z.lxor (c mod 256) v)) (Z.shiftr c 8))
    p crc.

Definition update (crc : Z) (tab : Z -> Z) (p : list byte) : Z :=
  Z.lxor (feed tab (Z.lxor crc ones) p) ones.

(** [crc64.New(tab)] starts at 0; [Write] updates; [Sum64] reads. *)
Definition New : Z := 0.
Definition Write (crc : Z) (p : list byte) : Z :=
  update crc (MakeTable ECMA) p.

(** [Checksum(data, tab)]. *)
Definition Checksum (p : list byte) : Z := Write New p.

End crc64.

(** ** Declarations of package [falib] that [archiver.go] uses but does not
    contain: the block-type constants, the chunk size and the magic header.
    They are parameters of the development. *)

Class Declarations := {
  blockTypeData : byte;
  blockTypeStartOfFile : byte;
  blockTypeEndOfFile : byte;
  blockTypeDirectory : byte;
  blockTypeChecksum : byte;
  BlockSize : Z;
  fastArchiverHeader : list byte
}.

(** The four producer types are the case labels of one [switch], which Go
    only compiles when they are pairwise distinct; the checksum tag is the
    fifth value of the same enumeration. *)
Definition distinctTypes (D : Declarations) : Prop :=
  NoDup [blockTypeData; blockTypeStartOfFile; blockTypeEndOfFile;
         blockTypeDirectory; blockTypeChecksum].

(** ** The block record, with the fields in the order of the composite
    literals [Block{path, n, buf, type, uid, gid, mode}] *)

Record Block := mkBlock {
  filePath : string;
  numBytes : Z;          (* uint16 *)
  buffer : list byte;    (* nil is [] *)
  blockType : byte;
  uid : Z;               (* int *)
  gid : Z;               (* int *)
  mode : Z               (* os.FileMode, a uint32 *)
}.

(** ** Errors and the output writer *)

Inductive error :=
| ErrAbsoluteDirectoryPath
| ErrWrite.               (* an I/O error of the sink *)

(** What a call leaves behind: [err == nil], [err != nil], or a panic. *)
Inductive outcome :=
| Nil
| Failed (e : error)
| Panicked.

(** [io.MultiWriter(a.output, hash)]: the buffered sink and the running
    hash.  The sink takes [limit] bytes and then refuses ([None]: it never
    refuses); a refused write keeps what still fitted and does not reach
    the hash, which comes second in the MultiWriter.

    [a.output] is a [bufio.Writer]: the code hands bytes to the sink when
    its buffer fills and at the [Flush] of [Run], whose error [Run] drops.
    With [limit = None] no write is refused, buffering cannot be observed
    and [sink] is what the sink holds once [Run] has returned.  With
    [limit = Some q] the record describes a sink written through without
    a buffer: there a failure is reported at the first refused byte, which
    the buffered writer of the code reports later or, when the refusal
    comes at the final [Flush], not at all.  What is proved about the
    bytes of a whole run is therefore stated for [limit = None]. *)
Record Output := mkOutput {
  sink : list byte;
  limit : option nat;
  hash : Z
}.

Definition fits (o : Output) (p : list byte) : bool :=
  match limit o with
  | None => true
  | Some q => (length (sink o) + length p <=? q)%nat
  end.

Definition Write (p : list byte) (o : Output) : Output * outcome :=
  if fits o p then
    (mkOutput (sink o ++ p) (limit o) (crc64.Write (hash o) p), Nil)
  else
    (mkOutput
       (sink o ++ firstn (match limit o with
                          | Some q => q - length (sink o)
                          | None => 0
                          end)%nat p)
       (limit o) (hash o),
     Failed ErrWrite).

(** [if err == nil { ... }]: run [k] only after a nil error. *)
Definition andThen (m k : Output -> Output * outcome)
  : Output -> Output * outcome :=
  fun o =>
    match m o with
    | (o', Nil) => k o'
    | r => r
    end.

Notation "m >> k" := (andThen m k) (at level 61, left associativity).

Definition skip : Output -> Output * outcome := fun o => (o, Nil).
Definition panic : Output -> Output * outcome := fun o => (o, Panicked).

Section Codec.

Context {D : Declarations}.

(** [func (b *Block) writeBlock(output io.Writer) error] *)
Definition writeBlock (b : Block) : Output -> Output * outcome :=
  let filePath := bytesOf (filePath b) in
  Write (be16 (uint16 (len filePath))) >>
  Write filePath >>
  Write [blockType b] >>
  (if (blockType b =? blockTypeDirectory)
      || (blockType b =? blockTypeStartOfFile) then
     Write (be32 (uint32 (uid b))) >>
     Write (be32 (uint32 (gid b))) >>
     Write (be32 (mode b))
   else if blockType b =? blockTypeEndOfFile then
     skip
   else if blockType b =? blockTypeData then
     Write (be16 (uint16 (numBytes b))) >>
     (if numBytes b <=? len (buffer b) then
        Write (firstn (Z.to_nat (numBytes b)) (buffer b))
      else panic)                       (* slice bounds out of range *)
   else
     panic).                            (* unexpected block type *)

(** [func writeChecksumBlock(hash hash.Hash64, output io.Writer) error];
    [hash.Sum64()] is read when the third write is issued. *)
Definition writeChecksumBlock : Output -> Output * outcome :=
  Write (be16 (uint16 0)) >>
  Write [blockTypeChecksum] >>
  (fun o => Write (be64 (hash o)) o).

(** One round of [for block := range a.blockQueue]: the state is the
    output and [blockCount]. *)
Definition writerRound (st : Output * Z) (block : Block)
  : (Output * Z) * outcome :=
  let '(o, blockCount) := st in
  let '(o1, err) := writeBlock block o in
  match err with
  | Panicked => ((o1, blockCount), Panicked)
  | _ =>
      let blockCount := blockCount + 1 in
      let '(o2, err) :=
        match err with
        | Nil => if blockCount mod 1000 =? 0
                 then writeChecksumBlock o1 else (o1, Nil)
        | _ => (o1, err)
        end in
      ((o2, blockCount), err)
  end.

(** The loop over the blocks the queue delivers before it is closed,
    followed by the final checksum block. *)
Fixpoint writerLoop (st : Output * Z) (blocks : list Block)
  : Output * outcome :=
  match blocks with
  | [] => writeChecksumBlock (fst st)
  | block :: rest =>
      match writerRound st block with
      | (st', Nil) => writerLoop st' rest
      | (st', err) => (fst st', err)
      end
  end.

(** The state in which [archiveWriter] enters its loop. *)
Definition writerStart (lim : option nat) : (Output * Z) * outcome :=
  let '(o, err) := Write fastArchiverHeader (mkOutput [] lim crc64.New) in
  ((o, 0), err).

(** [func (a *Archiver) archiveWriter() error], on the sequence of blocks
    received from [a.blockQueue]. *)
Definition archiveWriter (lim : option nat) (blocks : list Block)
  : Output * outcome :=
  match writerStart lim with
  | (st, Nil) => writerLoop st blocks
  | (st, err) => (fst st, err)
  end.

End Codec.

(** ** The file system and the path library

    [Open] is [os.Open]: the handle it returns answers [Stat],
    [Readdirnames] and [Read], whatever kind of file the path names.
    [Readdirnames] and [Read] list what the successive calls return; once
    the [Read] list runs out every further call answers [io.EOF]; once
    the [Readdirnames] list runs out every further call answers [io.EOF]
    when [ReaddirnamesEOF] holds and a non-EOF error otherwise (a handle
    that is not a directory).  [Join] and [Match] are [filepath.Join] and
    [filepath.Match], the latter with [None] for [ErrBadPattern].

    Every call answers.  A path on which [os.Open] or a read blocks for
    ever (a FIFO without a writer) and a handle whose reads never come to
    [io.EOF] or an error (a device such as [/dev/zero]) have no [File]
    here, since [Read] is a finite list: the properties about termination
    hold for trees without such paths, and say so. *)

Inductive ioerr :=
| ErrNone                 (* nil *)
| EOF                     (* io.EOF *)
| ErrOther.               (* any other error *)

Record FileInfo := mkFileInfo {
  Mode : Z;                       (* fi.Mode() *)
  Sys : option (Z * Z)            (* Uid and Gid of fi.Sys().( *syscall.Stat_t ) *)
}.

Record File := mkFile {
  Stat : option FileInfo;
  Readdirnames : list (list string * ioerr);
  ReaddirnamesEOF : bool;
  Read : list (list byte * ioerr)
}.

Class FileSystem := {
  Open : string -> option File;
  Lstat : string -> option FileInfo;
  Join : string -> string -> string;
  Match : string -> string -> option bool
}.

(** [os.ModeDir] and [os.ModeSymlink]. *)
Definition ModeDir : Z := Z.shiftl 1 31.
Definition ModeSymlink : Z := Z.shiftl 1 27.
Definition IsDir (fi : FileInfo) : bool := negb (Z.land (Mode fi) ModeDir =? 0).

(** ** The archiver *)

(** The fields of the Go struct that exist before [Run]; [fileReadQueue],
    [blockQueue] and [error] are set up by [Run] and live in the run-time
    state below.  [output] is the sink, given by the number of bytes it
    accepts.

    [Logger] has no field: a warning or verbose message is a call on it
    that changes nothing in the archive, and the rounds below are those
    of an archiver whose [Logger] has been assigned.  [NewArchiver] leaves
    it nil, and with a nil [Logger] the first warning (a failed open,
    lstat or stat, a symbolic link, a read error) is a call on a nil
    interface, which panics; the properties about panics are stated for
    an archiver with a [Logger]. *)
Record Archiver := mkArchiver {
  directoryScanQueue : option (list string);    (* nil, or the buffered paths *)
  workInProgress : Z;
  excludePatterns : list string;
  output : option nat;
  DirReaderCount : Z;
  FileReaderCount : Z;
  DirScanQueueSize : Z;
  FileReadQueueSize : Z;
  BlockQueueSize : Z;
  ExcludePatterns : list string
}.

(** [func NewArchiver(output io.Writer) *Archiver] *)
Definition NewArchiver (output : option nat) : Archiver :=
  {| directoryScanQueue := None;
     workInProgress := 0;
     excludePatterns := [];
     output := output;
     DirReaderCount := 16;
     FileReaderCount := 16;
     DirScanQueueSize := 128;
     FileReadQueueSize := 128;
     BlockQueueSize := 128;
     ExcludePatterns := [] |}.

(** The paths buffered in [a.directoryScanQueue]. *)
Definition queued (a : Archiver) : list string :=
  match directoryScanQueue a with
  | Some q => q
  | None => []
  end.

(** [func (a *Archiver) AddDir(directoryPath string)], called before [Run]:
    [None] when the call does not return, because the queue is full and
    nothing receives yet (or [make] panics on a negative size). *)
Definition AddDir (a : Archiver) (directoryPath : string) : option Archiver :=
  if len (queued a) <? DirScanQueueSize a then
    Some {| directoryScanQueue := Some (queued a ++ [directoryPath]);
            workInProgress := workInProgress a + 1;
            excludePatterns := excludePatterns a;
            output := output a;
            DirReaderCount := DirReaderCount a;
            FileReaderCount := FileReaderCount a;
            DirScanQueueSize := DirScanQueueSize a;
            FileReadQueueSize := FileReadQueueSize a;
            BlockQueueSize := BlockQueueSize a;
            ExcludePatterns := ExcludePatterns a |}
  else None.

Fixpoint AddDirs (a : Archiver) (paths : list string) : option Archiver :=
  match paths with
  | [] => Some a
  | p :: rest =>
      match AddDir a p with
      | Some a' => AddDirs a' rest
      | None => None
      end
  end.

(** Assignments to the exported fields between [NewArchiver] and [Run]. *)
Definition withExcludePatterns (pats : list string) (a : Archiver) : Archiver :=
  {| directoryScanQueue := directoryScanQueue a;
     workInProgress := workInProgress a;
     excludePatterns := excludePatterns a;
     output := output a;
     DirReaderCount := DirReaderCount a;
     FileReaderCount := FileReaderCount a;
     DirScanQueueSize := DirScanQueueSize a;
     FileReadQueueSize := FileReadQueueSize a;
     BlockQueueSize := BlockQueueSize a;
     ExcludePatterns := pats |}.

Definition withSizes (dirReaders fileReaders dirQ fileQ blockQ : Z)
    (a : Archiver) : Archiver :=
  {| directoryScanQueue := directoryScanQueue a;
     workInProgress := workInProgress a;
     excludePatterns := excludePatterns a;
     output := output a;
     DirReaderCount := dirReaders;
     FileReaderCount := fileReaders;
     DirScanQueueSize := dirQ;
     FileReadQueueSize := fileQ;
     BlockQueueSize := blockQ;
     ExcludePatterns := ExcludePatterns a |}.

(** ** What one round of a worker does

    A round of [directoryScanner] or [fileReader] (one path received from
    its queue) is the sequence of its effects on the shared state. *)

Inductive action :=
| SetError                  (* a.error = ErrAbsoluteDirectoryPath *)
| Add                       (* a.workInProgress.Add(1) *)
| Done                      (* a.workInProgress.Done() *)
| SendBlock (b : Block)     (* a.blockQueue <- b *)
| GoSendDir (p : string)    (* go func(){ a.directoryScanQueue <- p }() *)
| SendFile (p : string)     (* a.fileReadQueue <- p *)
| CloseFile                 (* directory.Close(), file.Close() *)
| Stall.                    (* receive from a channel that is never closed *)

Section Workers.

Context {D : Declarations} {FS : FileSystem}.

(** [func (a *Archiver) getModeOwnership(file *os.File) (int, int, os.FileMode)] *)
Definition getModeOwnership (file : File) : Z * Z * Z :=
  match Stat file with
  | None => (0, 0, 0)
  | Some fi =>
      match Sys fi with
      | Some (u, g) => (u, g, Mode fi)
      | None => (0, 0, Mode fi)
      end
  end.

(** [func (a *Archiver) readdirnames(dir *os.File) chan string]: the names
    the channel delivers, and whether it is closed after them. *)
Fixpoint readdirnamesFrom (calls : list (list string * ioerr)) (eof : bool)
  : list string * bool :=
  match calls with
  | [] => ([], eof)
  | (_, EOF) :: _ => ([], true)
  | (names, _) :: rest =>
      let '(more, closes) := readdirnamesFrom rest eof in
      (names ++ more, closes)
  end.

Definition readdirnames (dir : File) : list string * bool :=
  readdirnamesFrom (Readdirnames dir) (ReaddirnamesEOF dir).

(** The loop over [a.excludePatterns]. *)
Fixpoint excludeFile (patterns : list string) (filePath : string) : bool :=
  match patterns with
  | [] => false
  | excludePattern :: rest =>
      match Match excludePattern filePath with
      | Some true => true
      | _ => excludeFile rest filePath
      end
  end.

(** The body of [for fileName := range a.readdirnames(directory)]. *)
Definition scanEntry (a : Archiver) (directoryPath fileName : string)
  : list action :=
  let filePath := Join directoryPath fileName in
  if excludeFile (excludePatterns a) filePath then []
  else
    match Lstat filePath with
    | None => []
    | Some fileInfo =>
        if negb (Z.land (Mode fileInfo) ModeSymlink =? 0) then []
        else
          Add :: (if IsDir fileInfo then [GoSendDir filePath]
                  else [SendFile filePath])
    end.

(** One round of [func (a *Archiver) directoryScanner()]. *)
Definition directoryScanner (a : Archiver) (directoryPath : string)
  : list action :=
  if prefix "/" directoryPath then
    [SetError; Done]
  else
    match Open directoryPath with
    | None => [Done]
    | Some directory =>
        let '(uid, gid, mode) := getModeOwnership directory in
        let '(names, closes) := readdirnames directory in
        SendBlock (mkBlock directoryPath 0 [] blockTypeDirectory uid gid mode)
        :: flat_map (scanEntry a directoryPath) names
        ++ (if closes then [CloseFile; Done] else [Stall])
    end.

(** [buffer := make([]byte, BlockSize); bytesRead, err := Read(buffer)]:
    a call delivers at most [len(buffer)] bytes into the zeroed buffer.
    This is the code for [0 < BlockSize]: [make] panics on a negative
    size, and a read into a buffer of length 0 delivers nothing and never
    reports the end of the file, so that the loop does not end.  The
    properties of whole runs assume [0 < BlockSize]. *)
Definition readInto (chunk : list byte) : Z * list byte :=
  let size := Z.to_nat BlockSize in
  let data := firstn size chunk in
  (len data, data ++ repeat 0 (size - length data)).

(** The [for] loop of [fileReader]. *)
Fixpoint readLoop (filePath : string) (reads : list (list byte * ioerr))
  : list action :=
  match reads with
  | [] => []                            (* io.EOF *)
  | (_, EOF) :: _ => []                 (* break *)
  | (_, ErrOther) :: _ => []            (* warning, break *)
  | (chunk, ErrNone) :: rest =>
      let '(bytesRead, buffer) := readInto chunk in
      SendBlock (mkBlock filePath (uint16 bytesRead) buffer blockTypeData 0 0 0)
      :: readLoop filePath rest
  end.

(** One round of [func (a *Archiver) fileReader()]. *)
Definition fileReader (filePath : string) : list action :=
  match Open filePath with
  | Some file =>
      let '(uid, gid, mode) := getModeOwnership file in
      SendBlock (mkBlock filePath 0 [] blockTypeStartOfFile uid gid mode)
      :: readLoop filePath (Read file)
      ++ [SendBlock (mkBlock filePath 0 [] blockTypeEndOfFile 0 0 0);
          CloseFile; Done]
  | None => [Done]
  end.

End Workers.

(** ** The running pipeline

    The goroutines of [Run] interleave: the scanners, the readers, the
    goroutines that a scanner starts to send a subdirectory, the one that
    waits for the WaitGroup and closes the queues, and [archiveWriter] on
    the caller's goroutine.  A channel is its buffer; a send goes through
    when the buffer has room, or when the buffer is empty and a receiver
    is waiting (the only way through an unbuffered channel). *)

Record worker := mkWorker {
  job : string;             (* the loop variable: the path received last *)
  todo : list action        (* what is left of the round; [] at the receive *)
}.

Record System := mkSystem {
  dirChan : list string;            (* a.directoryScanQueue *)
  senders : list string;            (* goroutines at [a.directoryScanQueue <- p] *)
  fileChan : list string;           (* a.fileReadQueue *)
  blockChan : list Block;           (* a.blockQueue *)
  closed : bool;                    (* the queues have been closed *)
  wip : Z;                          (* a.workInProgress *)
  err : option error;               (* a.error *)
  scanners : list worker;
  readers : list worker;
  writer : Output * Z;              (* archiveWriter: output and blockCount *)
  returned : option outcome         (* what Run returned, once it has *)
}.

Inductive thread :=
| Scanner (i : nat)
| Reader (j : nat)
| Sender (k : nat)
| Terminator
| Writer.

Inductive event :=
| Took (p : string)           (* a worker received p from its queue *)
| Did (act : action)          (* a worker performed act *)
| Queued (p : string)         (* a sender goroutine delivered p *)
| ClosedQueues
| Wrote (b : Block)           (* the writer received and wrote b *)
| Returned (r : outcome).

Definition idle (w : worker) : bool :=
  match todo w with [] => true | _ => false end.

Definition room {A} (cap : Z) (buf : list A) (receiverWaits : bool) : bool :=
  (len buf <? cap) || (match buf with [] => receiverWaits | _ => false end).

Fixpoint replace {A} (i : nat) (x : A) (l : list A) : list A :=
  match l, i with
  | [], _ => []
  | _ :: r, O => x :: r
  | y :: r, S i' => y :: replace i' x r
  end.

Fixpoint remove_nth {A} (k : nat) (l : list A) : list A :=
  match l, k with
  | [], _ => []
  | _ :: r, O => r
  | y :: r, S k' => y :: remove_nth k' r
  end.

Section WithState.

Variable s : System.

Definition setDirChan v := mkSystem v (senders s) (fileChan s) (blockChan s)
  (closed s) (wip s) (err s) (scanners s) (readers s) (writer s) (returned s).
Definition setSenders v := mkSystem (dirChan s) v (fileChan s) (blockChan s)
  (closed s) (wip s) (err s) (scanners s) (readers s) (writer s) (returned s).
Definition setFileChan v := mkSystem (dirChan s) (senders s) v (blockChan s)
  (closed s) (wip s) (err s) (scanners s) (readers s) (writer s) (returned s).
Definition setBlockChan v := mkSystem (dirChan s) (senders s) (fileChan s) v
  (closed s) (wip s) (err s) (scanners s) (readers s) (writer s) (returned s).
Definition setClosed v := mkSystem (dirChan s) (senders s) (fileChan s)
  (blockChan s) v (wip s) (err s) (scanners s) (readers s) (writer s)
  (returned s).
Definition setWip v := mkSystem (dirChan s) (senders s) (fileChan s)
  (blockChan s) (closed s) v (err s) (scanners s) (readers s) (writer s)
  (returned s).
Definition setErr v := mkSystem (dirChan s) (senders s) (fileChan s)
  (blockChan s) (closed s) (wip s) v (scanners s) (readers s) (writer s)
  (returned s).
Definition setScanners v := mkSystem (dirChan s) (senders s) (fileChan s)
  (blockChan s) (closed s) (wip s) (err s) v (readers s) (writer s)
  (returned s).
Definition setReaders v := mkSystem (dirChan s) (senders s) (fileChan s)
  (blockChan s) (closed s) (wip s) (err s) (scanners s) v (writer s)
  (returned s).
Definition setWriter v := mkSystem (dirChan s) (senders s) (fileChan s)
  (blockChan s) (closed s) (wip s) (err s) (scanners s) (readers s) v
  (returned s).
Definition setReturned v := mkSystem (dirChan s) (senders s) (fileChan s)
  (blockChan s) (closed s) (wip s) (err s) (scanners s) (readers s)
  (writer s) v.

End WithState.

(** A panic ends the process. *)
Definition crash (s : System) : System := setReturned s (Some Panicked).

Section Pipeline.

Context {D : Declarations} {FS : FileSystem}.
Variable a : Archiver.

(** The effect of one action on the shared state; [None] while the
    goroutine is blocked.  A send on a closed channel and a WaitGroup
    counter that would go negative panic. *)
Definition perform (s : System) (act : action) : option System :=
  match act with
  | SetError => Some (setErr s (Some ErrAbsoluteDirectoryPath))
  | Add => Some (setWip s (wip s + 1))
  | Done => if wip s <=? 0 then Some (crash s)
            else Some (setWip s (wip s - 1))
  | SendBlock b =>
      if closed s then Some (crash s)
      else if room (BlockQueueSize a) (blockChan s) true
      then Some (setBlockChan s (blockChan s ++ [b]))
      else None
  | GoSendDir p => Some (setSenders s (senders s ++ [p]))
  | SendFile p =>
      if closed s then Some (crash s)
      else if room (FileReadQueueSize a) (fileChan s)
                (existsb idle (readers s))
      then Some (setFileChan s (fileChan s ++ [p]))
      else None
  | CloseFile => Some s
  | Stall => None
  end.

(** What [Run] returns after [archiveWriter] came back with [err]. *)
Definition runResult (s : System) (werr : outcome) : outcome :=
  match werr with
  | Nil => match err s with
           | Some e => Failed e
           | None => Nil
           end
  | _ => werr
  end.

(** One step of the thread [t]; [None] when it cannot move. *)
Definition fire (s : System) (t : thread) : option (event * System) :=
  match returned s with
  | Some _ => None
  | None =>
      match t with
      | Scanner i =>
          match nth_error (scanners s) i with
          | None => None
          | Some w =>
              match todo w, dirChan s with
              | [], [] => None
              | [], p :: rest =>
                  Some (Took p,
                        setScanners (setDirChan s rest)
                          (replace i (mkWorker p (directoryScanner a p))
                             (scanners s)))
              | act :: rest, _ =>
                  match perform s act with
                  | None => None
                  | Some s' =>
                      Some (Did act,
                            setScanners s'
                              (replace i (mkWorker (job w) rest) (scanners s')))
                  end
              end
          end
      | Reader j =>
          match nth_error (readers s) j with
          | None => None
          | Some w =>
              match todo w, fileChan s with
              | [], [] => None
              | [], p :: rest =>
                  Some (Took p,
                        setReaders (setFileChan s rest)
                          (replace j (mkWorker p (fileReader p)) (readers s)))
              | act :: rest, _ =>
                  match perform s act with
                  | None => None
                  | Some s' =>
                      Some (Did act,
                            setReaders s'
                              (replace j (mkWorker (job w) rest) (readers s')))
                  end
              end
          end
      | Sender k =>
          match nth_error (senders s) k with
          | None => None
          | Some p =>
              if closed s then Some (Queued p, crash s)
              else if room (DirScanQueueSize a) (dirChan s)
                        (existsb idle (scanners s))
              then Some (Queued p,
                         setSenders (setDirChan s (dirChan s ++ [p]))
                           (remove_nth k (senders s)))
              else None
          end
      | Terminator =>
          if negb (closed s) && (wip s =? 0)
          then Some (ClosedQueues, setClosed s true)
          else None
      | Writer =>
          match blockChan s with
          | b :: rest =>
              let '(st, err) := writerRound (writer s) b in
              let s' := setWriter (setBlockChan s rest) st in
              Some (Wrote b,
                    match err with
                    | Nil => s'
                    | _ => setReturned s' (Some err)
                    end)
          | [] =>
              if closed s then
                let '(o, err) := writeChecksumBlock (fst (writer s)) in
                let r := runResult s err in
                Some (Returned r,
                      setReturned (setWriter s (o, snd (writer s))) (Some r))
              else None
          end
      end
  end.

(** [func (a *Archiver) Run() error], up to the point where the
    goroutines are started and [archiveWriter] has written the header.
    [make] panics on a negative channel size. *)
Definition Run : System :=
  let '(st, err) := writerStart (output a) in
  let negative :=
    (FileReadQueueSize a <? 0) || (BlockQueueSize a <? 0)
    || (match directoryScanQueue a with
        | None => DirScanQueueSize a <? 0
        | Some _ => false
        end) in
  {| dirChan := queued a;
     senders := [];
     fileChan := [];
     blockChan := [];
     closed := false;
     wip := workInProgress a;
     err := None;
     scanners := repeat (mkWorker "" []) (Z.to_nat (DirReaderCount a));
     readers := repeat (mkWorker "" []) (Z.to_nat (FileReaderCount a));
     writer := st;
     returned := if negative then Some Panicked
                 else match err with
                      | Nil => None
                      | _ => Some err
                      end |}.

(** A schedule run from a state: the events and the state reached. *)
Fixpoint exec (s : System) (sched : list thread)
  : option (list event * System) :=
  match sched with
  | [] => Some ([], s)
  | t :: rest =>
      match fire s t with
      | None => None
      | Some (e, s') =>
          match exec s' rest with
          | None => None
          | Some (es, s'') => Some (e :: es, s'')
          end
      end
  end.

(** The states a run can be in, with the events so far. *)
Inductive reaches : list event -> System -> Prop :=
| reaches_Run : reaches [] Run
| reaches_fire : forall h s t e s',
    reaches h s -> fire s t = Some (e, s') -> reaches (h ++ [e]) s'.

End Pipeline.

(** A scheduler for concrete runs: it fires the first thread of
    [candidates] that can move, until none can or the fuel is spent. *)
Section Driver.

Context {D : Declarations} {FS : FileSystem}.
Variable a : Archiver.

Fixpoint firstEnabled (s : System) (ts : list thread)
  : option (thread * event * System) :=
  match ts with
  | [] => None
  | t :: rest =>
      match fire a s t with
      | Some (e, s') => Some (t, e, s')
      | None => firstEnabled s rest
      end
  end.

Definition candidates (s : System) : list thread :=
  map Scanner (seq 0 (length (scanners s)))
  ++ map Reader (seq 0 (length (readers s)))
  ++ [Sender 0; Terminator; Writer].

Fixpoint drive (fuel : nat) (s : System) : list thread * list event * System :=
  match fuel with
  | O => ([], [], s)
  | S n =>
      match firstEnabled s (candidates s) with
      | None => ([], [], s)
      | Some (t, e, s') =>
          let '(ts, es, s'') := drive n s' in
          (t :: ts, e :: es, s'')
      end
  end.

End Driver.

(** ** Notions used to state the properties *)

(** The value of a byte string read most significant byte first. *)
Fixpoint fromBigEndian (l : list byte) : Z :=
  match l with
  | [] => 0
  | b :: r => b * 256 ^ len r + fromBigEndian r
  end.

(** [emit p o]: the output after a write of [p] that went through. *)
Definition emit (p : list byte) (o : Output) : Output :=
  mkOutput (sink o ++ p) (limit o) (crc64.Write (hash o) p).

(** The running hash is the CRC-64 of everything the sink has taken. *)
Definition hashed (o : Output) : Prop := hash o = crc64.Checksum (sink o).

(** What follows the header in a stream is a sequence of frames: blocks
    as [writeBlock] lays them out and checksum blocks as
    [writeChecksumBlock] does. *)
Inductive frame :=
| FBlock (b : Block)
| FChecksum (v : Z).

Definition isChecksum (f : frame) : bool :=
  match f with FChecksum _ => true | FBlock _ => false end.

Fixpoint blocksOf (fs : list frame) : list Block :=
  match fs with
  | [] => []
  | FBlock b :: r => b :: blocksOf r
  | FChecksum _ :: r => blocksOf r
  end.

(** A frame sequence in which, [c] blocks after a checksum block (or the
    header), a checksum frame sits at exactly every 1001st place, apart
    from the one that ends the sequence. *)
Definition spaced (c : Z) (fs : list frame) : Prop :=
  (forall i f, nth_error fs i = Some f -> (S i < length fs)%nat ->
     (isChecksum f = true <-> (Z.of_nat i + 1 + c) mod 1001 = 0))
  /\ (len fs + c) mod 1001 <> 0
  /\ exists fs' v, fs = fs' ++ [FChecksum v].

Section Wire.

Context {D : Declarations}.

(** The bytes before the payload of a block, and those before the value
    of a checksum block. *)
Definition blockHead (b : Block) : list byte :=
  be16 (uint16 (len (bytesOf (filePath b)))) ++ bytesOf (filePath b)
  ++ [blockType b].

Definition checksumHead : list byte := be16 (uint16 0) ++ [blockTypeChecksum].

(** The payload [writeBlock] writes after the head, if it writes one. *)
Definition payload (b : Block) : option (list byte) :=
  if (blockType b =? blockTypeDirectory)
     || (blockType b =? blockTypeStartOfFile) then
    Some (be32 (uint32 (uid b)) ++ be32 (uint32 (gid b)) ++ be32 (mode b))
  else if blockType b =? blockTypeEndOfFile then Some []
  else if blockType b =? blockTypeData then
    if numBytes b <=? len (buffer b)
    then Some (be16 (uint16 (numBytes b))
               ++ firstn (Z.to_nat (numBytes b)) (buffer b))
    else None
  else None.

Definition wire (b : Block) : list byte :=
  blockHead b ++ match payload b with Some p => p | None => [] end.

Definition encodeFrame (f : frame) : list byte :=
  match f with
  | FBlock b => wire b
  | FChecksum v => checksumHead ++ be64 v
  end.

Definition encodeFrames (fs : list frame) : list byte :=
  flat_map encodeFrame fs.

(** The frames [writerLoop] writes from output [o] and count [cnt]. *)
Fixpoint framesFrom (o : Output) (cnt : Z) (blocks : list Block)
  : list frame :=
  match blocks with
  | [] => [FChecksum (crc64.Write (hash o) checksumHead)]
  | b :: r =>
      let o1 := emit (wire b) o in
      if (cnt + 1) mod 1000 =? 0 then
        let v := crc64.Write (hash o1) checksumHead in
        FBlock b :: FChecksum v
        :: framesFrom (emit (checksumHead ++ be64 v) o1) (cnt + 1) r
      else FBlock b :: framesFrom o1 (cnt + 1) r
  end.

End Wire.

(** The blocks sent to [a.blockQueue], the paths put on a work queue and
    the paths received by workers, in the order of the events. *)
Fixpoint stream (h : list event) : list Block :=
  match h with
  | [] => []
  | Did (SendBlock b) :: r => b :: stream r
  | _ :: r => stream r
  end.

Fixpoint enqueued (h : list event) : list string :=
  match h with
  | [] => []
  | Did (GoSendDir p) :: r => p :: enqueued r
  | Did (SendFile p) :: r => p :: enqueued r
  | _ :: r => enqueued r
  end.

Fixpoint taken (h : list event) : list string :=
  match h with
  | [] => []
  | Took p :: r => p :: taken r
  | _ :: r => taken r
  end.

Fixpoint written (h : list event) : list Block :=
  match h with
  | [] => []
  | Wrote b :: r => b :: written r
  | _ :: r => written r
  end.

(** ** A reference instance

    Modelled from the spec: the chunk size of 65536 bytes ("reference:
    65536 bytes").  The tag values and the header bytes are not given
    anywhere; the instance numbers the tags in the order Data,
    StartOfFile, EndOfFile, Directory, Checksum and uses an eight-byte
    magic. Used for examples only. *)
#[export] Instance refDeclarations : Declarations := {|
  blockTypeData := 0;
  blockTypeStartOfFile := 1;
  blockTypeEndOfFile := 2;
  blockTypeDirectory := 3;
  blockTypeChecksum := 4;
  BlockSize := 65536;
  fastArchiverHeader := [70; 65; 83; 84; 65; 82; 67; 72]
|}.

(** A tree for examples: directory [root] holds the regular files [keep]
    and [skip], the symbolic link [link] and the directory [d], which
    holds the file [f] of 10 bytes.  [Join] and [Match] are the library's
    on what the examples use: clean relative directories joined with plain
    names, and patterns without metacharacters. *)
Definition regular (content : list (list byte * ioerr)) : File :=
  mkFile (Some (mkFileInfo 420 (Some (1000, 100)))) [] false content.

Definition directory (names : list string) : File :=
  mkFile (Some (mkFileInfo (Z.lor ModeDir 493) (Some (1000, 100))))
    [(names, ErrNone)] true [([], ErrOther)].

Definition exampleOpen (p : string) : option File :=
  if String.eqb p "root" then Some (directory ["keep"; "skip"; "link"; "d"])
  else if String.eqb p "root/d" then Some (directory ["f"])
  else if String.eqb p "root/keep" then Some (regular [([1; 2; 3], ErrNone)])
  else if String.eqb p "root/skip" then Some (regular [])
  else if String.eqb p "root/d/f" then
    Some (regular [([0; 1; 2; 3; 4; 5; 6; 7; 8; 9], ErrNone); ([], EOF)])
  else None.

Definition exampleLstat (p : string) : option FileInfo :=
  if String.eqb p "root/link"
  then Some (mkFileInfo (Z.lor ModeSymlink 511) (Some (1000, 100)))
  else match exampleOpen p with
       | Some f => Stat f
       | None => None
       end.

#[export] Instance exampleFS : FileSystem := {|
  Open := exampleOpen;
  Lstat := exampleLstat;
  Join := fun d n => (d ++ "/" ++ n)%string;
  Match := fun pattern name => Some (String.eqb pattern name)
|}.

(** Two blocks written to a sink without limit. *)
Definition twoBlocks : list Block :=
  [mkBlock "d" 0 [] blockTypeDirectory 1000 100 493;
   mkBlock "d/f" 0 [] blockTypeEndOfFile 0 0 0].


(** 1001 blocks: a checksum block after the first 1000 and one at the end. *)
Definition manyBlocks : list Block :=
  repeat (mkBlock "f" 0 [] blockTypeEndOfFile 0 0 0) 1001.

(** The blocks an action sequence sends, in order. *)
Fixpoint blocksSent (acts : list action) : list Block :=
  match acts with
  | [] => []
  | SendBlock b :: r => b :: blocksSent r
  | _ :: r => blocksSent r
  end.

(** The chunks a file delivers before the read that ends the loop. *)
Fixpoint chunksRead (reads : list (list byte * ioerr)) : list (list byte) :=
  match reads with
  | (chunk, ErrNone) :: rest => chunk :: chunksRead rest
  | _ => []
  end.

Section BlockShapes.

Context {D : Declarations}.

(** The Data block [fileReader] builds from one chunk. *)
Definition dataBlock (filePath : string) (chunk : list byte) : Block :=
  mkBlock filePath (uint16 (fst (readInto chunk))) (snd (readInto chunk))
    blockTypeData 0 0 0.

Definition endOfFileBlock (filePath : string) : Block :=
  mkBlock filePath 0 [] blockTypeEndOfFile 0 0 0.

Definition metadataBlock (filePath : string) (type : byte) (file : File)
  : Block :=
  let '(uid, gid, mode) := getModeOwnership file in
  mkBlock filePath 0 [] type uid gid mode.

End BlockShapes.

(** What a read that fills a buffer of 65536 bytes delivers. *)
Definition fullChunk : list byte := repeat 7 (Z.to_nat 65536).

(** A file of 130000 bytes, [d/f]: a read of 65536 bytes, a read of the
    other 64464 and the end of the file. *)
Definition bigFile : File :=
  regular [(fullChunk, ErrNone); (repeat 7 (Z.to_nat 64464), ErrNone);
           ([], EOF)].

Definition bigFS : FileSystem := {|
  Open := fun p => if String.eqb p "d/f" then Some bigFile else None;
  Lstat := fun p => if String.eqb p "d/f" then Stat bigFile else None;
  Join := fun d n => (d ++ "/" ++ n)%string;
  Match := fun pattern name => Some (String.eqb pattern name)
|}.

(** A file system in which every path opens and no handle can be
    stat'ed; a directory listing holds the one name [e]. *)
Definition unstattable : File :=
  mkFile None [(["e"], ErrNone)] true [([1; 2], ErrNone)].

Definition statFailFS : FileSystem := {|
  Open := fun _ => Some unstattable;
  Lstat := fun _ => None;
  Join := fun d n => (d ++ "/" ++ n)%string;
  Match := fun pattern name => Some (String.eqb pattern name)
|}.

(** ** The steps of the pipeline, case by case

    [fire] as a relation: one constructor for each way a thread moves. *)

Section Steps.

Context {D : Declarations} {FS : FileSystem}.
Variable a : Archiver.

Inductive steps (s : System) : event -> System -> Prop :=
| scanner_receives i w p rest :
    returned s = None ->
    nth_error (scanners s) i = Some w -> todo w = [] ->
    dirChan s = p :: rest ->
    steps s (Took p)
      (setScanners (setDirChan s rest)
         (replace i (mkWorker p (directoryScanner a p)) (scanners s)))
| scanner_acts i w act rest s1 :
    returned s = None ->
    nth_error (scanners s) i = Some w -> todo w = act :: rest ->
    perform a s act = Some s1 ->
    steps s (Did act)
      (setScanners s1 (replace i (mkWorker (job w) rest) (scanners s1)))
| reader_receives j w p rest :
    returned s = None ->
    nth_error (readers s) j = Some w -> todo w = [] ->
    fileChan s = p :: rest ->
    steps s (Took p)
      (setReaders (setFileChan s rest)
         (replace j (mkWorker p (fileReader p)) (readers s)))
| reader_acts j w act rest s1 :
    returned s = None ->
    nth_error (readers s) j = Some w -> todo w = act :: rest ->
    perform a s act = Some s1 ->
    steps s (Did act)
      (setReaders s1 (replace j (mkWorker (job w) rest) (readers s1)))
| sender_delivers k p :
    returned s = None ->
    nth_error (senders s) k = Some p -> closed s = false ->
    room (DirScanQueueSize a) (dirChan s) (existsb idle (scanners s)) = true ->
    steps s (Queued p)
      (setSenders (setDirChan s (dirChan s ++ [p])) (remove_nth k (senders s)))
| sender_panics k p :
    returned s = None ->
    nth_error (senders s) k = Some p -> closed s = true ->
    steps s (Queued p) (crash s)
| terminator_closes :
    returned s = None -> closed s = false -> wip s = 0 ->
    steps s ClosedQueues (setClosed s true)
| writer_writes b rest st werr :
    returned s = None ->
    blockChan s = b :: rest -> writerRound (writer s) b = (st, werr) ->
    steps s (Wrote b)
      (match werr with
       | Nil => setWriter (setBlockChan s rest) st
       | _ => setReturned (setWriter (setBlockChan s rest) st) (Some werr)
       end)
| writer_returns o werr :
    returned s = None ->
    blockChan s = [] -> closed s = true ->
    writeChecksumBlock (fst (writer s)) = (o, werr) ->
    steps s (Returned (runResult s werr))
      (setReturned (setWriter s (o, snd (writer s)))
         (Some (runResult s werr))).

(** The effect of an action, case by case. *)
Inductive performs (s : System) : action -> System -> Prop :=
| performs_SetError :
    performs s SetError (setErr s (Some ErrAbsoluteDirectoryPath))
| performs_Add : performs s Add (setWip s (wip s + 1))
| performs_Done : 0 < wip s -> performs s Done (setWip s (wip s - 1))
| performs_Done_panics : wip s <= 0 -> performs s Done (crash s)
| performs_SendBlock b :
    closed s = false -> room (BlockQueueSize a) (blockChan s) true = true ->
    performs s (SendBlock b) (setBlockChan s (blockChan s ++ [b]))
| performs_SendBlock_panics b :
    closed s = true -> performs s (SendBlock b) (crash s)
| performs_GoSendDir p :
    performs s (GoSendDir p) (setSenders s (senders s ++ [p]))
| performs_SendFile p :
    closed s = false ->
    room (FileReadQueueSize a) (fileChan s) (existsb idle (readers s)) = true ->
    performs s (SendFile p) (setFileChan s (fileChan s ++ [p]))
| performs_SendFile_panics p :
    closed s = true -> performs s (SendFile p) (crash s)
| performs_CloseFile : performs s CloseFile s.

End Steps.

(** ** Invariants of a run *)

Section Invariants.

Context {D : Declarations}.

(** A block that [writeBlock] can encode: one of the four types the
    workers produce, with a count within its buffer. *)
Definition producer (b : Block) : Prop :=
  (blockType b = blockTypeDirectory \/ blockType b = blockTypeStartOfFile
   \/ blockType b = blockTypeData \/ blockType b = blockTypeEndOfFile)
  /\ 0 <= numBytes b <= len (buffer b).

Definition sendsProducers (w : worker) : Prop :=
  Forall producer (blocksSent (todo w)).

(** What an action adds to the units of work the WaitGroup has counted and
    that are not on a queue yet: [Add] has counted a unit that the
    following send puts on a queue, [Done] and [Stall] stand for the
    round's own unit. *)
Definition bal (act : action) : Z :=
  match act with
  | Add => -1
  | GoSendDir _ | SendFile _ => 1
  | Done | Stall => 1
  | _ => 0
  end.

Fixpoint balance (acts : list action) : Z :=
  match acts with
  | [] => 0
  | act :: rest => bal act + balance rest
  end.

(** Every non-empty rest of the round still owes at least one unit. *)
Fixpoint owing (acts : list action) : Prop :=
  match acts with
  | [] => True
  | act :: rest => 1 <= balance (act :: rest) /\ owing rest
  end.

Fixpoint load (ws : list worker) : Z :=
  match ws with
  | [] => 0
  | w :: rest => balance (todo w) + load rest
  end.

Definition accounted (s : System) : Prop :=
  wip s = len (dirChan s) + len (senders s) + len (fileChan s)
          + load (scanners s) + load (readers s).

End Invariants.

Section MoreInvariants.

Context {D : Declarations}.

(** Every block a worker still has to send, every block in the queue and
    every block sent so far can be encoded. *)
Definition encodable (h : list event) (s : System) : Prop :=
  Forall sendsProducers (scanners s)
  /\ Forall sendsProducers (readers s)
  /\ Forall producer (blockChan s)
  /\ Forall producer (stream h).

End MoreInvariants.

(** The archiver of the examples: the defaults of [NewArchiver], a sink
    without limit and the root [root] of the example tree; and its run
    under the scheduler [drive]. *)
Definition exampleArchiver : Archiver :=
  match AddDir (NewArchiver None) "root" with
  | Some a => a
  | None => NewArchiver None
  end.

Definition exampleRun : list thread * list event * System :=
  drive exampleArchiver 200 (Run exampleArchiver).

(** The state of a run is sound when the WaitGroup counter is the number
    of units of work on the queues and in the hands of the workers, the
    queues are closed only at zero, and nothing has panicked. *)
Definition sound (s : System) : Prop :=
  accounted s
  /\ Forall (fun w => owing (todo w)) (scanners s)
  /\ Forall (fun w => owing (todo w)) (readers s)
  /\ (closed s = true -> wip s = 0)
  /\ returned s <> Some Panicked.

(** An archiver as [NewArchiver], assignments to its exported fields and
    calls of [AddDir] leave it: one unit of work counted per queued root,
    and channel sizes that [make] accepts. *)
Definition ready (a : Archiver) : Prop :=
  workInProgress a = len (queued a)
  /\ 0 <= FileReadQueueSize a
  /\ 0 <= BlockQueueSize a
  /\ (directoryScanQueue a = None -> 0 <= DirScanQueueSize a).

(** The fatal error of an absolute root is on its way: recorded in
    [a.error], or still ahead on the directory queue or in a scanner's
    round. *)
Definition ahead (s : System) : Prop :=
  err s = Some ErrAbsoluteDirectoryPath
  \/ (exists p, In p (dirChan s) /\ prefix "/" p = true)
  \/ (exists x, In x (scanners s) /\ In SetError (todo x)).

(** While [Run] is running the error is on its way; once [Run] has
    returned it returned that error, or the error of a sink that refused a
    write. *)
Definition recorded (a : Archiver) (s : System) : Prop :=
  limit (fst (writer s)) = output a
  /\ match returned s with
     | Some r =>
         r = Failed ErrAbsoluteDirectoryPath
         \/ (r = Failed ErrWrite /\ output a <> None)
     | None => ahead s
     end.

(** A writer action keeps the sink's limit and fails only with the error
    of a sink that has one. *)
Definition tame (m : Output -> Output * outcome) : Prop :=
  forall o, limit (fst (m o)) = limit o
            /\ forall e, snd (m o) = Failed e ->
                         e = ErrWrite /\ limit o <> None.

(** ** How much of a run is left

    [weight p] bounds the work behind a directory path [p]: more than the
    work of its own round, which counts the subdirectories it hands on at
    their own weight.  Such a function exists when the tree below the
    roots is finite. *)

Fixpoint total {A} (f : A -> nat) (l : list A) : nat :=
  match l with
  | [] => O
  | x :: r => (f x + total f r)%nat
  end.

Section Remaining.

Context {D : Declarations} {FS : FileSystem}.
Variable weight : string -> nat.

(** A block is sent and then written; the other actions of a reader are
    one step each. *)
Definition quietCost (act : action) : nat :=
  match act with
  | SendBlock _ => 2%nat
  | _ => 1%nat
  end.

Definition readerEffort (p : string) : nat := total quietCost (fileReader p).

Definition cost (act : action) : nat :=
  match act with
  | SendBlock _ => 2%nat
  | GoSendDir p => (3 + weight p)%nat
  | SendFile p => (3 + readerEffort p)%nat
  | _ => 1%nat
  end.

Definition effort (acts : list action) : nat := total cost acts.

Definition pending (s : System) : nat :=
  (total (fun p => S (weight p)) (dirChan s)
   + total (fun p => S (S (weight p))) (senders s)
   + total (fun p => S (S (readerEffort p))) (fileChan s)
   + length (blockChan s)
   + total (fun x => effort (todo x)) (scanners s)
   + total (fun x => effort (todo x)) (readers s))%nat.

Definition remaining (s : System) : nat :=
  match returned s with
  | Some _ => O
  | None => (1 + (if closed s then 0 else 1) + pending s)%nat
  end.

Definition finiteTree (a : Archiver) : Prop :=
  forall p, (effort (directoryScanner a p) <= weight p)%nat.

End Remaining.

(** The actions of a file reader's round. *)
Definition quiet (act : action) : Prop :=
  match act with
  | SendBlock _ | CloseFile | Done => True
  | _ => False
  end.

Section Scannable.

Context {D : Declarations} {FS : FileSystem}.

(** [dirs] covers the directory paths of a run: the roots and, with a
    path, the subdirectories its round hands on; and the listing of every
    path of [dirs] that opens ends ([Readdirnames] reaches [io.EOF]). *)
Definition scannable (dirs : string -> Prop) (a : Archiver) : Prop :=
  (forall p, In p (queued a) -> dirs p)
  /\ forall p, dirs p ->
       (forall dir, Open p = Some dir -> snd (readdirnames dir) = true)
       /\ (forall q, In (GoSendDir q) (directoryScanner a p) -> dirs q).

(** The pools keep their size, a reader's round has only quiet actions,
    every path on its way to a scanner is in [dirs], and no scanner waits
    for a listing forever. *)
Definition steady (dirs : string -> Prop) (a : Archiver) (s : System)
  : Prop :=
  length (scanners s) = Z.to_nat (DirReaderCount a)
  /\ length (readers s) = Z.to_nat (FileReaderCount a)
  /\ Forall (fun x => Forall quiet (todo x)) (readers s)
  /\ Forall (fun x => ~ In Stall (todo x)
                      /\ forall q, In (GoSendDir q) (todo x) -> dirs q)
       (scanners s)
  /\ Forall dirs (dirChan s)
  /\ Forall dirs (senders s).

End Scannable.

(** Two archivers with the absolute root [/abs]: one that also archives
    the example tree with the default pools, and one whose pool of
    directory scanners is empty. *)
Definition absoluteArchiver : Archiver :=
  match AddDirs (NewArchiver None) ["/abs"; "root"] with
  | Some a => a
  | None => NewArchiver None
  end.

Definition noScanners : Archiver :=
  match AddDir (withSizes 0 16 128 128 128 (NewArchiver None)) "/abs" with
  | Some a => a
  | None => NewArchiver None
  end.

Definition exampleDirs (p : string) : Prop :=
  p = "/abs" \/ p = "root" \/ p = "root/d".

Definition exampleWeight (p : string) : nat :=
  if String.eqb p "root" then 200%nat else 50%nat.

(** ** The blocks of one path *)

(** The workers of both pools, the paths waiting for a worker, and the
    units of work of a run: the roots and every path a scanner put on a
    queue. *)
Definition hands (s : System) : list worker := scanners s ++ readers s.

Definition waiting (s : System) : list string :=
  dirChan s ++ senders s ++ fileChan s.

Definition units (a : Archiver) (h : list event) : list string :=
  queued a ++ enqueued h.

(** The blocks of [bs] that carry the path [p], in order. *)
Definition about (p : string) (bs : list Block) : list Block :=
  filter (fun b => String.eqb (filePath b) p) bs.

Section PerPath.

Context {D : Declarations} {FS : FileSystem}.
Variable a : Archiver.

(** The blocks of a whole round for [p], of a scanner or of a reader. *)
Definition roundOf (p : string) (l : list Block) : Prop :=
  l = blocksSent (directoryScanner a p) \/ l = blocksSent (fileReader p).

(** What the stream may hold for one path: nothing, one Directory block,
    or a StartOfFile block, Data blocks and an EndOfFile block. *)
Definition pathShape (p : string) (l : list Block) : Prop :=
  l = []
  \/ (exists file, l = [metadataBlock p blockTypeDirectory file])
  \/ (exists file chunks,
        l = metadataBlock p blockTypeStartOfFile file
            :: map (dataBlock p) chunks ++ [endOfFileBlock p]).

(** A run is tidy when every path in the hands of a worker has been
    received once and its blocks so far, followed by those the worker
    still has to send, are the blocks of its round; no two workers hold
    the same path; and a path in no worker's hands has the blocks of its
    whole round, or none if it was never received. *)
Definition tidy (h : list event) (s : System) : Prop :=
  (forall i x, nth_error (hands s) i = Some x -> todo x <> [] ->
     In (job x) (taken h)
     /\ Forall (fun b => filePath b = job x) (blocksSent (todo x))
     /\ roundOf (job x) (about (job x) (stream h) ++ blocksSent (todo x)))
  /\ (forall i j x y,
        nth_error (hands s) i = Some x -> nth_error (hands s) j = Some y ->
        todo x <> [] -> todo y <> [] -> job x = job y -> i = j)
  /\ (forall p,
        (forall i x, nth_error (hands s) i = Some x -> todo x <> [] ->
                     job x <> p) ->
        (In p (taken h) -> roundOf p (about p (stream h)))
        /\ (~ In p (taken h) -> about p (stream h) = []))
  /\ Permutation (units a h) (waiting s ++ taken h).

(** How a step changes the hands: a worker receives a path, a worker
    performs its next action, or the hands stay as they are. *)
Definition handsChange (s : System) (e : event) (s' : System) : Prop :=
  (exists k x p body,
     nth_error (hands s) k = Some x /\ todo x = [] /\ e = Took p
     /\ (body = directoryScanner a p \/ body = fileReader p)
     /\ hands s' = replace k (mkWorker p body) (hands s)
     /\ Permutation (waiting s) (p :: waiting s'))
  \/ (exists k x act rest,
        nth_error (hands s) k = Some x /\ todo x = act :: rest
        /\ e = Did act
        /\ hands s' = replace k (mkWorker (job x) rest) (hands s)
        /\ Permutation (waiting s') (enqueued [Did act] ++ waiting s))
  \/ (hands s' = hands s /\ stream [e] = [] /\ taken [e] = []
      /\ enqueued [e] = [] /\ Permutation (waiting s') (waiting s)).

End PerPath.

(** The subdirectory [root/d] of the example tree queued twice. *)
Definition duplicateArchiver : Archiver :=
  match AddDirs (NewArchiver None) ["root/d"; "root/d"] with
  | Some a => a
  | None => NewArchiver None
  end.

Definition duplicateRun : list thread * list event * System :=
  drive duplicateArchiver 200 (Run duplicateArchiver).

(** The example tree archived with the exported exclusion patterns set to
    [root/skip]. *)
Definition excludingArchiver : Archiver :=
  match AddDir (withExcludePatterns ["root/skip"] (NewArchiver None)) "root" with
  | Some a => a
  | None => NewArchiver None
  end.

Definition excludingRun : list thread * list event * System :=
  drive excludingArchiver 200 (Run excludingArchiver).

Section RunOutput.

Context {D : Declarations} {FS : FileSystem}.
Variable a : Archiver.

(** While [Run] has not returned, [archiveWriter] is in its loop with the
    state [writer s], having received [written h]; once it has returned,
    the sink and the result are those of [archiveWriter] on [written h]. *)
Definition writing (h : list event) (s : System) : Prop :=
  (returned s = None ->
   forall rest, archiveWriter (output a) (written h ++ rest)
                = writerLoop (writer s) rest)
  /\ (forall r, returned s = Some r -> r <> Panicked ->
        exists werr,
          archiveWriter (output a) (written h) = (fst (writer s), werr)
          /\ r = runResult s werr
          /\ (werr = Nil -> closed s = true /\ blockChan s = [])).

End RunOutput.

(** ** Where a queued path comes from *)

(** The paths put on the directory queue and on the file queue by the
    scanners, in the order of the events. *)
Fixpoint dirQueued (h : list event) : list string :=
  match h with
  | [] => []
  | Did (GoSendDir p) :: r => p :: dirQueued r
  | _ :: r => dirQueued r
  end.

Fixpoint fileQueued (h : list event) : list string :=
  match h with
  | [] => []
  | Did (SendFile p) :: r => p :: fileQueued r
  | _ :: r => fileQueued r
  end.

(** The paths that go to a scanner: the roots and the queued directories. *)
Definition dirUnits (a : Archiver) (h : list event) : list string :=
  queued a ++ dirQueued h.

Section Entries.

Context {D : Declarations} {FS : FileSystem}.
Variable a : Archiver.

(** An entry that passes the three tests of the scanner's loop: it
    matches no pattern of [a.excludePatterns], [os.Lstat] answers, and
    the answer is not a symbolic link. *)
Definition eligible (filePath : string) (fi : FileInfo) : Prop :=
  excludeFile (excludePatterns a) filePath = false
  /\ Lstat filePath = Some fi
  /\ Z.land (Mode fi) ModeSymlink = 0.

(** [q] is the entry [n] listed in the opened directory [d]. *)
Definition listedIn (d : string) (dir : File) (q : string) : Prop :=
  prefix "/" d = false /\ Open d = Some dir
  /\ exists n, In n (fst (readdirnames dir)) /\ q = Join d n.

(** Every worker in the middle of a round has received its path and
    holds the rest of the round of that path, and the blocks of the part
    it has performed are in the stream. *)
Definition inRound (h : list event) (s : System) : Prop :=
  forall i x, nth_error (hands s) i = Some x -> todo x <> [] ->
    In (job x) (taken h)
    /\ exists body done,
         (body = directoryScanner a (job x) \/ body = fileReader (job x))
         /\ body = done ++ todo x
         /\ incl (blocksSent done) (stream h).

End Entries.

(** ** What [Run] returns *)

(** [a.error] is nil, or the absolute-path error with an absolute path
    that a worker has received. *)
Definition blamed (h : list event) (s : System) : Prop :=
  err s = None
  \/ (err s = Some ErrAbsoluteDirectoryPath
      /\ exists p, In p (taken h) /\ prefix "/" p = true).

(** The regular file [root/keep] of the example tree given as a root. *)
Definition fileRootArchiver : Archiver :=
  match AddDir (NewArchiver None) "root/keep" with
  | Some a => a
  | None => NewArchiver None
  end.

(** The run of [absoluteArchiver] under the scheduler [drive]. *)
Definition absoluteRun : list thread * list event * System :=
  drive absoluteArchiver 200 (Run absoluteArchiver).

(** ** The whole round of every path *)

Section WholeRounds.

Context {D : Declarations} {FS : FileSystem}.
Variable a : Archiver.

(** [l] is the blocks of the round the path [p] was queued for: a
    scanner's when it is a root or a queued directory, a reader's when it
    was put on the file queue. *)
Definition roundFor (h : list event) (p : string) (l : list Block) : Prop :=
  (In p (dirUnits a h) /\ l = blocksSent (directoryScanner a p))
  \/ (In p (fileQueued h) /\ l = blocksSent (fileReader p)).

(** The blocks a path has in the stream, followed by those its worker
    still has to send, are the blocks of the round it was queued for; a
    received path in no worker's hands has them all in the stream; and
    the paths in the queues are queued for the pool that receives from
    them. *)
Definition neat (h : list event) (s : System) : Prop :=
  (forall i x, nth_error (hands s) i = Some x -> todo x <> [] ->
     roundFor h (job x) (about (job x) (stream h) ++ blocksSent (todo x)))
  /\ (forall p,
        (forall i x, nth_error (hands s) i = Some x -> todo x <> [] ->
                     job x <> p) ->
        In p (taken h) -> roundFor h p (about p (stream h)))
  /\ incl (dirChan s ++ senders s) (dirUnits a h)
  /\ incl (fileChan s) (fileQueued h).

(** How a step changes the workers and the queues of each pool. *)
Definition poolChange (s : System) (e : event) (s' : System) : Prop :=
  (exists k x p body,
     nth_error (hands s) k = Some x /\ todo x = [] /\ e = Took p
     /\ hands s' = replace k (mkWorker p body) (hands s)
     /\ ((body = directoryScanner a p /\ In p (dirChan s))
         \/ (body = fileReader p /\ In p (fileChan s)))
     /\ incl (dirChan s' ++ senders s') (dirChan s ++ senders s)
     /\ incl (fileChan s') (fileChan s))
  \/ (exists k x act rest,
        nth_error (hands s) k = Some x /\ todo x = act :: rest
        /\ e = Did act
        /\ hands s' = replace k (mkWorker (job x) rest) (hands s)
        /\ incl (dirChan s' ++ senders s')
             (dirQueued [Did act] ++ dirChan s ++ senders s)
        /\ incl (fileChan s') (fileQueued [Did act] ++ fileChan s))
  \/ (hands s' = hands s /\ stream [e] = [] /\ taken [e] = []
      /\ dirQueued [e] = [] /\ fileQueued [e] = []
      /\ incl (dirChan s' ++ senders s') (dirChan s ++ senders s)
      /\ incl (fileChan s') (fileChan s)).

End WholeRounds.

(** ** What a frame shows on the wire *)

Section Shown.

Context {D : Declarations}.

(** A frame that the layout can carry: a path of fewer than 65536 bytes,
    one of the four block types, for a Data block a count within its
    buffer and within 16 bits, and a hash value within 64 bits. *)
Definition carriable (f : frame) : Prop :=
  match f with
  | FBlock b =>
      len (bytesOf (filePath b)) < 65536
      /\ (blockType b = blockTypeDirectory \/ blockType b = blockTypeStartOfFile
          \/ blockType b = blockTypeData \/ blockType b = blockTypeEndOfFile)
      /\ (blockType b = blockTypeData ->
          0 <= numBytes b <= len (buffer b) /\ numBytes b < 65536)
  | FChecksum v => 0 <= v < 2 ^ 64
  end.

(** The fields of a block that [writeBlock] writes, as it writes them:
    the path and the type; for a Directory or StartOfFile block uid, gid
    and mode in 32 bits; for a Data block the count and that many bytes
    of the buffer. *)
Definition shown (f : frame) : frame :=
  match f with
  | FBlock b =>
      FBlock
        (if (blockType b =? blockTypeDirectory)
            || (blockType b =? blockTypeStartOfFile) then
           mkBlock (filePath b) 0 [] (blockType b)
             (uint32 (uid b)) (uint32 (gid b)) (uint32 (mode b))
         else if blockType b =? blockTypeData then
           mkBlock (filePath b) (numBytes b)
             (firstn (Z.to_nat (numBytes b)) (buffer b)) (blockType b) 0 0 0
         else mkBlock (filePath b) 0 [] (blockType b) 0 0 0)
  | FChecksum v => FChecksum v
  end.

(** The three parts of a frame's layout after the path length. *)
Definition pathBytes (f : frame) : list byte :=
  match f with
  | FBlock b => bytesOf (filePath b)
  | FChecksum _ => []
  end.

Definition tagOf (f : frame) : byte :=
  match f with
  | FBlock b => blockType b
  | FChecksum _ => blockTypeChecksum
  end.

Definition bodyOf (f : frame) : list byte :=
  match f with
  | FBlock b => match payload b with Some p => p | None => [] end
  | FChecksum v => be64 v
  end.

End Shown.

(** Two blocks that differ in fields the layout does not carry. *)
Definition wideBlock : Block :=
  mkBlock "d" 7 [9] blockTypeDirectory (Z.shiftl 1 32 + 1000) 100 493.

Definition plainBlock : Block :=
  mkBlock "d" 0 [] blockTypeDirectory 1000 100 493.

(** ** The unexported exclusion patterns *)

(** An assignment to the unexported field [excludePatterns], which only
    code of package [falib] can make; and the example tree archived with
    the pattern [root/skip] in that field. *)
Definition withPrivatePatterns (pats : list string) (a : Archiver) : Archiver :=
  {| directoryScanQueue := directoryScanQueue a;
     workInProgress := workInProgress a;
     excludePatterns := pats;
     output := output a;
     DirReaderCount := DirReaderCount a;
     FileReaderCount := FileReaderCount a;
     DirScanQueueSize := DirScanQueueSize a;
     FileReadQueueSize := FileReadQueueSize a;
     BlockQueueSize := BlockQueueSize a;
     ExcludePatterns := ExcludePatterns a |}.

Definition skippingArchiver : Archiver :=
  withPrivatePatterns ["root/skip"] exampleArchiver.

Definition skippingRun : list thread * list event * System :=
  drive skippingArchiver 200 (Run skippingArchiver).

(** ** A run without roots *)

(** The steps such a run still has to take: the terminator's, which
    closes the queues, and the writer's, which returns. *)
Definition toGo (s : System) : nat :=
  match returned s with
  | Some _ => 0
  | None => if closed s then 1 else 2
  end.

(** * Properties *)

(** The CRC-64/XZ check value: the model agrees with the library on the
    standard test vector "123456789". *)
Example crc64_check_value :
  crc64.Checksum (bytesOf "123456789") = 0x995DC9BBDF1939FA.
Proof. vm_compute. reflexivity. Qed.

Lemma refDeclarations_distinct : distinctTypes refDeclarations.
Proof.
  unfold distinctTypes; simpl.
  repeat (constructor; [simpl; intuition discriminate|]).
  constructor.
Qed.

(** ** Big-endian fields *)

Lemma bigEndian_length n v : length (bigEndian n v) = n.
Proof. induction n; simpl; congruence. Qed.

Lemma bigEndian_value n v :
  fromBigEndian (bigEndian n v) = v mod 256 ^ Z.of_nat n.
Proof.
  induction n as [|k IH].
  - simpl. now rewrite Z.mod_1_r.
  - cbn [bigEndian fromBigEndian]. unfold len.
    rewrite bigEndian_length, IH, Z.shiftr_div_pow2 by lia.
    replace (2 ^ (8 * Z.of_nat k)) with (256 ^ Z.of_nat k)
      by (change 256 with (2 ^ 8); rewrite <- Z.pow_mul_r by lia; reflexivity).
    rewrite Nat2Z.inj_succ, Z.pow_succ_r by lia.
    assert (0 < 256 ^ Z.of_nat k) by (apply Z.pow_pos_nonneg; lia).
    rewrite (Z.mul_comm 256), Z.rem_mul_r by lia. lia.
Qed.

(** ** The writer's view of what it has written *)

Lemma lxor_ones_twice x : Z.lxor (Z.lxor x crc64.ones) crc64.ones = x.
Proof. now rewrite Z.lxor_assoc, Z.lxor_nilpotent, Z.lxor_0_r. Qed.

Lemma crc64_Write_app c p q :
  crc64.Write (crc64.Write c p) q = crc64.Write c (p ++ q).
Proof.
  unfold crc64.Write, crc64.update, crc64.feed.
  now rewrite lxor_ones_twice, fold_left_app.
Qed.

Lemma emit_emit p q o : emit q (emit p o) = emit (p ++ q) o.
Proof.
  unfold emit; simpl. now rewrite crc64_Write_app, app_assoc.
Qed.

Lemma Write_Nil p o o' : Write p o = (o', Nil) -> o' = emit p o.
Proof.
  unfold Write. destruct (fits o p); intros H; inversion H; reflexivity.
Qed.

Lemma Write_not_Panicked p o : snd (Write p o) <> Panicked.
Proof. unfold Write. destruct (fits o p); simpl; discriminate. Qed.

Lemma Write_unlimited p o : limit o = None -> Write p o = (emit p o, Nil).
Proof. unfold Write, fits, emit. intros ->. reflexivity. Qed.

Lemma andThen_Nil m k o o' :
  (m >> k) o = (o', Nil) ->
  exists o1, m o = (o1, Nil) /\ k o1 = (o', Nil).
Proof.
  unfold andThen. destruct (m o) as [o1 [| |]]; intros H; try discriminate.
  now exists o1.
Qed.

Lemma hashed_emit p o : hashed o -> hashed (emit p o).
Proof.
  unfold hashed, emit, crc64.Checksum; simpl. intros ->.
  apply crc64_Write_app.
Qed.

Ltac chain H :=
  repeat match type of H with
    | (_ >> _) _ = (_, Nil) =>
        let o1 := fresh "o" in
        let H1 := fresh "H" in
        apply andThen_Nil in H; destruct H as (o1 & H1 & H); chain H1
    | Write _ _ = (_, Nil) => apply Write_Nil in H; subst
    | skip _ = (_, Nil) => inversion H; subst; clear H
    | panic _ = (_, Nil) => discriminate H
    end.

Section CodecFacts.

Context {D : Declarations}.

Lemma writeBlock_Nil b o o' :
  writeBlock b o = (o', Nil) ->
  exists p, payload b = Some p /\ o' = emit (blockHead b ++ p) o.
Proof.
  unfold writeBlock, payload, blockHead. intros H.
  apply andThen_Nil in H. destruct H as (o3 & H3 & H).
  chain H3.
  destruct ((blockType b =? blockTypeDirectory)
            || (blockType b =? blockTypeStartOfFile)).
  { chain H. eexists; split; [reflexivity|].
    rewrite !emit_emit. f_equal. now rewrite <- !app_assoc. }
  destruct (blockType b =? blockTypeEndOfFile).
  { chain H. eexists; split; [reflexivity|].
    rewrite !emit_emit. f_equal. now rewrite <- !app_assoc, app_nil_r. }
  destruct (blockType b =? blockTypeData); [|discriminate H].
  apply andThen_Nil in H. destruct H as (o4 & H4 & H). chain H4.
  destruct (numBytes b <=? len (buffer b)); [|discriminate H].
  chain H. eexists; split; [reflexivity|].
  rewrite !emit_emit. f_equal. now rewrite <- !app_assoc.
Qed.

Lemma writeBlock_unlimited b o p :
  limit o = None -> payload b = Some p ->
  writeBlock b o = (emit (blockHead b ++ p) o, Nil).
Proof.
  intros Hl Hp. unfold writeBlock, payload, blockHead in *.
  assert (W : forall q o1, limit o1 = None -> Write q o1 = (emit q o1, Nil))
    by (intros; now apply Write_unlimited).
  assert (L : forall q o1, limit o1 = None -> limit (emit q o1) = None)
    by (intros; assumption).
  unfold andThen.
  rewrite W by auto. rewrite W by auto. rewrite W by auto.
  destruct ((blockType b =? blockTypeDirectory)
            || (blockType b =? blockTypeStartOfFile)).
  { inversion Hp; subst. rewrite W by auto. rewrite W by auto.
    rewrite W by auto. rewrite !emit_emit. now rewrite <- !app_assoc. }
  destruct (blockType b =? blockTypeEndOfFile).
  { inversion Hp; subst. unfold skip. rewrite !emit_emit.
    now rewrite <- !app_assoc, app_nil_r. }
  destruct (blockType b =? blockTypeData); [|discriminate].
  destruct (numBytes b <=? len (buffer b)); [|discriminate].
  inversion Hp; subst. rewrite W by auto. rewrite W by auto.
  rewrite !emit_emit. now rewrite <- !app_assoc.
Qed.

Lemma writeChecksumBlock_Nil o o' :
  writeChecksumBlock o = (o', Nil) ->
  o' = emit (checksumHead ++ be64 (crc64.Write (hash o) checksumHead)) o.
Proof.
  unfold writeChecksumBlock, checksumHead. intros H.
  apply andThen_Nil in H. destruct H as (o2 & H2 & H).
  chain H2. chain H.
  rewrite !emit_emit. reflexivity.
Qed.

Lemma writeChecksumBlock_unlimited o :
  limit o = None ->
  writeChecksumBlock o
  = (emit (checksumHead ++ be64 (crc64.Write (hash o) checksumHead)) o, Nil).
Proof.
  intros Hl. unfold writeChecksumBlock, checksumHead, andThen.
  rewrite Write_unlimited by auto. rewrite Write_unlimited by auto.
  rewrite Write_unlimited by auto.
  rewrite !emit_emit. reflexivity.
Qed.

Lemma writeChecksumBlock_not_Panicked o :
  snd (writeChecksumBlock o) <> Panicked.
Proof.
  unfold writeChecksumBlock, andThen.
  repeat match goal with
    | |- context [Write ?p ?x] =>
        let H := fresh in
        pose proof (Write_not_Panicked p x) as H;
        destruct (Write p x) as [? [| |]]; simpl in *; try congruence
    end.
Qed.

Lemma distinctTypes_neq :
  distinctTypes D ->
  blockTypeData <> blockTypeStartOfFile
  /\ blockTypeData <> blockTypeEndOfFile
  /\ blockTypeData <> blockTypeDirectory
  /\ blockTypeData <> blockTypeChecksum
  /\ blockTypeStartOfFile <> blockTypeEndOfFile
  /\ blockTypeStartOfFile <> blockTypeDirectory
  /\ blockTypeStartOfFile <> blockTypeChecksum
  /\ blockTypeEndOfFile <> blockTypeDirectory
  /\ blockTypeEndOfFile <> blockTypeChecksum
  /\ blockTypeDirectory <> blockTypeChecksum.
Proof.
  unfold distinctTypes. intros H.
  repeat match goal with
    | H : NoDup (_ :: _) |- _ => inversion H; subst; clear H
    end.
  cbn [In] in *. intuition congruence.
Qed.

(** C8. What [writeBlock] and [writeChecksumBlock] append to a sink that
    takes every write: the two-byte big-endian path length, the path
    bytes and the type tag, followed by uid, gid and mode as three
    four-byte big-endian fields for a Directory or StartOfFile block, by
    nothing for an EndOfFile block, and by the two-byte big-endian
    count and as many bytes of the buffer for a Data block; a checksum
    block is a zero path length, the tag and the eight-byte big-endian
    hash.  [bigEndian n v] is [n] bytes long and reads back as [v]
    modulo [256 ^ n]. *)
Theorem block_wire_format (b : Block) (o : Output) :
  distinctTypes D -> limit o = None ->
  let head := be16 (uint16 (len (bytesOf (filePath b))))
              ++ bytesOf (filePath b) ++ [blockType b] in
  (blockType b = blockTypeDirectory \/ blockType b = blockTypeStartOfFile ->
     writeBlock b o
     = (emit (head ++ be32 (uint32 (uid b)) ++ be32 (uint32 (gid b))
              ++ be32 (mode b)) o, Nil))
  /\ (blockType b = blockTypeEndOfFile ->
        writeBlock b o = (emit head o, Nil))
  /\ (blockType b = blockTypeData -> 0 <= numBytes b <= len (buffer b) ->
        let data := firstn (Z.to_nat (numBytes b)) (buffer b) in
        writeBlock b o
        = (emit (head ++ be16 (uint16 (numBytes b)) ++ data) o, Nil)
        /\ len data = numBytes b)
  /\ writeChecksumBlock o
     = (emit (be16 (uint16 0) ++ [blockTypeChecksum]
              ++ be64 (crc64.Write (hash o)
                         (be16 (uint16 0) ++ [blockTypeChecksum]))) o, Nil)
  /\ (forall n v, length (bigEndian n v) = n
                  /\ fromBigEndian (bigEndian n v) = v mod 256 ^ Z.of_nat n).
Proof.
  intros Hd Hl head.
  destruct (distinctTypes_neq Hd)
    as (n1 & n2 & n3 & n4 & n5 & n6 & n7 & n8 & n9 & n10).
  assert (P : forall p, payload b = Some p ->
              writeBlock b o = (emit (head ++ p) o, Nil)).
  { intros p Hp. rewrite (writeBlock_unlimited b o p Hl Hp).
    unfold blockHead, head. now rewrite <- !app_assoc. }
  repeat split.
  - intros Ht. apply P. unfold payload.
    destruct Ht as [-> | ->]; rewrite Z.eqb_refl, ?orb_true_r; reflexivity.
  - intros Ht. rewrite (P []); [now rewrite app_nil_r|].
    unfold payload. rewrite Ht, Z.eqb_refl.
    rewrite !(proj2 (Z.eqb_neq _ _)) by congruence. reflexivity.
  - apply P. unfold payload. rewrite H, Z.eqb_refl.
    rewrite !(proj2 (Z.eqb_neq _ _)) by congruence. cbn [orb].
    now rewrite (proj2 (Z.leb_le _ _)) by lia.
  - unfold len. rewrite length_firstn. unfold len in *. lia.
  - rewrite writeChecksumBlock_unlimited by exact Hl.
    unfold checksumHead. now rewrite <- !app_assoc.
  - apply bigEndian_length.
  - apply bigEndian_value.
Qed.

End CodecFacts.

(** A sink without limit and a Data block of three bytes. *)
Lemma block_wire_format_witness :
  distinctTypes refDeclarations
  /\ limit (mkOutput [] None 0) = None
  /\ writeBlock (mkBlock "d/f" 3 [7; 8; 9; 0] blockTypeData 0 0 0)
       (mkOutput [] None 0)
     = (emit [0; 3; 100; 47; 102; 0; 0; 3; 7; 8; 9] (mkOutput [] None 0), Nil).
Proof.
  split; [exact refDeclarations_distinct|]. split; [reflexivity|].
  pose proof (block_wire_format
                (mkBlock "d/f" 3 [7; 8; 9; 0] blockTypeData 0 0 0)
                (mkOutput [] None 0) refDeclarations_distinct eq_refl) as H.
  cbv zeta in H. destruct H as (_ & _ & H & _).
  destruct (H eq_refl) as [H' _]; [cbn; lia|]. exact H'.
Defined.

(** ** The frames of a stream *)

Section FrameFacts.

Context {D : Declarations}.

Lemma encodeFrames_app fs gs :
  encodeFrames (fs ++ gs) = encodeFrames fs ++ encodeFrames gs.
Proof. apply flat_map_app. Qed.

Lemma writerRound_Nil o cnt b st :
  writerRound (o, cnt) b = (st, Nil) ->
  let o1 := emit (wire b) o in
  st = (if (cnt + 1) mod 1000 =? 0
        then emit (checksumHead
                   ++ be64 (crc64.Write (hash o1) checksumHead)) o1
        else o1,
        cnt + 1).
Proof.
  unfold writerRound.
  destruct (writeBlock b o) as [o1 [| |]] eqn:Hb; try discriminate.
  apply writeBlock_Nil in Hb. destruct Hb as (p & Hp & ->).
  unfold wire. rewrite Hp.
  destruct ((cnt + 1) mod 1000 =? 0).
  - destruct (writeChecksumBlock _) as [o2 r] eqn:Hc.
    intros H; inversion H; subst.
    apply writeChecksumBlock_Nil in Hc. now subst.
  - intros H; now inversion H.
Qed.

Lemma writerLoop_frames blocks : forall o cnt o',
  writerLoop (o, cnt) blocks = (o', Nil) ->
  o' = emit (encodeFrames (framesFrom o cnt blocks)) o.
Proof.
  induction blocks as [|b r IH]; intros o cnt o' H.
  - cbn [writerLoop fst] in H. apply writeChecksumBlock_Nil in H. subst.
    unfold encodeFrames; cbn [framesFrom flat_map encodeFrame].
    now rewrite app_nil_r.
  - cbn [writerLoop] in H.
    destruct (writerRound (o, cnt) b) as [st [| |]] eqn:Hr;
      try (inversion H; fail).
    apply writerRound_Nil in Hr. cbv zeta in Hr. subst st.
    apply IH in H. subst o'. cbn [framesFrom].
    destruct ((cnt + 1) mod 1000 =? 0); unfold encodeFrames;
      cbn [flat_map encodeFrame]; rewrite !emit_emit;
      now rewrite <- ?app_assoc.
Qed.

Lemma archiveWriter_frames lim blocks o :
  archiveWriter lim blocks = (o, Nil) ->
  let o0 := emit fastArchiverHeader (mkOutput [] lim crc64.New) in
  o = emit (encodeFrames (framesFrom o0 0 blocks)) o0.
Proof.
  unfold archiveWriter, writerStart.
  destruct (Write fastArchiverHeader _) as [o0 [| |]] eqn:Hh.
  2, 3: intros H; inversion H.
  apply Write_Nil in Hh. subst o0. intros H.
  now apply writerLoop_frames in H.
Qed.

Lemma blocksOf_framesFrom blocks : forall o cnt,
  blocksOf (framesFrom o cnt blocks) = blocks.
Proof.
  induction blocks as [|b r IH]; intros o cnt; cbn [framesFrom].
  - reflexivity.
  - destruct ((cnt + 1) mod 1000 =? 0); cbn [blocksOf]; now rewrite IH.
Qed.

(** Each checksum frame holds the CRC-64 of all bytes before its value. *)
Lemma hashed_checksumHead o :
  hashed o ->
  crc64.Write (hash o) checksumHead
  = crc64.Checksum (sink o ++ checksumHead).
Proof.
  unfold hashed. intros ->. unfold crc64.Checksum.
  apply crc64_Write_app.
Qed.

Lemma framesFrom_checksums blocks : forall o cnt pre v post,
  hashed o ->
  framesFrom o cnt blocks = pre ++ FChecksum v :: post ->
  v = crc64.Checksum (sink o ++ encodeFrames pre ++ checksumHead).
Proof.
  induction blocks as [|b r IH]; intros o cnt pre v post Ho H;
    cbn [framesFrom] in H.
  - destruct pre as [|f pre].
    + injection H as <- _. unfold encodeFrames. cbn [flat_map app].
      exact (hashed_checksumHead _ Ho).
    + injection H as _ H. now destruct pre.
  - assert (Ho1 : hashed (emit (wire b) o)) by now apply hashed_emit.
    assert (Hs : forall p q : list byte,
               sink o ++ (wire b ++ p) ++ q
               = sink (emit (wire b) o) ++ p ++ q).
    { intros. cbn [sink emit]. now rewrite <- !app_assoc. }
    destruct ((cnt + 1) mod 1000 =? 0).
    + destruct pre as [|f pre]; [discriminate H|].
      injection H as <- H.
      destruct pre as [|g pre].
      * injection H as <- _. unfold encodeFrames.
        cbn [flat_map encodeFrame]. rewrite Hs. cbn [app].
        exact (hashed_checksumHead _ Ho1).
      * injection H as <- H.
        eapply IH in H; [|apply hashed_emit; exact Ho1].
        rewrite H. f_equal. unfold encodeFrames.
        cbn [flat_map encodeFrame sink emit].
        now rewrite <- !app_assoc.
    + destruct pre as [|f pre]; [discriminate H|].
      injection H as <- H.
      eapply IH in H; [|exact Ho1].
      rewrite H. f_equal. unfold encodeFrames.
      cbn [flat_map encodeFrame]. now rewrite Hs.
Qed.

End FrameFacts.

(** ** Where the checksum frames sit *)

Section Spacing.

Context {D : Declarations}.

Lemma spaced_cons_block c b fs :
  0 <= c < 999 -> spaced (c + 1) fs -> spaced c (FBlock b :: fs).
Proof.
  intros Hc (Hi & Hl & fs' & v & ->). split; [|split].
  - intros [|i] f Hn Hlt; cbn [nth_error] in Hn.
    + injection Hn as <-. cbn [isChecksum]. split; [discriminate|].
      intros H. exfalso. change (Z.of_nat 0) with 0 in H.
      rewrite Z.mod_small in H by lia. lia.
    + cbn [length] in Hlt. specialize (Hi i f Hn ltac:(lia)).
      rewrite Hi. replace (Z.of_nat (S i) + 1 + c) with (Z.of_nat i + 1 + (c + 1)) by lia.
      reflexivity.
  - unfold len in *. cbn [length].
    replace (Z.of_nat (S (length (fs' ++ [FChecksum v]))) + c)
      with (Z.of_nat (length (fs' ++ [FChecksum v])) + (c + 1)) by lia.
    exact Hl.
  - exists (FBlock b :: fs'), v. reflexivity.
Qed.

Lemma spaced_cons_block_checksum b v fs :
  spaced 0 fs -> spaced 999 (FBlock b :: FChecksum v :: fs).
Proof.
  intros (Hi & Hl & fs' & w & ->). split; [|split].
  - intros [|[|i]] f Hn Hlt; cbn [nth_error] in Hn.
    + injection Hn as <-. cbn [isChecksum]. split; [discriminate|].
      intros H. exfalso. change (Z.of_nat 0) with 0 in H.
      rewrite Z.mod_small in H by lia. lia.
    + injection Hn as <-. cbn [isChecksum]. split; [|reflexivity].
      intros _. reflexivity.
    + cbn [length] in Hlt. specialize (Hi i f Hn ltac:(lia)).
      rewrite Hi.
      replace (Z.of_nat (S (S i)) + 1 + 999)
        with (Z.of_nat i + 1 + 0 + 1 * 1001) by lia.
      now rewrite Z.mod_add by lia.
  - unfold len in *. cbn [length].
    replace (Z.of_nat (S (S (length (fs' ++ [FChecksum w])))) + 999)
      with (Z.of_nat (length (fs' ++ [FChecksum w])) + 0 + 1 * 1001) by lia.
    now rewrite Z.mod_add by lia.
  - exists (FBlock b :: FChecksum v :: fs'), w. reflexivity.
Qed.

Lemma framesFrom_spaced blocks : forall o cnt,
  0 <= cnt -> spaced (cnt mod 1000) (framesFrom o cnt blocks).
Proof.
  induction blocks as [|b r IH]; intros o cnt Hc; cbn [framesFrom].
  - pose proof (Z.mod_pos_bound cnt 1000 ltac:(lia)) as Hm.
    split; [|split].
    + intros [|i] f Hn Hlt; cbn [length] in Hlt; lia.
    + unfold len; cbn [length]. Z.div_mod_to_equations; lia.
    + now exists [], (crc64.Write (hash o) checksumHead).
  - pose proof (Z.mod_pos_bound cnt 1000 ltac:(lia)) as Hm.
    destruct ((cnt + 1) mod 1000 =? 0) eqn:E.
    + apply Z.eqb_eq in E.
      assert (cnt mod 1000 = 999) as -> by (Z.div_mod_to_equations; lia).
      apply spaced_cons_block_checksum.
      specialize (IH (emit (checksumHead ++ be64 (crc64.Write (hash (emit (wire b) o)) checksumHead)) (emit (wire b) o)) (cnt + 1) ltac:(lia)).
      now rewrite E in IH.
    + apply Z.eqb_neq in E.
      assert ((cnt + 1) mod 1000 = cnt mod 1000 + 1) as E'
          by (Z.div_mod_to_equations; lia).
      apply spaced_cons_block; [Z.div_mod_to_equations; lia|].
      rewrite <- E'. apply IH. lia.
Qed.

End Spacing.

Section Gaps.

Context {D : Declarations}.

Lemma nth_error_middle {A} (pre : list A) x post :
  nth_error (pre ++ x :: post) (length pre) = Some x.
Proof. induction pre; simpl; auto. Qed.

Lemma spaced_checksum_at c pre v post :
  spaced c (pre ++ FChecksum v :: post) -> post <> [] ->
  (len pre + 1 + c) mod 1001 = 0.
Proof.
  intros (Hi & _ & _) Hp.
  apply (Hi (length pre) (FChecksum v)).
  - apply nth_error_middle.
  - rewrite length_app. cbn [length]. destruct post; [congruence|].
    cbn [length]. lia.
  - reflexivity.
Qed.

Lemma spaced_run c pre mid post :
  spaced c (pre ++ map FBlock mid ++ post) -> post <> [] ->
  forall k, 0 <= k < len mid -> (len pre + k + 1 + c) mod 1001 <> 0.
Proof.
  intros (Hi & _ & _) Hp k Hk. unfold len in *.
  destruct (nth_error mid (Z.to_nat k)) as [b|] eqn:Hb.
  2: { apply nth_error_None in Hb. lia. }
  specialize (Hi (length pre + Z.to_nat k)%nat (FBlock b)).
  rewrite nth_error_app2, Nat.add_comm, Nat.add_sub in Hi by lia.
  rewrite nth_error_app1 in Hi by (rewrite length_map; lia).
  rewrite nth_error_map, Hb in Hi.
  specialize (Hi eq_refl).
  rewrite !length_app, length_map in Hi.
  destruct post; [congruence|]. cbn [length] in Hi.
  specialize (Hi ltac:(lia)). cbn [isChecksum] in Hi.
  intros H. destruct Hi as [_ Hi].
  assert (E : Z.of_nat (length pre) + k + 1 + c
              = Z.of_nat (Z.to_nat k + length pre) + 1 + c) by lia.
  rewrite E in H. specialize (Hi H). discriminate.
Qed.

Lemma spaced_first_gap c mid w post :
  0 <= c < 1000 ->
  spaced c (map FBlock mid ++ FChecksum w :: post) -> post <> [] ->
  len mid = 1000 - c.
Proof.
  intros Hc Hs Hp.
  pose proof (spaced_checksum_at _ (map FBlock mid) w post Hs Hp) as HB.
  pose proof (spaced_run _ [] mid (FChecksum w :: post) Hs ltac:(discriminate))
    as Hmid.
  unfold len in *. rewrite length_map in HB. cbn [length] in Hmid.
  destruct (Z_lt_le_dec (1000 - c) (Z.of_nat (length mid))) as [Hgt|Hle].
  - exfalso. apply (Hmid (1000 - c)); [lia|].
    replace (Z.of_nat 0 + (1000 - c) + 1 + c) with (0 + 1 * 1001) by lia.
    now rewrite Z.mod_add by lia.
  - Z.div_mod_to_equations. lia.
Qed.

Lemma spaced_gap c pre v mid w post :
  spaced c (pre ++ FChecksum v :: map FBlock mid ++ FChecksum w :: post) ->
  post <> [] -> len mid = 1000.
Proof.
  intros Hs Hp.
  pose proof (spaced_checksum_at _ pre v _ Hs ltac:(now destruct mid)) as HA.
  assert (Hs' : spaced c ((pre ++ [FChecksum v]) ++ map FBlock mid
                          ++ FChecksum w :: post))
    by now rewrite <- app_assoc.
  pose proof (spaced_run _ _ mid _ Hs' ltac:(discriminate)) as Hmid.
  assert (Hs'' : spaced c ((pre ++ FChecksum v :: map FBlock mid)
                           ++ FChecksum w :: post))
    by now rewrite <- app_assoc.
  pose proof (spaced_checksum_at _ _ w post Hs'' Hp) as HB.
  unfold len in *.
  rewrite length_app in Hmid, HB. cbn [length] in Hmid, HB.
  rewrite length_map in HB.
  destruct (Z_lt_le_dec 1000 (Z.of_nat (length mid))) as [Hgt|Hle].
  - exfalso. apply (Hmid 1000); [lia|].
    replace (Z.of_nat (length pre + 1) + 1000 + 1 + c)
      with (Z.of_nat (length pre) + 1 + c + 1 * 1001) by lia.
    now rewrite Z.mod_add by lia.
  - Z.div_mod_to_equations. lia.
Qed.

Lemma spaced_last_gap c pre mid w :
  spaced c (pre ++ map FBlock mid ++ [FChecksum w]) -> len mid < 1000.
Proof.
  intros Hs.
  pose proof (spaced_run _ pre mid [FChecksum w] Hs ltac:(discriminate))
    as Hmid.
  destruct Hs as (_ & Hl & _). unfold len in *.
  rewrite !length_app, length_map in Hl. cbn [length] in Hl.
  destruct (Z_lt_le_dec (Z.of_nat (length mid)) 1000) as [Hlt|Hge]; [exact Hlt|].
  exfalso.
  set (r := (Z.of_nat (length pre + (length mid + 1)) + c) mod 1001) in *.
  assert (0 <= r < 1001) by (apply Z.mod_pos_bound; lia).
  apply (Hmid (Z.of_nat (length mid) - r)); [lia|].
  subst r. Z.div_mod_to_equations. lia.
Qed.

End Gaps.

Section StreamTheorems.

Context {D : Declarations}.

Lemma hashed_start lim :
  hashed (emit fastArchiverHeader (mkOutput [] lim crc64.New)).
Proof. unfold hashed, emit, crc64.Checksum. reflexivity. Qed.

(** C3. In a stream that was written without error, every checksum block
    stores the CRC-64 (ECMA) of all bytes of the stream before the stored
    value: the header, every earlier frame (checksum blocks included) and
    the block's own zero path length and type tag. *)
Theorem checksum_is_running_crc lim blocks o :
  archiveWriter lim blocks = (o, Nil) ->
  exists fs,
    sink o = fastArchiverHeader ++ encodeFrames fs
    /\ blocksOf fs = blocks
    /\ forall pre v post,
         fs = pre ++ FChecksum v :: post ->
         v = crc64.Checksum
               (fastArchiverHeader ++ encodeFrames pre ++ checksumHead).
Proof.
  intros H. apply archiveWriter_frames in H. cbv zeta in H.
  set (o0 := emit fastArchiverHeader (mkOutput [] lim crc64.New)) in *.
  exists (framesFrom o0 0 blocks). split; [|split].
  - subst o. reflexivity.
  - apply blocksOf_framesFrom.
  - intros pre v post Hfs.
    apply (framesFrom_checksums blocks o0 0 pre v post (hashed_start lim) Hfs).
Qed.

(** C4. In a stream that was written without error the frames end with a
    checksum block; a checksum block that is not the last one comes
    after exactly 1000 blocks (counted from the start of the stream or
    from the checksum block before it); and fewer than 1000 blocks
    separate the last checksum block from what precedes it. *)
Theorem checksum_every_1000_blocks lim blocks o :
  archiveWriter lim blocks = (o, Nil) ->
  exists fs,
    sink o = fastArchiverHeader ++ encodeFrames fs
    /\ blocksOf fs = blocks
    /\ (exists fs' v, fs = fs' ++ [FChecksum v])
    /\ (forall mid w post,
          fs = map FBlock mid ++ FChecksum w :: post -> post <> [] ->
          length mid = 1000%nat)
    /\ (forall pre v mid w post,
          fs = pre ++ FChecksum v :: map FBlock mid ++ FChecksum w :: post ->
          post <> [] -> length mid = 1000%nat)
    /\ (forall pre mid w,
          fs = pre ++ map FBlock mid ++ [FChecksum w] ->
          (length mid < 1000)%nat).
Proof.
  intros H. apply archiveWriter_frames in H. cbv zeta in H.
  set (o0 := emit fastArchiverHeader (mkOutput [] lim crc64.New)) in *.
  pose proof (framesFrom_spaced blocks o0 0 (Z.le_refl 0)) as Hs.
  change (0 mod 1000) with 0 in Hs.
  exists (framesFrom o0 0 blocks). repeat split.
  - subst o. reflexivity.
  - apply blocksOf_framesFrom.
  - apply Hs.
  - intros mid w post Hfs Hp. rewrite Hfs in Hs.
    pose proof (spaced_first_gap 0 mid w post ltac:(lia) Hs Hp).
    unfold len in *. lia.
  - intros pre v mid w post Hfs Hp. rewrite Hfs in Hs.
    pose proof (spaced_gap _ pre v mid w post Hs Hp).
    unfold len in *. lia.
  - intros pre mid w Hfs. rewrite Hfs in Hs.
    pose proof (spaced_last_gap _ pre mid w Hs).
    unfold len in *. lia.
Qed.

End StreamTheorems.

Lemma checksum_is_running_crc_witness :
  archiveWriter None twoBlocks = (fst (archiveWriter None twoBlocks), Nil)
  /\ exists fs,
       sink (fst (archiveWriter None twoBlocks))
       = fastArchiverHeader ++ encodeFrames fs
       /\ blocksOf fs = twoBlocks
       /\ forall pre v post,
            fs = pre ++ FChecksum v :: post ->
            v = crc64.Checksum
                  (fastArchiverHeader ++ encodeFrames pre ++ checksumHead).
Proof.
  split; [vm_compute; reflexivity|].
  apply (checksum_is_running_crc None twoBlocks). vm_compute. reflexivity.
Defined.


Lemma checksum_every_1000_blocks_witness :
  archiveWriter None manyBlocks = (fst (archiveWriter None manyBlocks), Nil)
  /\ exists fs,
       sink (fst (archiveWriter None manyBlocks))
       = fastArchiverHeader ++ encodeFrames fs
       /\ blocksOf fs = manyBlocks
       /\ (exists fs' v, fs = fs' ++ [FChecksum v])
       /\ (forall mid w post,
             fs = map FBlock mid ++ FChecksum w :: post -> post <> [] ->
             length mid = 1000%nat)
       /\ (forall pre v mid w post,
             fs = pre ++ FChecksum v :: map FBlock mid ++ FChecksum w :: post ->
             post <> [] -> length mid = 1000%nat)
       /\ (forall pre mid w,
             fs = pre ++ map FBlock mid ++ [FChecksum w] ->
             (length mid < 1000)%nat).
Proof.
  split; [vm_compute; reflexivity|].
  apply (checksum_every_1000_blocks None manyBlocks). vm_compute. reflexivity.
Defined.

(** ** One round of a worker *)

Section Rounds.

Context {D : Declarations} {FS : FileSystem}.

Lemma blocksSent_app xs ys :
  blocksSent (xs ++ ys) = blocksSent xs ++ blocksSent ys.
Proof.
  induction xs as [|[] xs IH]; cbn [blocksSent app]; rewrite ?IH; reflexivity.
Qed.

Lemma blocksSent_map_SendBlock bs : blocksSent (map SendBlock bs) = bs.
Proof. induction bs; cbn [map blocksSent]; congruence. Qed.

Lemma readLoop_chunks filePath reads :
  readLoop filePath reads
  = map SendBlock (map (dataBlock filePath) (chunksRead reads)).
Proof.
  induction reads as [|[chunk []] rest IH]; cbn [readLoop chunksRead map];
    try reflexivity.
  unfold dataBlock at 1. destruct (readInto chunk) as [n buf].
  cbn [fst snd]. now rewrite IH.
Qed.

Lemma fileReader_opened filePath file :
  Open filePath = Some file ->
  fileReader filePath
  = SendBlock (metadataBlock filePath blockTypeStartOfFile file)
    :: map SendBlock (map (dataBlock filePath) (chunksRead (Read file)))
    ++ [SendBlock (endOfFileBlock filePath); CloseFile; Done].
Proof.
  intros H. unfold fileReader, metadataBlock, endOfFileBlock. rewrite H.
  destruct (getModeOwnership file) as [[u g] m].
  now rewrite readLoop_chunks.
Qed.

Lemma readInto_small chunk :
  len chunk <= BlockSize ->
  fst (readInto chunk) = len chunk
  /\ len (snd (readInto chunk)) = BlockSize
  /\ firstn (length chunk) (snd (readInto chunk)) = chunk.
Proof.
  unfold readInto, len. intros H. cbn [fst snd].
  rewrite firstn_all2 by lia. repeat split.
  - rewrite length_app, repeat_length. lia.
  - rewrite firstn_app, firstn_all, Nat.sub_diag. cbn [firstn].
    now rewrite app_nil_r.
Qed.

(** The blocks of an opened file.  The file is read chunk by chunk into
    buffers of [BlockSize] bytes; the blocks sent for it are the
    StartOfFile block, one Data block for every chunk read before the
    read that ends the loop, and the EndOfFile block.  The Data block of
    a chunk of [n] bytes holds the chunk at the start of its buffer and
    [n mod 65536] as its 16-bit count: for [0 < n <= 65535] the count is
    the number of bytes read, positive and at most the chunk size.  A
    file whose first read reports the end of the file has no Data block. *)
Lemma fileReader_data_blocks (filePath : string) (file : File) :
  Open filePath = Some file ->
  blocksSent (fileReader filePath)
  = metadataBlock filePath blockTypeStartOfFile file
    :: map (dataBlock filePath) (chunksRead (Read file))
    ++ [endOfFileBlock filePath]
  /\ (forall chunk,
        In chunk (chunksRead (Read file)) -> len chunk <= BlockSize ->
        let b := dataBlock filePath chunk in
        blockType b = blockTypeData
        /\ len (buffer b) = BlockSize
        /\ firstn (length chunk) (buffer b) = chunk
        /\ numBytes b = len chunk mod 65536
        /\ (len chunk <= 65535 ->
            numBytes b = len chunk
            /\ firstn (Z.to_nat (numBytes b)) (buffer b) = chunk)
        /\ (0 < len chunk <= 65535 -> 0 < numBytes b <= BlockSize))
  /\ (chunksRead (Read file) = [] ->
      blocksSent (fileReader filePath)
      = [metadataBlock filePath blockTypeStartOfFile file;
         endOfFileBlock filePath]).
Proof.
  intros Ho.
  assert (E : blocksSent (fileReader filePath)
              = metadataBlock filePath blockTypeStartOfFile file
                :: map (dataBlock filePath) (chunksRead (Read file))
                ++ [endOfFileBlock filePath]).
  { rewrite (fileReader_opened _ _ Ho). cbn [blocksSent].
    now rewrite blocksSent_app, blocksSent_map_SendBlock. }
  split; [exact E|]. split.
  - intros chunk _ Hs b.
    destruct (readInto_small chunk Hs) as (Hn & Hb & Hf).
    assert (Hm : numBytes b = len chunk mod 65536)
      by (subst b; unfold dataBlock, uint16; cbn [numBytes]; now rewrite Hn).
    assert (0 <= len chunk) by (unfold len; lia).
    repeat split; try assumption.
    + rewrite Hm, Z.mod_small by lia. reflexivity.
    + rewrite Hm, Z.mod_small by lia. unfold len.
      rewrite Nat2Z.id. exact Hf.
    + rewrite Hm, Z.mod_small by lia. lia.
    + rewrite Hm, Z.mod_small by lia. lia.
  - intros Hz. rewrite E, Hz. reflexivity.
Qed.

(** C2. The count of a Data block is a [uint16], on the wire a field of
    two bytes.  With a chunk size of 65536 bytes or more, a read that
    delivers 65536 bytes is sent as a Data block whose buffer holds the
    bytes read and whose count is [uint16(65536) = 0]; [writeBlock] then
    writes the head of the block and the two count bytes [00 00], and
    none of the 65536 bytes.  The block does not carry the bytes read,
    and its count is not the number of bytes read. *)
Theorem full_chunk_is_dropped (filePath : string) (file : File)
    (chunk : list byte) (o : Output) :
  distinctTypes D -> 65536 <= BlockSize ->
  Open filePath = Some file ->
  In chunk (chunksRead (Read file)) -> len chunk = 65536 ->
  limit o = None ->
  let b := dataBlock filePath chunk in
  In b (blocksSent (fileReader filePath))
  /\ blockType b = blockTypeData
  /\ firstn (length chunk) (buffer b) = chunk
  /\ numBytes b = 0
  /\ writeBlock b o = (emit (blockHead b ++ [0; 0]) o, Nil).
Proof.
  intros Hd Hs Ho Hin Hl Hlim b.
  destruct (readInto_small chunk) as (Hn & Hb & Hf); [lia|].
  assert (Hz : numBytes b = 0).
  { subst b. unfold dataBlock, uint16. cbn [numBytes].
    rewrite Hn, Hl. reflexivity. }
  split.
  { rewrite (fileReader_opened _ _ Ho). cbn [blocksSent]. right.
    rewrite blocksSent_app, blocksSent_map_SendBlock.
    apply in_or_app. left. now apply in_map. }
  split; [reflexivity|]. split; [exact Hf|]. split; [exact Hz|].
  destruct (distinctTypes_neq Hd) as (n1 & n2 & n3 & _).
  apply writeBlock_unlimited; [exact Hlim|]. unfold payload.
  rewrite Hz. change (blockType b) with blockTypeData.
  change (buffer b) with (snd (readInto chunk)).
  rewrite Z.eqb_refl, !(proj2 (Z.eqb_neq _ _)) by congruence. cbn [orb].
  rewrite (proj2 (Z.leb_le _ _)) by lia. reflexivity.
Qed.

End Rounds.

(** The file [root/d/f] of the example tree: one chunk of 10 bytes. *)
Lemma fileReader_data_blocks_witness :
  Open "root/d/f"
  = Some (regular [([0; 1; 2; 3; 4; 5; 6; 7; 8; 9], ErrNone); ([], EOF)])
  /\ map numBytes (blocksSent (fileReader "root/d/f")) = [0; 10; 0].
Proof.
  split; [reflexivity|].
  destruct (@fileReader_data_blocks refDeclarations exampleFS "root/d/f"
              (regular [([0; 1; 2; 3; 4; 5; 6; 7; 8; 9], ErrNone); ([], EOF)])
              eq_refl) as (E & _ & _).
  rewrite E. vm_compute. reflexivity.
Defined.

(** The file of 130000 bytes read with the chunk size 65536: the counts
    of its four blocks are 0, 0, 64464 and 0, and the Data block of the
    first 65536 bytes puts its head and two zero bytes on the wire. *)
Lemma full_chunk_is_dropped_witness :
  len fullChunk = 65536
  /\ map numBytes (blocksSent (@fileReader refDeclarations bigFS "d/f"))
     = [0; 0; 64464; 0]
  /\ let b := @dataBlock refDeclarations "d/f" fullChunk in
     In b (blocksSent (@fileReader refDeclarations bigFS "d/f"))
     /\ blockType b = blockTypeData
     /\ firstn (length fullChunk) (buffer b) = fullChunk
     /\ numBytes b = 0
     /\ writeBlock b (mkOutput [] None crc64.New)
        = (emit (blockHead b ++ [0; 0]) (mkOutput [] None crc64.New), Nil).
Proof.
  assert (L : len fullChunk = 65536) by (vm_compute; reflexivity).
  split; [exact L|]. split; [vm_compute; reflexivity|].
  apply (@full_chunk_is_dropped refDeclarations bigFS "d/f" bigFile
           fullChunk (mkOutput [] None crc64.New)
           refDeclarations_distinct).
  - cbn. lia.
  - reflexivity.
  - left. reflexivity.
  - exact L.
  - reflexivity.
Defined.

Section RoundTheorems.

Context {D : Declarations} {FS : FileSystem}.

Lemma dataBlock_type filePath chunk :
  blockType (dataBlock filePath chunk) = blockTypeData.
Proof. reflexivity. Qed.

Lemma metadataBlock_type filePath type file :
  blockType (metadataBlock filePath type file) = type.
Proof.
  unfold metadataBlock. now destruct (getModeOwnership file) as [[u g] m].
Qed.

Lemma metadataBlock_path path type file :
  filePath (metadataBlock path type file) = path.
Proof.
  unfold metadataBlock. now destruct (getModeOwnership file) as [[u g] m].
Qed.

(** C7. One round of the file reader.  When the file opens, the round
    sends exactly one EndOfFile block, as the last block, whatever the
    reads return (data and then the end of the file, an error, or the end
    at once); the handle is then closed and the unit of work marked done.
    When the file does not open, the round sends no block and only marks
    the unit of work done, so the worker goes on to its next path. *)
Theorem fileReader_one_EndOfFile (filePath : string) :
  distinctTypes D ->
  (forall file, Open filePath = Some file ->
     (exists front,
        fileReader filePath
        = front ++ [SendBlock (endOfFileBlock filePath); CloseFile; Done]
        /\ Forall (fun b => blockType b <> blockTypeEndOfFile)
             (blocksSent front))
     /\ length (filter (fun b => blockType b =? blockTypeEndOfFile)
                  (blocksSent (fileReader filePath))) = 1%nat)
  /\ (Open filePath = None ->
      fileReader filePath = [Done] /\ blocksSent (fileReader filePath) = []).
Proof.
  intros Hd.
  destruct (distinctTypes_neq Hd)
    as (n1 & n2 & n3 & n4 & n5 & n6 & n7 & n8 & n9 & n10).
  split.
  - intros file Ho.
    set (front := SendBlock (metadataBlock filePath blockTypeStartOfFile file)
                  :: map SendBlock
                       (map (dataBlock filePath) (chunksRead (Read file)))).
    assert (E : fileReader filePath
                = front ++ [SendBlock (endOfFileBlock filePath);
                            CloseFile; Done])
      by (rewrite (fileReader_opened _ _ Ho); reflexivity).
    assert (F : Forall (fun b => blockType b <> blockTypeEndOfFile)
                  (blocksSent front)).
    { subst front. cbn [blocksSent]. rewrite blocksSent_map_SendBlock.
      constructor.
      - rewrite metadataBlock_type. congruence.
      - apply Forall_forall. intros b Hb. apply in_map_iff in Hb.
        destruct Hb as (c & <- & _). rewrite dataBlock_type. congruence. }
    split; [now exists front|].
    rewrite E, blocksSent_app, filter_app, length_app.
    cbn [blocksSent filter endOfFileBlock blockType].
    rewrite Z.eqb_refl. cbn [length].
    replace (filter _ (blocksSent front)) with (@nil Block); [reflexivity|].
    symmetry. induction F as [|b l Hb _ IH]; [reflexivity|].
    cbn [filter]. now rewrite (proj2 (Z.eqb_neq _ _) Hb).
  - intros Ho. unfold fileReader. rewrite Ho. split; reflexivity.
Qed.

(** C10. When the handle is open and its Stat call fails, the ownership
    lookup answers uid 0, gid 0 and mode 0, and the round goes on as
    usual: the scanner sends the Directory block with these zeros and then
    walks the entries, the file reader sends the StartOfFile block with
    them and then reads the file. *)
Theorem stat_failure_sends_zero_metadata (a : Archiver) (path : string)
    (file : File) :
  Open path = Some file -> Stat file = None ->
  getModeOwnership file = (0, 0, 0)
  /\ (prefix "/" path = false ->
      directoryScanner a path
      = SendBlock (mkBlock path 0 [] blockTypeDirectory 0 0 0)
        :: flat_map (scanEntry a path) (fst (readdirnames file))
        ++ (if snd (readdirnames file) then [CloseFile; Done] else [Stall]))
  /\ fileReader path
     = SendBlock (mkBlock path 0 [] blockTypeStartOfFile 0 0 0)
       :: readLoop path (Read file)
       ++ [SendBlock (mkBlock path 0 [] blockTypeEndOfFile 0 0 0);
           CloseFile; Done].
Proof.
  intros Ho Hs.
  assert (G : getModeOwnership file = (0, 0, 0))
    by (unfold getModeOwnership; now rewrite Hs).
  split; [exact G|]. split.
  - intros Hp. unfold directoryScanner. rewrite Hp, Ho, G.
    now destruct (readdirnames file) as [names closes].
  - unfold fileReader. now rewrite Ho, G.
Qed.

End RoundTheorems.

(** The file [root/keep] of the example tree, and a path that does not
    open. *)
Lemma fileReader_one_EndOfFile_witness :
  distinctTypes refDeclarations
  /\ map blockType (blocksSent (fileReader "root/keep")) = [1; 0; 2]
  /\ fileReader "nowhere" = [Done].
Proof.
  split; [exact refDeclarations_distinct|].
  destruct (@fileReader_one_EndOfFile refDeclarations exampleFS "nowhere"
              refDeclarations_distinct) as [_ H].
  split; [vm_compute; reflexivity|]. apply H. reflexivity.
Defined.

(** A directory and a file whose handles cannot be stat'ed. *)
Lemma stat_failure_sends_zero_metadata_witness :
  @Open statFailFS "d" = Some unstattable
  /\ Stat unstattable = None
  /\ map (fun b => (blockType b, uid b, gid b, mode b))
       (blocksSent (@fileReader refDeclarations statFailFS "d"))
     = [(1, 0, 0, 0); (0, 0, 0, 0); (2, 0, 0, 0)].
Proof.
  split; [reflexivity|]. split; [reflexivity|].
  destruct (@stat_failure_sends_zero_metadata refDeclarations statFailFS
              (NewArchiver None) "d" unstattable eq_refl eq_refl)
    as (_ & _ & H).
  rewrite H. vm_compute. reflexivity.
Defined.

(** ** The pipeline: steps and runs *)

Section StepFacts.

Context {D : Declarations} {FS : FileSystem}.
Variable a : Archiver.

Lemma perform_performs s act s1 :
  perform a s act = Some s1 -> performs a s act s1.
Proof.
  unfold perform. destruct act; intros H.
  - injection H as <-. constructor.
  - injection H as <-. constructor.
  - destruct (wip s <=? 0) eqn:E; injection H as <-.
    + apply performs_Done_panics. now apply Z.leb_le.
    + apply performs_Done. apply Z.leb_gt in E. lia.
  - destruct (closed s) eqn:Ec.
    + injection H as <-. now constructor.
    + destruct (room _ _ _) eqn:Er; [|discriminate].
      injection H as <-. now constructor.
  - injection H as <-. constructor.
  - destruct (closed s) eqn:Ec.
    + injection H as <-. now constructor.
    + destruct (room _ _ _) eqn:Er; [|discriminate].
      injection H as <-. now constructor.
  - injection H as <-. constructor.
  - discriminate.
Qed.

Lemma fire_steps s t e s' : fire a s t = Some (e, s') -> steps a s e s'.
Proof.
  unfold fire. destruct (returned s) eqn:Hr; [discriminate|].
  destruct t as [i|j|k| |].
  - destruct (nth_error (scanners s) i) as [w|] eqn:Hw; [|discriminate].
    destruct (todo w) as [|act rest] eqn:Ht.
    + destruct (dirChan s) as [|p rest] eqn:Hq; [discriminate|].
      intros H; injection H as <- <-. now apply scanner_receives with w.
    + destruct (perform a s act) as [s1|] eqn:Hp; [|discriminate].
      intros H; injection H as <- <-. now apply scanner_acts.
  - destruct (nth_error (readers s) j) as [w|] eqn:Hw; [|discriminate].
    destruct (todo w) as [|act rest] eqn:Ht.
    + destruct (fileChan s) as [|p rest] eqn:Hq; [discriminate|].
      intros H; injection H as <- <-. now apply reader_receives with w.
    + destruct (perform a s act) as [s1|] eqn:Hp; [|discriminate].
      intros H; injection H as <- <-. now apply reader_acts.
  - destruct (nth_error (senders s) k) as [p|] eqn:Hp; [|discriminate].
    destruct (closed s) eqn:Hc.
    + intros H; injection H as <- <-. now apply sender_panics with k.
    + destruct (room _ _ _) eqn:Hroom; [|discriminate].
      intros H; injection H as <- <-. now apply sender_delivers.
  - destruct (closed s) eqn:Hc; cbn [negb andb]; [discriminate|].
    destruct (wip s =? 0) eqn:Hz; [|discriminate].
    intros H; injection H as <- <-. apply terminator_closes; auto.
    now apply Z.eqb_eq.
  - destruct (blockChan s) as [|b rest] eqn:Hb.
    + destruct (closed s) eqn:Hc; [|discriminate].
      destruct (writeChecksumBlock (fst (writer s))) as [o werr] eqn:Hw.
      intros H; injection H as <- <-. now apply writer_returns.
    + destruct (writerRound (writer s) b) as [st werr] eqn:Hw.
      intros H; injection H as <- <-. now apply writer_writes.
Qed.

Lemma exec_reaches sched : forall h s es s',
  reaches a h s -> exec a s sched = Some (es, s') -> reaches a (h ++ es) s'.
Proof.
  induction sched as [|t rest IH]; intros h s es s' Hr He; cbn [exec] in He.
  - injection He as <- <-. now rewrite app_nil_r.
  - destruct (fire a s t) as [[e s1]|] eqn:Hf; [|discriminate].
    destruct (exec a s1 rest) as [[es1 s2]|] eqn:Hx; [|discriminate].
    injection He as <- <-.
    replace (h ++ e :: es1) with ((h ++ [e]) ++ es1)
      by now rewrite <- app_assoc.
    eapply IH; [|exact Hx]. eapply reaches_fire; eauto.
Qed.

Lemma drive_exec fuel : forall s ts es s',
  drive a fuel s = (ts, es, s') -> exec a s ts = Some (es, s').
Proof.
  induction fuel as [|n IH]; intros s ts es s' H; cbn [drive] in H.
  - injection H as <- <- <-. reflexivity.
  - destruct (firstEnabled a s (candidates s)) as [[[t e] s1]|] eqn:Hf.
    + destruct (drive a n s1) as [[ts1 es1] s2] eqn:Hd.
      injection H as <- <- <-. cbn [exec].
      assert (Hfire : fire a s t = Some (e, s1)).
      { clear - Hf. induction (candidates s) as [|c cs IHc];
          cbn [firstEnabled] in Hf; [discriminate|].
        destruct (fire a s c) as [[e' s']|] eqn:Hc.
        - now injection Hf as <- <- <-.
        - auto. }
      rewrite Hfire, (IH _ _ _ _ Hd). reflexivity.
    + injection H as <- <- <-. reflexivity.
Qed.

End StepFacts.

(** ** Lists of workers *)

Lemma replace_length {A} i (x : A) l : length (replace i x l) = length l.
Proof.
  revert i; induction l as [|y l IH]; intros [|i]; cbn [replace length];
    auto.
Qed.

Lemma replace_Forall {A} (P : A -> Prop) i x l :
  Forall P l -> P x -> Forall P (replace i x l).
Proof.
  intros Hl Hx. revert i.
  induction Hl as [|y l Hy Hl IH]; intros [|i]; cbn [replace]; auto.
Qed.

Lemma replace_In {A} i (x y : A) l :
  In y (replace i x l) -> y = x \/ In y l.
Proof.
  revert i; induction l as [|z l IH]; intros [|i]; cbn [replace In];
    try tauto.
  - intros [H|H]; auto.
  - intros [H|H]; auto. destruct (IH _ H); auto.
Qed.

Lemma nth_error_replace_same {A} i (x y : A) l :
  nth_error l i = Some y -> nth_error (replace i x l) i = Some x.
Proof.
  revert i; induction l as [|z l IH]; intros [|i]; cbn [replace nth_error];
    try discriminate; auto.
Qed.

Lemma nth_error_replace_other {A} i j (x : A) l :
  i <> j -> nth_error (replace i x l) j = nth_error l j.
Proof.
  revert i j; induction l as [|z l IH]; intros [|i] [|j] H;
    cbn [replace nth_error]; auto; congruence.
Qed.

Lemma remove_nth_Permutation {A} k (x : A) l :
  nth_error l k = Some x -> Permutation l (x :: remove_nth k l).
Proof.
  revert k; induction l as [|y l IH]; intros [|k] H;
    cbn [nth_error remove_nth] in *; try discriminate.
  - injection H as ->. reflexivity.
  - rewrite (IH _ H) at 1. apply perm_swap.
Qed.

Lemma remove_nth_length {A} k (x : A) l :
  nth_error l k = Some x -> length l = S (length (remove_nth k l)).
Proof.
  intros H. apply remove_nth_Permutation in H.
  now rewrite (Permutation_length H).
Qed.

(** ** Projections of the history *)

Lemma stream_app h h' : stream (h ++ h') = stream h ++ stream h'.
Proof.
  induction h as [|[| [] | | | |] h IH]; cbn [stream app]; rewrite ?IH;
    reflexivity.
Qed.

Lemma enqueued_app h h' : enqueued (h ++ h') = enqueued h ++ enqueued h'.
Proof.
  induction h as [|[| [] | | | |] h IH]; cbn [enqueued app]; rewrite ?IH;
    reflexivity.
Qed.

Lemma taken_app h h' : taken (h ++ h') = taken h ++ taken h'.
Proof.
  induction h as [|[] h IH]; cbn [taken app]; rewrite ?IH; reflexivity.
Qed.

Lemma written_app h h' : written (h ++ h') = written h ++ written h'.
Proof.
  induction h as [|[] h IH]; cbn [written app]; rewrite ?IH; reflexivity.
Qed.

(** ** The blocks of a round can be encoded *)

Section ProducerFacts.

Context {D : Declarations} {FS : FileSystem}.

Lemma andThen_not_Panicked m k :
  (forall o, snd (m o) <> Panicked) -> (forall o, snd (k o) <> Panicked) ->
  forall o, snd ((m >> k) o) <> Panicked.
Proof.
  intros Hm Hk o. unfold andThen. specialize (Hm o).
  destruct (m o) as [o1 [| |]]; cbn [snd] in *; auto; discriminate.
Qed.

Lemma producer_writeBlock b o :
  producer b -> snd (writeBlock b o) <> Panicked.
Proof.
  intros [Ht Hn]. unfold writeBlock. revert o.
  repeat apply andThen_not_Panicked; try (intros; apply Write_not_Panicked).
  intros o.
  destruct ((blockType b =? blockTypeDirectory)
            || (blockType b =? blockTypeStartOfFile)) eqn:E1.
  { revert o. repeat apply andThen_not_Panicked;
      intros; apply Write_not_Panicked. }
  destruct (blockType b =? blockTypeEndOfFile) eqn:E2; [discriminate|].
  destruct (blockType b =? blockTypeData) eqn:E3.
  - revert o. apply andThen_not_Panicked;
      [intros; apply Write_not_Panicked|].
    intros o. rewrite (proj2 (Z.leb_le _ _)) by lia.
    apply Write_not_Panicked.
  - exfalso. apply orb_false_iff in E1. destruct E1 as [E0 E1].
    apply Z.eqb_neq in E0, E1, E2, E3. intuition congruence.
Qed.

Lemma producer_writerRound st b :
  producer b -> snd (writerRound st b) <> Panicked.
Proof.
  intros Hb. destruct st as [o cnt]. unfold writerRound.
  pose proof (producer_writeBlock b o Hb) as Hw.
  destruct (writeBlock b o) as [o1 [| |]]; cbn [snd] in *;
    try congruence; try discriminate.
  destruct ((cnt + 1) mod 1000 =? 0); [|discriminate].
  pose proof (writeChecksumBlock_not_Panicked o1) as Hc.
  destruct (writeChecksumBlock o1) as [o2 r]. exact Hc.
Qed.

Lemma dataBlock_producer filePath chunk : producer (dataBlock filePath chunk).
Proof.
  unfold producer, dataBlock, readInto, uint16, len.
  cbn [blockType numBytes buffer fst snd]. split; [tauto|].
  rewrite length_app, repeat_length.
  pose proof (Z.mod_pos_bound
                (Z.of_nat (length (firstn (Z.to_nat BlockSize) chunk)))
                65536 ltac:(lia)).
  pose proof (Z.mod_le
                (Z.of_nat (length (firstn (Z.to_nat BlockSize) chunk)))
                65536 ltac:(lia) ltac:(lia)).
  lia.
Qed.

Lemma metadataBlock_producer filePath type file :
  type = blockTypeDirectory \/ type = blockTypeStartOfFile ->
  producer (metadataBlock filePath type file).
Proof.
  intros Ht. unfold producer, metadataBlock.
  destruct (getModeOwnership file) as [[u g] m].
  unfold len. cbn [blockType numBytes buffer length]. split; [tauto|lia].
Qed.

Lemma endOfFileBlock_producer filePath : producer (endOfFileBlock filePath).
Proof.
  unfold producer, endOfFileBlock.
  unfold len. cbn [blockType numBytes buffer length]. split; [tauto|lia].
Qed.

Lemma blocksSent_scanEntries a directoryPath names :
  blocksSent (flat_map (scanEntry a directoryPath) names) = [].
Proof.
  induction names as [|n names IH]; cbn [flat_map]; [reflexivity|].
  rewrite blocksSent_app, IH, app_nil_r. unfold scanEntry.
  destruct (excludeFile _ _); [reflexivity|].
  destruct (Lstat _) as [fi|]; [|reflexivity].
  destruct (negb _); [reflexivity|]. now destruct (IsDir fi).
Qed.

Lemma directoryScanner_blocks a directoryPath :
  blocksSent (directoryScanner a directoryPath)
  = if prefix "/" directoryPath then []
    else match Open directoryPath with
         | Some directory =>
             [metadataBlock directoryPath blockTypeDirectory directory]
         | None => []
         end.
Proof.
  unfold directoryScanner, metadataBlock.
  destruct (prefix "/" directoryPath); [reflexivity|].
  destruct (Open directoryPath) as [dir|]; [|reflexivity].
  destruct (getModeOwnership dir) as [[u g] m].
  destruct (readdirnames dir) as [names closes].
  cbn [blocksSent]. rewrite blocksSent_app, blocksSent_scanEntries.
  now destruct closes.
Qed.

Lemma fileReader_blocks filePath :
  blocksSent (fileReader filePath)
  = match Open filePath with
    | Some file =>
        metadataBlock filePath blockTypeStartOfFile file
        :: map (dataBlock filePath) (chunksRead (Read file))
        ++ [endOfFileBlock filePath]
    | None => []
    end.
Proof.
  destruct (Open filePath) as [file|] eqn:Ho.
  - rewrite (fileReader_opened _ _ Ho). cbn [blocksSent].
    now rewrite blocksSent_app, blocksSent_map_SendBlock.
  - unfold fileReader. now rewrite Ho.
Qed.

Lemma directoryScanner_producers a directoryPath :
  Forall producer (blocksSent (directoryScanner a directoryPath)).
Proof.
  rewrite directoryScanner_blocks.
  destruct (prefix "/" directoryPath); [constructor|].
  destruct (Open directoryPath); [|constructor].
  constructor; [|constructor]. apply metadataBlock_producer. now left.
Qed.

Lemma fileReader_producers filePath :
  Forall producer (blocksSent (fileReader filePath)).
Proof.
  rewrite fileReader_blocks. destruct (Open filePath); [|constructor].
  constructor; [apply metadataBlock_producer; now right|].
  apply Forall_app. split.
  - apply Forall_forall. intros b Hb. apply in_map_iff in Hb.
    destruct Hb as (c & <- & _). apply dataBlock_producer.
  - constructor; [|constructor]. apply endOfFileBlock_producer.
Qed.

End ProducerFacts.

(** ** What holds in every state of a run *)

Ltac fields :=
  cbn [dirChan senders fileChan blockChan closed wip err scanners readers
       writer returned setDirChan setSenders setFileChan setBlockChan
       setClosed setWip setErr setScanners setReaders setWriter setReturned
       crash job todo] in *.

Ltac step_cases H :=
  inversion H; subst; clear H;
  try match goal with
    | Hp : perform _ _ _ = Some _ |- _ =>
        apply perform_performs in Hp; inversion Hp; subst; clear Hp
    end;
  fields.

Section Encodable.

Context {D : Declarations} {FS : FileSystem}.
Variable a : Archiver.

Lemma reaches_invariant (P : list event -> System -> Prop) :
  P [] (Run a) ->
  (forall h s e s', reaches a h s -> P h s -> steps a s e s' ->
                    P (h ++ [e]) s') ->
  forall h s, reaches a h s -> P h s.
Proof.
  intros H0 Hs h s Hr. induction Hr as [|h s t e s' Hr IH Hf].
  - exact H0.
  - eapply Hs; eauto. eapply fire_steps; eauto.
Qed.

Lemma Run_scanners :
  scanners (Run a) = repeat (mkWorker "" []) (Z.to_nat (DirReaderCount a)).
Proof. unfold Run. now destruct (writerStart (output a)). Qed.

Lemma Run_readers :
  readers (Run a) = repeat (mkWorker "" []) (Z.to_nat (FileReaderCount a)).
Proof. unfold Run. now destruct (writerStart (output a)). Qed.

Lemma Run_queues :
  dirChan (Run a) = queued a /\ senders (Run a) = []
  /\ fileChan (Run a) = [] /\ blockChan (Run a) = []
  /\ closed (Run a) = false /\ wip (Run a) = workInProgress a
  /\ err (Run a) = None.
Proof. unfold Run. now destruct (writerStart (output a)). Qed.

Lemma Forall_repeat {A} (P : A -> Prop) x n : P x -> Forall P (repeat x n).
Proof. intros H. induction n; cbn [repeat]; auto. Qed.

Lemma worker_rest ws i w act rest :
  nth_error ws i = Some w -> todo w = act :: rest ->
  Forall sendsProducers ws -> sendsProducers (mkWorker (job w) rest).
Proof.
  intros Hn E Hf. rewrite Forall_forall in Hf.
  specialize (Hf w (nth_error_In _ _ Hn)).
  unfold sendsProducers in *. rewrite E in Hf. cbn [todo].
  destruct act; cbn [blocksSent] in Hf; try exact Hf. now inversion Hf.
Qed.

Lemma worker_sends ws i w b rest :
  nth_error ws i = Some w -> todo w = SendBlock b :: rest ->
  Forall sendsProducers ws -> producer b.
Proof.
  intros Hn E Hf. rewrite Forall_forall in Hf.
  specialize (Hf w (nth_error_In _ _ Hn)).
  unfold sendsProducers in Hf. rewrite E in Hf. cbn [blocksSent] in Hf.
  now inversion Hf.
Qed.

Lemma encodable_Run : encodable [] (Run a).
Proof.
  unfold encodable. rewrite Run_scanners, Run_readers.
  destruct Run_queues as (_ & _ & _ & -> & _).
  repeat split; try apply Forall_repeat; try constructor.
Qed.

Lemma encodable_step h s e s' :
  encodable h s -> steps a s e s' -> encodable (h ++ [e]) s'.
Proof.
  intros (Hs & Hr & Hq & Hh) Hstep. unfold encodable.
  rewrite stream_app.
  step_cases Hstep; cbn [stream app]; rewrite ?app_nil_r;
    repeat match goal with
      | |- _ /\ _ => split
      end;
    auto;
    try (apply replace_Forall; auto);
    try (unfold sendsProducers; cbn [todo];
         first [apply directoryScanner_producers
               |apply fileReader_producers]; fail);
    try (eapply worker_rest; eauto; fail);
    try (apply Forall_app; split; [assumption|];
         constructor; [|constructor]; eapply worker_sends; eauto; fail).
  all: try (rewrite H0 in Hq; now inversion Hq).
  all: try (destruct werr; fields; rewrite H0 in Hq; now inversion Hq).
Qed.

Lemma reaches_encodable h s : reaches a h s -> encodable h s.
Proof.
  apply reaches_invariant; [apply encodable_Run|].
  intros; eapply encodable_step; eauto.
Qed.

End Encodable.

Section ProducedBlocks.

Context {D : Declarations} {FS : FileSystem}.
Variable a : Archiver.

(** C9. Every block the scanners and readers put on the block queue
    carries one of the four types Directory, StartOfFile, Data and
    EndOfFile, so [writeBlock] never reaches the panic of its default
    case (nor any other panic) on a block of the pipeline. *)
Theorem pipeline_blocks_have_producer_types h s :
  reaches a h s ->
  forall b, In b (stream h) ->
    (blockType b = blockTypeDirectory \/ blockType b = blockTypeStartOfFile
     \/ blockType b = blockTypeData \/ blockType b = blockTypeEndOfFile)
    /\ (forall o, snd (writeBlock b o) <> Panicked)
    /\ (forall st, snd (writerRound st b) <> Panicked).
Proof.
  intros Hr b Hb.
  destruct (reaches_encodable _ _ _ Hr) as (_ & _ & _ & Hh).
  rewrite Forall_forall in Hh. specialize (Hh b Hb).
  split; [apply Hh|]. split.
  - intros o. now apply producer_writeBlock.
  - intros st. now apply producer_writerRound.
Qed.

End ProducedBlocks.

Lemma exampleRun_reaches :
  reaches exampleArchiver (snd (fst exampleRun)) (snd exampleRun).
Proof.
  unfold exampleRun.
  destruct (drive exampleArchiver 200 (Run exampleArchiver))
    as [[ts es] s] eqn:E.
  apply drive_exec in E. cbn [fst snd].
  apply (exec_reaches exampleArchiver ts [] (Run exampleArchiver) es s).
  - constructor.
  - exact E.
Qed.

(** The run of the example tree: ten blocks, none of the checksum type. *)
Lemma pipeline_blocks_have_producer_types_witness :
  reaches exampleArchiver (snd (fst exampleRun)) (snd exampleRun)
  /\ map blockType (stream (snd (fst exampleRun)))
     = [3; 1; 0; 2; 1; 2; 3; 1; 0; 2]
  /\ forall b, In b (stream (snd (fst exampleRun))) ->
       (blockType b = blockTypeDirectory \/ blockType b = blockTypeStartOfFile
        \/ blockType b = blockTypeData \/ blockType b = blockTypeEndOfFile)
       /\ (forall o, snd (writeBlock b o) <> Panicked)
       /\ (forall st, snd (writerRound st b) <> Panicked).
Proof.
  split; [exact exampleRun_reaches|]. split; [vm_compute; reflexivity|].
  exact (pipeline_blocks_have_producer_types _ _ _ exampleRun_reaches).
Defined.

(** ** The WaitGroup counts the outstanding units of work *)

Lemma balance_app xs ys : balance (xs ++ ys) = balance xs + balance ys.
Proof. induction xs; cbn [balance app]; lia. Qed.

Lemma owing_nonneg acts : owing acts -> 0 <= balance acts.
Proof. destruct acts; cbn [owing]; [cbn; lia|]. intros [H _]. lia. Qed.

Lemma owing_quiet_prefix l tail :
  Forall (fun act => bal act = 0) l -> owing tail -> 1 <= balance tail ->
  owing (l ++ tail) /\ balance (l ++ tail) = balance tail.
Proof.
  intros Hl Ht Hb. induction Hl as [|act l Ha Hl IH]; cbn [app]; auto.
  destruct IH as [IH1 IH2]. cbn [owing balance]. rewrite IH2, Ha.
  repeat split; auto; lia.
Qed.

Lemma load_replace ws : forall i w w',
  nth_error ws i = Some w ->
  load (replace i w' ws) = load ws - balance (todo w) + balance (todo w').
Proof.
  induction ws as [|x ws IH]; intros [|i] w w' H;
    cbn [nth_error replace load] in *; try discriminate.
  - injection H as ->. lia.
  - rewrite (IH _ _ _ H). lia.
Qed.

Lemma load_nonneg ws : Forall (fun w => owing (todo w)) ws -> 0 <= load ws.
Proof.
  induction 1 as [|w ws Hw _ IH]; cbn [load]; [lia|].
  apply owing_nonneg in Hw. lia.
Qed.

Lemma load_ge ws : forall i w,
  Forall (fun w => owing (todo w)) ws -> nth_error ws i = Some w ->
  balance (todo w) <= load ws.
Proof.
  induction ws as [|x ws IH]; intros [|i] w Hf H;
    cbn [nth_error load] in *; try discriminate; inversion Hf; subst.
  - injection H as ->. pose proof (load_nonneg _ H3). lia.
  - specialize (IH _ _ H3 H). apply owing_nonneg in H2. lia.
Qed.

Lemma load_idle ws :
  Forall (fun w => owing (todo w)) ws -> load ws = 0 ->
  Forall (fun w => todo w = []) ws.
Proof.
  induction 1 as [|w ws Hw Hf IH]; cbn [load]; intros H0; constructor.
  - pose proof (load_nonneg _ Hf). destruct (todo w); [reflexivity|].
    destruct Hw as [Hw _]. lia.
  - apply IH. pose proof (load_nonneg _ Hf). apply owing_nonneg in Hw. lia.
Qed.

Lemma load_repeat n : load (repeat (mkWorker "" []) n) = 0.
Proof. induction n; cbn [repeat load todo balance]; lia. Qed.

Section Accounting.

Context {D : Declarations} {FS : FileSystem}.
Variable a : Archiver.

Lemma scanEntries_owing directoryPath names tail :
  owing tail -> balance tail = 1 ->
  owing (flat_map (scanEntry a directoryPath) names ++ tail)
  /\ balance (flat_map (scanEntry a directoryPath) names ++ tail) = 1.
Proof.
  intros Ht Hb. induction names as [|n names [IH1 IH2]]; cbn [flat_map app].
  - split; auto.
  - rewrite <- app_assoc. unfold scanEntry at 1 3.
    destruct (excludeFile _ _); [now split|].
    destruct (Lstat _) as [fi|]; [|now split].
    destruct (negb _); [now split|].
    destruct (IsDir fi); cbn [app owing balance bal]; rewrite IH2;
      repeat split; auto; lia.
Qed.

Lemma directoryScanner_owing directoryPath :
  owing (directoryScanner a directoryPath)
  /\ balance (directoryScanner a directoryPath) = 1.
Proof.
  unfold directoryScanner.
  destruct (prefix "/" directoryPath); [cbn; repeat split; lia|].
  destruct (Open directoryPath) as [dir|]; [|cbn; repeat split; lia].
  destruct (getModeOwnership dir) as [[u g] m].
  destruct (readdirnames dir) as [names closes].
  assert (T : owing (if closes then [CloseFile; Done] else [Stall])
              /\ balance (if closes then [CloseFile; Done] else [Stall]) = 1)
    by (destruct closes; cbn; repeat split; lia).
  destruct T as [T1 T2].
  destruct (scanEntries_owing directoryPath names _ T1 T2) as [E1 E2].
  cbn [owing balance bal]. rewrite E2. repeat split; auto; lia.
Qed.

Lemma fileReader_owing filePath :
  owing (fileReader filePath) /\ balance (fileReader filePath) = 1.
Proof.
  destruct (Open filePath) as [file|] eqn:Ho.
  - rewrite (fileReader_opened _ _ Ho).
    change (SendBlock ?b :: ?l ++ ?t) with ((SendBlock b :: l) ++ t).
    assert (T : owing [SendBlock (endOfFileBlock filePath); CloseFile; Done]
                /\ balance [SendBlock (endOfFileBlock filePath);
                            CloseFile; Done] = 1)
      by (cbn; repeat split; lia).
    destruct T as [T1 T2].
    assert (Q : Forall (fun act => bal act = 0)
                  (SendBlock (metadataBlock filePath blockTypeStartOfFile file)
                   :: map SendBlock
                        (map (dataBlock filePath) (chunksRead (Read file))))).
    { constructor; [reflexivity|]. apply Forall_forall. intros act Hact.
      apply in_map_iff in Hact. now destruct Hact as (b & <- & _). }
    assert (T3 : 1 <= balance [SendBlock (endOfFileBlock filePath);
                               CloseFile; Done]) by lia.
    destruct (owing_quiet_prefix _ _ Q T1 T3) as [E1 E2].
    rewrite E2, T2. now split.
  - unfold fileReader. rewrite Ho. cbn. repeat split; lia.
Qed.

Lemma sound_Run : ready a -> sound (Run a).
Proof.
  intros (Hw & Hf & Hb & Hd). unfold sound, accounted.
  rewrite Run_scanners, Run_readers, !load_repeat.
  destruct (Run_queues a) as (-> & -> & -> & _ & -> & -> & _).
  repeat split.
  - rewrite Hw. unfold len. cbn [length]. lia.
  - apply Forall_repeat. exact I.
  - apply Forall_repeat. exact I.
  - discriminate.
  - unfold Run. destruct (writerStart (output a)) as [st werr] eqn:E.
    cbn [returned].
    rewrite (proj2 (Z.ltb_ge _ _) Hf), (proj2 (Z.ltb_ge _ _) Hb).
    cbn [orb].
    assert (Hn : werr <> Panicked).
    { unfold writerStart in E.
      pose proof (Write_not_Panicked fastArchiverHeader
                    (mkOutput [] (output a) crc64.New)) as Hp.
      destruct (Write fastArchiverHeader _) as [o r]. injection E as _ <-.
      exact Hp. }
    destruct (directoryScanQueue a) eqn:Eq.
    + destruct werr; congruence.
    + rewrite (proj2 (Z.ltb_ge _ _) (Hd eq_refl)). destruct werr; congruence.
Qed.

Lemma active_scanner_counted s i w act rest :
  sound s -> nth_error (scanners s) i = Some w -> todo w = act :: rest ->
  1 <= wip s /\ closed s = false.
Proof.
  intros (Ha & Hs & Hr & Hc & _) Hw Ht.
  pose proof (load_ge _ _ _ Hs Hw) as Hl.
  pose proof (load_nonneg _ Hr) as Hn.
  rewrite Forall_forall in Hs. specialize (Hs w (nth_error_In _ _ Hw)).
  rewrite Ht in *. destruct Hs as [Hs _].
  assert (1 <= wip s) by (rewrite Ha; unfold len; lia).
  split; [assumption|]. destruct (closed s); [|reflexivity].
  specialize (Hc eq_refl). lia.
Qed.

Lemma active_reader_counted s j w act rest :
  sound s -> nth_error (readers s) j = Some w -> todo w = act :: rest ->
  1 <= wip s /\ closed s = false.
Proof.
  intros (Ha & Hs & Hr & Hc & _) Hw Ht.
  pose proof (load_ge _ _ _ Hr Hw) as Hl.
  pose proof (load_nonneg _ Hs) as Hn.
  rewrite Forall_forall in Hr. specialize (Hr w (nth_error_In _ _ Hw)).
  rewrite Ht in *. destruct Hr as [Hr _].
  assert (1 <= wip s) by (rewrite Ha; unfold len; lia).
  split; [assumption|]. destruct (closed s); [|reflexivity].
  specialize (Hc eq_refl). lia.
Qed.

Lemma waiting_sender_counted s k p :
  sound s -> nth_error (senders s) k = Some p ->
  1 <= wip s /\ closed s = false.
Proof.
  intros (Ha & Hs & Hr & Hc & _) Hk.
  pose proof (load_nonneg _ Hs). pose proof (load_nonneg _ Hr).
  apply remove_nth_length in Hk.
  assert (1 <= wip s) by (rewrite Ha; unfold len; lia).
  split; [assumption|]. destruct (closed s); [|reflexivity].
  specialize (Hc eq_refl). lia.
Qed.

End Accounting.

Section Soundness.

Context {D : Declarations} {FS : FileSystem}.
Variable a : Archiver.

Lemma owing_rest ws i w act rest :
  nth_error ws i = Some w -> todo w = act :: rest ->
  Forall (fun w => owing (todo w)) ws ->
  owing (todo (mkWorker (job w) rest)).
Proof.
  intros Hn E Hf. rewrite Forall_forall in Hf.
  specialize (Hf w (nth_error_In _ _ Hn)). rewrite E in Hf.
  cbn [todo]. apply Hf.
Qed.

Ltac account :=
  unfold accounted in *; fields;
  repeat match goal with
    | Hn : nth_error ?ws ?i = Some ?w |- context [load (replace ?i _ ?ws)] =>
        rewrite (load_replace ws i _ _ Hn)
    end;
  repeat match goal with
    | Ht : todo ?w = _ |- _ => rewrite Ht in *
    end;
  repeat match goal with
    | Hq : dirChan _ = _ |- _ => rewrite Hq in *
    | Hq : fileChan _ = _ |- _ => rewrite Hq in *
    end;
  unfold len in *; rewrite ?length_app; cbn [length balance bal todo] in *;
  try lia.

Ltac settle :=
  repeat split; fields; auto; try congruence;
  try (apply replace_Forall; auto; fail); try account.

Lemma sound_step h s e s' :
  encodable h s -> sound s -> steps a s e s' -> sound s'.
Proof.
  intros He Hsound Hstep.
  pose proof Hsound as (Ha & Hs & Hr & Hc & Hp).
  inversion Hstep; subst; clear Hstep.
  - (* a scanner receives *)
    destruct (directoryScanner_owing a p) as [O1 O2]. settle.
  - (* a scanner acts *)
    destruct (active_scanner_counted _ _ _ _ _ Hsound H0 H1) as [Hw Hcl].
    apply perform_performs in H2.
    pose proof (owing_rest _ _ _ _ _ H0 H1 Hs) as Ho.
    inversion H2; subst; clear H2; fields; try lia; try congruence; settle.
  - (* a reader receives *)
    destruct (fileReader_owing p) as [O1 O2]. settle.
  - (* a reader acts *)
    destruct (active_reader_counted _ _ _ _ _ Hsound H0 H1) as [Hw Hcl].
    apply perform_performs in H2.
    pose proof (owing_rest _ _ _ _ _ H0 H1 Hr) as Ho.
    inversion H2; subst; clear H2; fields; try lia; try congruence; settle.
  - (* a sender delivers *)
    pose proof (remove_nth_length _ _ _ H0). settle.
  - (* a sender on a closed queue *)
    destruct (waiting_sender_counted _ _ _ Hsound H0). congruence.
  - (* the queues are closed *)
    settle.
  - (* the writer writes a block *)
    destruct He as (_ & _ & Hq & _). rewrite H0 in Hq.
    pose proof (producer_writerRound (writer s) b
                  (Forall_inv Hq)) as Hn.
    rewrite H1 in Hn. cbn [snd] in Hn.
    destruct werr; try congruence; settle.
  - (* the writer returns *)
    pose proof (writeChecksumBlock_not_Panicked (fst (writer s))) as Hn.
    rewrite H2 in Hn. cbn [snd] in Hn.
    settle. unfold runResult. destruct werr; try congruence.
    destruct (err s); congruence.
Qed.

Lemma reaches_sound h s : ready a -> reaches a h s -> sound s.
Proof.
  intros Hready Hr.
  induction Hr as [|h s t e s' Hr IH Hf].
  - now apply sound_Run.
  - eapply sound_step; eauto.
    + eapply reaches_encodable; eauto.
    + eapply fire_steps; eauto.
Qed.

End Soundness.

(** ** The error of an absolute root *)

Lemma In_replace_new {A} i (x w : A) l :
  nth_error l i = Some w -> In x (replace i x l).
Proof.
  revert i; induction l as [|y l IH]; intros [|i] H;
    cbn [nth_error replace In] in *; try discriminate; eauto.
Qed.

Lemma In_replace_old {A} i (x y w : A) l :
  In y l -> nth_error l i = Some w -> y = w \/ In y (replace i x l).
Proof.
  revert i; induction l as [|z l IH]; intros [|i] Hy H;
    cbn [nth_error replace In] in *; try discriminate; try tauto.
  - injection H as ->. destruct Hy; auto.
  - destruct Hy as [->|Hy]; auto. destruct (IH _ Hy H); auto.
Qed.

Lemma tame_Write p : tame (Write p).
Proof.
  intros o. unfold Write. destruct (fits o p) eqn:E; cbn [fst snd limit].
  - split; [reflexivity|]. intros e [=].
  - split; [reflexivity|]. intros e [= <-]. split; [reflexivity|].
    unfold fits in E. now destruct (limit o).
Qed.

Lemma tame_andThen m k : tame m -> tame k -> tame (m >> k).
Proof.
  intros Hm Hk o. unfold andThen. destruct (Hm o) as [L F].
  destruct (m o) as [o1 [| |]]; cbn [fst snd] in *.
  - destruct (Hk o1) as [L' F']. rewrite <- L. split; [exact L'|].
    intros e He. destruct (F' e He). split; congruence.
  - split; [exact L|]. exact F.
  - split; [exact L|]. intros e [=].
Qed.

Lemma tame_skip : tame skip.
Proof. intros o. split; [reflexivity|]. intros e [=]. Qed.

Lemma tame_panic : tame panic.
Proof. intros o. split; [reflexivity|]. intros e [=]. Qed.

Section Tame.

Context {D : Declarations}.

Lemma tame_writeBlock b : tame (writeBlock b).
Proof.
  unfold writeBlock.
  repeat apply tame_andThen; try apply tame_Write.
  repeat match goal with
    | |- tame (if ?c then _ else _) => destruct c
    end;
    repeat apply tame_andThen;
    auto using tame_Write, tame_skip, tame_panic.
  destruct (numBytes b <=? len (buffer b));
    auto using tame_Write, tame_panic.
Qed.

Lemma tame_writeChecksumBlock : tame writeChecksumBlock.
Proof.
  unfold writeChecksumBlock.
  repeat apply tame_andThen; try apply tame_Write.
  intros o. apply tame_Write.
Qed.

Lemma writerRound_tame st b :
  limit (fst (fst (writerRound st b))) = limit (fst st)
  /\ forall e, snd (writerRound st b) = Failed e ->
               e = ErrWrite /\ limit (fst st) <> None.
Proof.
  destruct st as [o cnt]. unfold writerRound.
  destruct (tame_writeBlock b o) as [L F].
  destruct (writeBlock b o) as [o1 [| |]]; cbn [fst snd] in *.
  - destruct ((cnt + 1) mod 1000 =? 0).
    + destruct (tame_writeChecksumBlock o1) as [L' F'].
      destruct (writeChecksumBlock o1) as [o2 r]. cbn [fst snd] in *.
      split; [congruence|]. intros e He. destruct (F' e He).
      split; congruence.
    + split; [exact L|]. intros e [=].
  - split; [exact L|]. exact F.
  - split; [exact L|]. intros e [=].
Qed.

End Tame.

Section Recorded.

Context {D : Declarations} {FS : FileSystem}.
Variable a : Archiver.

Lemma directoryScanner_absolute p :
  prefix "/" p = true -> directoryScanner a p = [SetError; Done].
Proof. unfold directoryScanner. now intros ->. Qed.

Lemma recorded_Run :
  ready a -> (exists p, In p (queued a) /\ prefix "/" p = true) ->
  recorded a (Run a).
Proof.
  intros (_ & Hf & Hb & Hd) Hp. unfold recorded, Run, writerStart.
  destruct (tame_Write fastArchiverHeader (mkOutput [] (output a) crc64.New))
    as [L F].
  pose proof (Write_not_Panicked fastArchiverHeader
                (mkOutput [] (output a) crc64.New)) as N.
  destruct (Write fastArchiverHeader _) as [o r]. cbn [fst snd limit] in *.
  split; [exact L|].
  rewrite (proj2 (Z.ltb_ge _ _) Hf), (proj2 (Z.ltb_ge _ _) Hb).
  cbn [orb].
  assert (E : match directoryScanQueue a with
              | Some _ => false
              | None => DirScanQueueSize a <? 0
              end = false).
  { destruct (directoryScanQueue a); [reflexivity|].
    apply Z.ltb_ge. now apply Hd. }
  rewrite E. destruct r; cbn [returned]; [| |congruence].
  - right. now left.
  - right. destruct (F e eq_refl). subst. auto.
Qed.

Lemma ahead_preserved s s' :
  ahead s ->
  (err s = Some ErrAbsoluteDirectoryPath ->
   err s' = Some ErrAbsoluteDirectoryPath) ->
  (forall p, In p (dirChan s) -> prefix "/" p = true -> ahead s') ->
  (forall x, In x (scanners s) -> In SetError (todo x) -> ahead s') ->
  ahead s'.
Proof.
  intros [He|[(p & Hp & Habs)|(x & Hx & Hin)]] H1 H2 H3; eauto.
  left. auto.
Qed.

Lemma ahead_scanner_acts s s1 i w act rest :
  ahead s -> nth_error (scanners s) i = Some w -> todo w = act :: rest ->
  performs a s act s1 -> returned s1 = None ->
  ahead (setScanners s1 (replace i (mkWorker (job w) rest) (scanners s1))).
Proof.
  intros Ha Hw Ht Hp Hr.
  assert (K : dirChan s1 = dirChan s \/ exists p, dirChan s1 = dirChan s ++ [p])
    by (inversion Hp; subst; fields; auto; discriminate).
  assert (Ks : scanners s1 = scanners s)
    by (inversion Hp; subst; fields; auto; discriminate).
  assert (Ke : err s = Some ErrAbsoluteDirectoryPath ->
               err s1 = Some ErrAbsoluteDirectoryPath)
    by (inversion Hp; subst; fields; auto; discriminate).
  assert (Kd : forall p, In p (dirChan s) -> In p (dirChan s1)).
  { intros p Hin. inversion Hp; subst; fields; auto; discriminate. }
  apply (ahead_preserved s); auto.
  - intros p Hin Habs. right; left. exists p. fields. auto.
  - intros x Hx Hin. rewrite Ks.
    destruct (In_replace_old i (mkWorker (job w) rest) _ _ _ Hx Hw)
      as [->|Hx'].
    + rewrite Ht in Hin. destruct Hin as [->|Hin].
      * left. inversion Hp; subst; fields; auto.
      * right; right. eexists. split; [eapply In_replace_new; eauto|].
        exact Hin.
    + right; right. exists x. fields. auto.
Qed.

Lemma ahead_reader_acts s s1 j w act rest :
  ahead s -> performs a s act s1 -> returned s1 = None ->
  ahead (setReaders s1 (replace j (mkWorker (job w) rest) (readers s1))).
Proof.
  intros Ha Hp Hr.
  assert (Ks : scanners s1 = scanners s)
    by (inversion Hp; subst; fields; auto; discriminate).
  assert (Ke : err s = Some ErrAbsoluteDirectoryPath ->
               err s1 = Some ErrAbsoluteDirectoryPath)
    by (inversion Hp; subst; fields; auto; discriminate).
  assert (Kd : forall p, In p (dirChan s) -> In p (dirChan s1)).
  { intros p Hin. inversion Hp; subst; fields; auto; discriminate. }
  apply (ahead_preserved s); auto.
  - intros p Hin Habs. right; left. exists p. fields. auto.
  - intros x Hx Hin. right; right. exists x. fields. rewrite Ks. auto.
Qed.

Lemma performs_writer s act s1 :
  performs a s act s1 -> writer s1 = writer s.
Proof. intros Hp; inversion Hp; subst; reflexivity. Qed.

Lemma performs_returned s act s1 :
  performs a s act s1 -> returned s = None ->
  returned s1 = None \/ returned s1 = Some Panicked.
Proof. intros Hp H; inversion Hp; subst; fields; auto. Qed.

Lemma recorded_step s e s' :
  sound s -> returned s' <> Some Panicked ->
  recorded a s -> steps a s e s' -> recorded a s'.
Proof.
  intros Hsound Hnp [Hl Hrec] Hstep. unfold recorded in *.
  inversion Hstep; subst; clear Hstep; rewrite H in Hrec.
  - (* a scanner receives *)
    fields. rewrite H. split; [assumption|].
    apply (ahead_preserved s); auto.
    + intros q Hq Habs. rewrite H2 in Hq. destruct Hq as [->|Hq].
      * right; right. eexists. split; [eapply In_replace_new; eauto|].
        cbn [todo]. rewrite (directoryScanner_absolute _ Habs). now left.
      * right; left. exists q. fields. auto.
    + intros x Hx Hin. right; right.
      destruct (In_replace_old i (mkWorker p (directoryScanner a p))
                  _ _ _ Hx H0) as [->|Hx'].
      * rewrite H1 in Hin. destruct Hin.
      * exists x. fields. auto.
  - (* a scanner acts *)
    apply perform_performs in H2. fields.
    rewrite (performs_writer _ _ _ H2).
    destruct (performs_returned _ _ _ H2 H) as [Hr|Hr]; [|congruence].
    rewrite Hr. split; [assumption|].
    eapply ahead_scanner_acts; eauto.
  - (* a reader receives *)
    fields. rewrite H. split; [assumption|exact Hrec].
  - (* a reader acts *)
    apply perform_performs in H2. fields.
    rewrite (performs_writer _ _ _ H2).
    destruct (performs_returned _ _ _ H2 H) as [Hr|Hr]; [|congruence].
    rewrite Hr. split; [assumption|].
    eapply ahead_reader_acts; eauto.
  - (* a sender delivers *)
    fields. rewrite H. split; [assumption|].
    apply (ahead_preserved s); auto.
    + intros q Hq Habs. right; left. exists q. fields.
      split; [apply in_or_app; auto|assumption].
    + intros x Hx Hin. right; right. exists x. fields. auto.
  - (* a sender on a closed queue *)
    fields. congruence.
  - (* the queues are closed *)
    fields. rewrite H. split; [assumption|exact Hrec].
  - (* the writer writes *)
    destruct (writerRound_tame (writer s) b) as [L F]. rewrite H1 in L, F.
    cbn [fst snd] in *.
    destruct werr; fields; rewrite ?H; (split; [congruence|]).
    + exact Hrec.
    + destruct (F e eq_refl). subst. right. split; congruence.
    + congruence.
  - (* the writer returns *)
    destruct (tame_writeChecksumBlock (fst (writer s))) as [L F].
    rewrite H2 in L, F. fields. cbn [fst snd] in *. split; [congruence|].
    destruct Hsound as (Ha & Hs & Hr & Hc & _).
    specialize (Hc H1). unfold accounted in Ha.
    pose proof (load_nonneg _ Hs). pose proof (load_nonneg _ Hr).
    assert (Hd : dirChan s = []).
    { destruct (dirChan s); [reflexivity|].
      unfold len in Ha. cbn [length] in Ha. lia. }
    assert (Hi : Forall (fun w => todo w = []) (scanners s)).
    { apply load_idle; auto. unfold len in Ha. lia. }
    assert (He : err s = Some ErrAbsoluteDirectoryPath).
    { destruct Hrec as [He|[(q & Hq & _)|(x & Hx & Hin)]]; auto.
      - rewrite Hd in Hq. destruct Hq.
      - rewrite Forall_forall in Hi. rewrite (Hi x Hx) in Hin.
        destruct Hin. }
    unfold runResult in *. rewrite He in *. destruct werr; auto.
    + destruct (F e eq_refl). subst. right. split; congruence.
    + congruence.
Qed.

Lemma reaches_recorded h s :
  ready a -> (exists p, In p (queued a) /\ prefix "/" p = true) ->
  reaches a h s -> recorded a s.
Proof.
  intros Hready Habs Hr.
  induction Hr as [|h s t e s' Hr IH Hf].
  - now apply recorded_Run.
  - pose proof (reaches_sound a _ _ Hready Hr) as Hs.
    pose proof (reaches_sound a _ _ Hready (reaches_fire _ _ _ _ _ _ Hr Hf))
      as (_ & _ & _ & _ & Hp).
    eapply recorded_step; eauto. eapply fire_steps; eauto.
Qed.

End Recorded.

(** ** Every step uses up some of what is left *)

Lemma total_app {A} (f : A -> nat) xs ys :
  total f (xs ++ ys) = (total f xs + total f ys)%nat.
Proof. induction xs; cbn [total app]; lia. Qed.

Lemma total_replace {A} (f : A -> nat) l : forall i x w,
  nth_error l i = Some w ->
  (total f (replace i x l) + f w = total f l + f x)%nat.
Proof.
  induction l as [|y l IH]; intros [|i] x w H;
    cbn [nth_error replace total] in *; try discriminate.
  - injection H as ->. lia.
  - specialize (IH _ x _ H). lia.
Qed.

Lemma total_remove_nth {A} (f : A -> nat) l : forall k x,
  nth_error l k = Some x ->
  total f l = (f x + total f (remove_nth k l))%nat.
Proof.
  induction l as [|y l IH]; intros [|k] x H;
    cbn [nth_error remove_nth total] in *; try discriminate.
  - injection H as ->. lia.
  - rewrite (IH _ _ H). lia.
Qed.

Section Termination.

Context {D : Declarations} {FS : FileSystem}.
Variable weight : string -> nat.
Variable a : Archiver.
Hypothesis finite : finiteTree weight a.

Lemma fileReader_quiet p : Forall quiet (fileReader p).
Proof.
  destruct (Open p) as [file|] eqn:Ho.
  - rewrite (fileReader_opened _ _ Ho). constructor; [exact I|].
    apply Forall_app. split.
    + apply Forall_forall. intros act Hact. apply in_map_iff in Hact.
      now destruct Hact as (b & <- & _).
    + repeat constructor.
  - unfold fileReader. rewrite Ho. repeat constructor.
Qed.

Lemma quiet_effort acts :
  Forall quiet acts -> effort weight acts = total quietCost acts.
Proof.
  induction 1 as [|act acts Ha _ IH]; [reflexivity|].
  unfold effort in *. cbn [total]. rewrite IH.
  destruct act; cbn [quiet] in Ha; try contradiction; reflexivity.
Qed.

Lemma fileReader_effort p :
  effort weight (fileReader p) = readerEffort p.
Proof. apply quiet_effort, fileReader_quiet. Qed.

Lemma remaining_step s e s' :
  steps a s e s' -> (remaining weight s' < remaining weight s)%nat.
Proof.
  intros Hstep. unfold remaining.
  inversion Hstep; subst; clear Hstep; rewrite H;
    try (apply perform_performs in H2; inversion H2; subst; clear H2);
    fields; rewrite ?H; try lia;
    try (destruct werr; fields; rewrite ?H; try lia);
    unfold pending; fields;
    repeat match goal with
      | Hq : dirChan _ = _ |- _ => rewrite Hq in *
      | Hq : fileChan _ = _ |- _ => rewrite Hq in *
      | Hq : blockChan _ = _ |- _ => rewrite Hq in *
      | Hq : closed _ = _ |- _ => rewrite Hq in *
      end;
    repeat match goal with
      | Hn : nth_error ?ws ?i = Some ?w
        |- context [total ?f (replace ?i ?x ?ws)] =>
          pose proof (total_replace f ws i x w Hn);
          generalize dependent (total f (replace i x ws)); intros
      | Hn : nth_error ?l ?k = Some ?x
        |- context [total ?f (remove_nth ?k ?l)] =>
          rewrite (total_remove_nth f l k x Hn)
      end;
    rewrite ?total_app, ?length_app; cbn [total length todo] in *;
    repeat match goal with
      | Ht : todo ?w = _ |- _ => rewrite Ht in *
      end;
    unfold effort in *; cbn [total cost] in *;
    try (pose proof (finite p); pose proof (fileReader_effort p);
         unfold effort in *);
    try lia.
Qed.

Lemma remaining_exec sched : forall s es s',
  exec a s sched = Some (es, s') ->
  (length sched + remaining weight s' <= remaining weight s)%nat.
Proof.
  induction sched as [|t rest IH]; intros s es s' He; cbn [exec] in He.
  - injection He as _ <-. cbn [length]. lia.
  - destruct (fire a s t) as [[e s1]|] eqn:Hf; [|discriminate].
    destruct (exec a s1 rest) as [[es1 s2]|] eqn:Hx; [|discriminate].
    injection He as _ <-. apply fire_steps in Hf.
    apply remaining_step in Hf. specialize (IH _ _ _ Hx).
    cbn [length]. lia.
Qed.

End Termination.

(** ** A run that has not returned can take a step *)

Lemma idle_or_active (ws : list worker) :
  Forall (fun x => todo x = []) ws
  \/ exists i x act rest, nth_error ws i = Some x /\ todo x = act :: rest.
Proof.
  induction ws as [|x ws [IH|(i & y & act & rest & Hn & Ht)]].
  - left. constructor.
  - destruct (todo x) as [|act rest] eqn:E.
    + left. now constructor.
    + right. exists O, x, act, rest. now split.
  - right. exists (S i), y, act, rest. now split.
Qed.

Lemma existsb_idle ws :
  ws <> [] -> Forall (fun x => todo x = []) ws -> existsb idle ws = true.
Proof.
  destruct ws as [|x ws]; [congruence|]. intros _ H. inversion H; subst.
  cbn [existsb]. unfold idle at 1. now rewrite H2.
Qed.

Lemma load_of_idle ws : Forall (fun x => todo x = []) ws -> load ws = 0.
Proof.
  induction 1 as [|x ws Hx _ IH]; cbn [load]; [reflexivity|].
  rewrite Hx, IH. reflexivity.
Qed.

Lemma remove_nth_Forall {A} (P : A -> Prop) k l :
  Forall P l -> Forall P (remove_nth k l).
Proof.
  intros H. revert k. induction H as [|x l Hx Hl IH]; intros [|k];
    cbn [remove_nth]; auto.
Qed.

Section Progress.

Context {D : Declarations} {FS : FileSystem}.
Variable dirs : string -> Prop.
Variable a : Archiver.
Hypothesis covered : scannable dirs a.

Lemma scanEntries_no_Stall directoryPath names :
  ~ In Stall (flat_map (scanEntry a directoryPath) names).
Proof.
  induction names as [|n names IH]; cbn [flat_map]; [tauto|].
  intros H. apply in_app_or in H. destruct H as [H|H]; [|tauto].
  unfold scanEntry in H.
  destruct (excludeFile _ _); [destruct H|].
  destruct (Lstat _) as [fi|]; [|destruct H].
  destruct (negb _); [destruct H|].
  destruct (IsDir fi); cbn [In] in H; intuition discriminate.
Qed.

Lemma directoryScanner_no_Stall p :
  dirs p -> ~ In Stall (directoryScanner a p).
Proof.
  intros Hp. destruct covered as [_ Hc]. destruct (Hc p Hp) as [He _].
  unfold directoryScanner.
  destruct (prefix "/" p); [cbn [In]; intuition discriminate|].
  destruct (Open p) as [dir|] eqn:Ho; [|cbn [In]; intuition discriminate].
  destruct (getModeOwnership dir) as [[u g] m].
  specialize (He dir eq_refl).
  destruct (readdirnames dir) as [names closes]. cbn [snd] in He. subst.
  intros [H|H]; [discriminate|]. apply in_app_or in H.
  destruct H as [H|H]; [now apply scanEntries_no_Stall in H|].
  cbn [In] in H. intuition discriminate.
Qed.

Lemma steady_Run : steady dirs a (Run a).
Proof.
  unfold steady. rewrite Run_scanners, Run_readers, !repeat_length.
  destruct (Run_queues a) as (-> & -> & _).
  split; [reflexivity|]. split; [reflexivity|].
  split; [apply Forall_repeat; constructor|].
  split; [apply Forall_repeat; cbn [todo In]; tauto|].
  split; [|constructor].
  apply Forall_forall. apply covered.
Qed.

Lemma steady_step s e s' :
  steady dirs a s -> steps a s e s' -> steady dirs a s'.
Proof.
  intros (Ls & Lr & Q & N & Cd & Cs) Hstep. unfold steady.
  assert (Qn : forall j x act rest, nth_error (readers s) j = Some x ->
                 todo x = act :: rest -> quiet act /\ Forall quiet rest).
  { intros j x act rest Hn Ht. rewrite Forall_forall in Q.
    specialize (Q x (nth_error_In _ _ Hn)). rewrite Ht in Q.
    now inversion Q. }
  assert (Nn : forall i x act rest, nth_error (scanners s) i = Some x ->
                 todo x = act :: rest ->
                 (~ In Stall rest
                  /\ forall q, In (GoSendDir q) rest -> dirs q)
                 /\ forall q, act = GoSendDir q -> dirs q).
  { intros i x act rest Hn Ht. rewrite Forall_forall in N.
    destruct (N x (nth_error_In _ _ Hn)) as [N1 N2]. rewrite Ht in *.
    cbn [In] in *.
    split; [split; [tauto|intros q Hq; apply N2; tauto]|].
    intros q ->. apply N2. tauto. }
  inversion Hstep; subst; clear Hstep.
  - (* a scanner receives *)
    rewrite H2 in Cd. inversion Cd; subst.
    fields; rewrite ?replace_length; repeat split; auto.
    apply replace_Forall; auto. cbn [todo]. split.
    + now apply directoryScanner_no_Stall.
    + destruct covered as [_ Hc]. now apply Hc.
  - (* a scanner acts *)
    destruct (Nn _ _ _ _ H0 H1) as [Hrest Hact].
    apply perform_performs in H2; inversion H2; subst; clear H2;
      fields; rewrite ?replace_length; repeat split; auto;
      try (apply replace_Forall; auto; fail).
    apply Forall_app. split; auto.
  - (* a reader receives *)
    fields; rewrite ?replace_length; repeat split; auto.
    apply replace_Forall; auto. cbn [todo]. apply fileReader_quiet.
  - (* a reader acts *)
    destruct (Qn _ _ _ _ H0 H1) as [Hq Hrest].
    apply perform_performs in H2; inversion H2; subst; clear H2;
      fields; rewrite ?replace_length; repeat split; auto;
      try (apply replace_Forall; auto; fail).
    destruct Hq.
  - (* a sender delivers *)
    fields; repeat split; auto.
    + apply Forall_app. split; auto. constructor; [|constructor].
      rewrite Forall_forall in Cs. eapply Cs, nth_error_In, H0.
    + now apply remove_nth_Forall.
  - fields; repeat split; auto.
  - fields; repeat split; auto.
  - destruct werr; fields; repeat split; auto.
  - fields; repeat split; auto.
Qed.

Lemma reaches_steady h s : reaches a h s -> steady dirs a s.
Proof.
  induction 1 as [|h s t e s' Hr IH Hf]; [apply steady_Run|].
  eapply steady_step; eauto. eapply fire_steps; eauto.
Qed.

Lemma can_act s act :
  closed s = false -> 0 < wip s -> act <> Stall ->
  (forall b, act = SendBlock b -> blockChan s = []) ->
  (forall p, act = SendFile p ->
     fileChan s = [] /\ existsb idle (readers s) = true) ->
  exists s1, perform a s act = Some s1.
Proof.
  intros Hc Hw Hn Hb Hf. unfold perform. destruct act; eauto.
  - destruct (wip s <=? 0); eauto.
  - rewrite Hc, (Hb b eq_refl). unfold room. cbn [len length].
    rewrite orb_true_r. eauto.
  - rewrite Hc. destruct (Hf p eq_refl) as [-> ->]. unfold room.
    rewrite orb_true_r. eauto.
  - congruence.
Qed.

Lemma progress s :
  sound s -> steady dirs a s ->
  1 <= DirReaderCount a -> 1 <= FileReaderCount a ->
  returned s = None ->
  exists t e s', fire a s t = Some (e, s').
Proof.
  intros Hsound (Ls & Lr & Q & N & _ & _) Hd Hf Hret.
  pose proof Hsound as (Ha & Hs & Hr & Hc & _).
  assert (Sne : scanners s <> [])
    by (intros E; rewrite E in Ls; cbn [length] in Ls; lia).
  assert (Rne : readers s <> [])
    by (intros E; rewrite E in Lr; cbn [length] in Lr; lia).
  (* the writer has a block to write *)
  destruct (blockChan s) as [|b bs] eqn:Hb.
  2: { exists Writer. unfold fire. rewrite Hret, Hb.
       destruct (writerRound (writer s) b); eauto. }
  (* a reader is in its round *)
  destruct (idle_or_active (readers s))
    as [Ri|(j & x & act & rest & Hn & Ht)].
  2: { destruct (active_reader_counted _ _ _ _ _ Hsound Hn Ht) as [Hw Hcl].
       rewrite Forall_forall in Q. specialize (Q x (nth_error_In _ _ Hn)).
       rewrite Ht in Q. inversion Q as [|? ? Hq _]; subst.
       destruct (can_act s act) as [s1 Hp]; auto; try lia.
       - intros ->. exact Hq.
       - intros p ->. destruct Hq.
       - exists (Reader j). unfold fire. rewrite Hret, Hn, Ht, Hp. eauto. }
  (* a file waits for an idle reader *)
  destruct (fileChan s) as [|p ps] eqn:Hfc.
  2: { destruct (readers s) as [|x rs] eqn:Er; [congruence|].
       inversion Ri; subst. exists (Reader 0). unfold fire.
       rewrite Hret, Er. cbn [nth_error]. rewrite H1, Hfc. eauto. }
  (* a scanner is in its round *)
  destruct (idle_or_active (scanners s))
    as [Si|(i & x & act & rest & Hn & Ht)].
  2: { destruct (active_scanner_counted _ _ _ _ _ Hsound Hn Ht) as [Hw Hcl].
       rewrite Forall_forall in N.
       destruct (N x (nth_error_In _ _ Hn)) as [N1 _]. rewrite Ht in N1.
       destruct (can_act s act) as [s1 Hp]; auto; try lia.
       - intros ->. apply N1. now left.
       - intros q _. split; [exact Hfc|]. now apply existsb_idle.
       - exists (Scanner i). unfold fire. rewrite Hret, Hn, Ht, Hp. eauto. }
  (* a directory waits for an idle scanner *)
  destruct (dirChan s) as [|p ps] eqn:Hdc.
  2: { destruct (scanners s) as [|x ss] eqn:Es; [congruence|].
       inversion Si; subst. exists (Scanner 0). unfold fire.
       rewrite Hret, Es. cbn [nth_error]. rewrite H1, Hdc. eauto. }
  (* a goroutine delivers a subdirectory *)
  destruct (senders s) as [|p ps] eqn:Hse.
  2: { destruct (waiting_sender_counted s O p Hsound) as [Hw Hcl];
         [now rewrite Hse|].
       exists (Sender 0). unfold fire. rewrite Hret, Hse. cbn [nth_error].
       rewrite Hcl, Hdc. unfold room. rewrite existsb_idle by auto.
       rewrite orb_true_r. eauto. }
  (* nothing is left: the queues are closed and the writer returns *)
  assert (Hz : wip s = 0).
  { unfold accounted in Ha. rewrite Ha, Hdc, Hse, Hfc.
    rewrite !load_of_idle by auto. reflexivity. }
  destruct (closed s) eqn:Hcl.
  - exists Writer. unfold fire. rewrite Hret, Hb, Hcl.
    destruct (writeChecksumBlock (fst (writer s))); eauto.
  - exists Terminator. unfold fire. rewrite Hret, Hcl, Hz. cbn. eauto.
Qed.

End Progress.

Section AbsoluteRoot.

Context {D : Declarations} {FS : FileSystem}.
Variable dirs : string -> Prop.
Variable weight : string -> nat.
Variable a : Archiver.

(** C6 (amended). A run with an absolute root, at least one directory
    scanner and one file reader, queue sizes that are not negative, a
    positive chunk size, a [Logger], and a finite tree below the roots in
    which every call on the file system returns, every directory listing
    ends and the reads of every file come to [io.EOF] or an error (the
    last two are what a [File] is; a FIFO or a device is none): the
    scanner's round for an absolute path records the error and marks the
    unit of work done; every schedule of the run is bounded in length; a
    run that has not returned can always take a step; nothing panics; and
    what [Run] returns is the absolute-path error, or the error of the
    sink when a write was refused. *)
Theorem absolute_root_run_returns_error :
  ready a -> 0 < BlockSize ->
  1 <= DirReaderCount a -> 1 <= FileReaderCount a ->
  scannable dirs a -> finiteTree weight a ->
  (exists p, In p (queued a) /\ prefix "/" p = true) ->
  (forall p, prefix "/" p = true -> directoryScanner a p = [SetError; Done])
  /\ (forall sched es s,
        exec a (Run a) sched = Some (es, s) ->
        (length sched <= remaining weight (Run a))%nat)
  /\ (forall h s,
        reaches a h s -> returned s = None ->
        exists t e s', fire a s t = Some (e, s'))
  /\ (forall h s r,
        reaches a h s -> returned s = Some r ->
        r = Failed ErrAbsoluteDirectoryPath
        \/ (r = Failed ErrWrite /\ output a <> None)).
Proof.
  intros Hready _ Hd Hf Hcov Hfin Habs. repeat split.
  - intros p Hp. now apply directoryScanner_absolute.
  - intros sched es s He.
    pose proof (remaining_exec weight a Hfin sched _ _ _ He). lia.
  - intros h s Hr Hret.
    pose proof (reaches_sound a _ _ Hready Hr) as Hs.
    pose proof (reaches_steady dirs a Hcov _ _ Hr) as Hst.
    exact (progress dirs a s Hs Hst Hd Hf Hret).
  - intros h s r Hr Hret.
    destruct (reaches_recorded a h s Hready Habs Hr) as [_ H].
    now rewrite Hret in H.
Qed.

End AbsoluteRoot.

Lemma absoluteArchiver_ready : ready absoluteArchiver.
Proof. unfold ready. cbn. repeat split; lia. Qed.

Lemma absoluteArchiver_scannable : scannable exampleDirs absoluteArchiver.
Proof.
  split.
  - intros p [ <- | [ <- | [] ] ]; unfold exampleDirs; auto.
  - intros p [ -> | [ -> | -> ] ]; split.
    + intros dir [=].
    + intros q [H|[H|[]]]; discriminate.
    + intros dir [= <-]. reflexivity.
    + intros q Hq. vm_compute in Hq.
      repeat destruct Hq as [Hq|Hq]; try discriminate; try contradiction.
      injection Hq as <-. unfold exampleDirs. auto.
    + intros dir [= <-]. reflexivity.
    + intros q Hq. vm_compute in Hq.
      repeat destruct Hq as [Hq|Hq]; try discriminate; contradiction.
Qed.

Lemma absoluteArchiver_finite : finiteTree exampleWeight absoluteArchiver.
Proof.
  intros p. unfold exampleWeight, directoryScanner.
  destruct (prefix "/" p); [destruct (String.eqb p "root"); cbn; lia|].
  cbn [Open exampleFS]. unfold exampleOpen.
  destruct (String.eqb p "root") eqn:E1.
  { apply String.eqb_eq in E1. subst. vm_compute. lia. }
  destruct (String.eqb p "root/d") eqn:E2.
  { apply String.eqb_eq in E2. subst. vm_compute. lia. }
  destruct (String.eqb p "root/keep") eqn:E3; [cbn; lia|].
  destruct (String.eqb p "root/skip") eqn:E4; [cbn; lia|].
  destruct (String.eqb p "root/d/f") eqn:E5; cbn; lia.
Qed.

(** The roots [/abs] and [root] of the example tree, archived with the
    default pools into a sink without limit. *)
Lemma absolute_root_run_returns_error_witness :
  ready absoluteArchiver
  /\ 0 < @BlockSize refDeclarations
  /\ 1 <= DirReaderCount absoluteArchiver
  /\ 1 <= FileReaderCount absoluteArchiver
  /\ scannable exampleDirs absoluteArchiver
  /\ finiteTree exampleWeight absoluteArchiver
  /\ (exists p, In p (queued absoluteArchiver) /\ prefix "/" p = true)
  /\ (forall h s r,
        reaches absoluteArchiver h s -> returned s = Some r ->
        r = Failed ErrAbsoluteDirectoryPath
        \/ (r = Failed ErrWrite /\ output absoluteArchiver <> None)).
Proof.
  assert (A : exists p, In p (queued absoluteArchiver) /\ prefix "/" p = true)
    by (exists "/abs"; split; [now left|reflexivity]).
  split; [exact absoluteArchiver_ready|].
  split; [cbn; lia|]. split; [cbn; lia|]. split; [cbn; lia|].
  split; [exact absoluteArchiver_scannable|].
  split; [exact absoluteArchiver_finite|].
  split; [exact A|].
  apply (@absolute_root_run_returns_error refDeclarations exampleFS
           exampleDirs exampleWeight absoluteArchiver absoluteArchiver_ready
           ltac:(cbn; lia) ltac:(cbn; lia) ltac:(cbn; lia)
           absoluteArchiver_scannable absoluteArchiver_finite A).
Defined.

(** C6, as stated, fails: with an absolute root queued and no directory
    scanner ([DirReaderCount = 0]) no goroutine of the run can take a
    step, and [Run] has not returned. *)
Lemma no_scanner_run_hangs :
  (exists p, In p (queued noScanners) /\ prefix "/" p = true)
  /\ returned (Run noScanners) = None
  /\ forall t, fire noScanners (Run noScanners) t = None.
Proof.
  split; [exists "/abs"; split; [now left|reflexivity]|].
  split; [reflexivity|].
  intros [i|j|k| |]; try reflexivity.
  - now destruct i.
  - do 17 (destruct j as [|j]; [reflexivity|]). reflexivity.
  - now destruct k.
Qed.

(** ** The blocks of one path stay together *)

Lemma replace_app_l {A} (l1 l2 : list A) : forall i x y,
  nth_error l1 i = Some x -> replace i y (l1 ++ l2) = replace i y l1 ++ l2.
Proof.
  induction l1 as [|z l1 IH]; intros [|i] x y H;
    cbn [nth_error replace app] in *; try discriminate; auto.
  now rewrite (IH _ _ _ H).
Qed.

Lemma replace_app_r {A} (l1 l2 : list A) j y :
  replace (length l1 + j) y (l1 ++ l2) = l1 ++ replace j y l2.
Proof.
  induction l1 as [|z l1 IH]; cbn [length Nat.add replace app];
    [reflexivity|now rewrite IH].
Qed.

Lemma about_app p l l' : about p (l ++ l') = about p l ++ about p l'.
Proof. apply filter_app. Qed.

Lemma about_same p bs :
  Forall (fun b => filePath b = p) bs -> about p bs = bs.
Proof.
  induction 1 as [|b bs Hb _ IH]; cbn [about filter]; [reflexivity|].
  rewrite Hb, String.eqb_refl. fold (about p bs). now rewrite IH.
Qed.

Lemma about_other p q bs :
  Forall (fun b => filePath b = q) bs -> q <> p -> about p bs = [].
Proof.
  intros H Hn. induction H as [|b bs Hb _ IH]; cbn [about filter];
    [reflexivity|].
  rewrite Hb, (proj2 (String.eqb_neq q p) Hn). exact IH.
Qed.

Lemma blocksSent_one act :
  blocksSent [act] = match act with SendBlock b => [b] | _ => [] end.
Proof. now destruct act. Qed.

Lemma stream_Did act : stream [Did act] = blocksSent [act].
Proof. now destruct act. Qed.

Section HandsChange.

Context {D : Declarations} {FS : FileSystem}.
Variable a : Archiver.

Lemma steps_handsChange s e s' :
  sound s -> steps a s e s' -> handsChange a s e s'.
Proof.
  intros Hsound Hstep. unfold handsChange, hands, waiting.
  inversion Hstep; subst; clear Hstep.
  - (* a scanner receives *)
    left. exists i, w, p, (directoryScanner a p). fields.
    repeat split; auto.
    + rewrite nth_error_app1; [assumption|].
      apply nth_error_Some. congruence.
    + symmetry. now apply replace_app_l with w.
    + rewrite H2. reflexivity.
  - (* a scanner acts *)
    destruct (active_scanner_counted _ _ _ _ _ Hsound H0 H1) as [Hw Hcl].
    right; left. exists i, w, act, rest.
    apply perform_performs in H2.
    assert (E : scanners s1 = scanners s /\ readers s1 = readers s
                /\ Permutation (dirChan s1 ++ senders s1 ++ fileChan s1)
                     (enqueued [Did act]
                      ++ dirChan s ++ senders s ++ fileChan s)).
    { inversion H2; subst; fields; repeat split; auto;
        cbn [enqueued app]; try lia; try congruence.
      - rewrite <- app_assoc. cbn [app].
        rewrite <- !Permutation_middle. reflexivity.
      - rewrite !app_assoc. rewrite <- Permutation_cons_append.
        reflexivity. }
    destruct E as (Es & Er & Ep). fields. rewrite Es, Er.
    repeat split; auto.
    + rewrite nth_error_app1; [assumption|].
      apply nth_error_Some. congruence.
    + symmetry. now apply replace_app_l with w.
  - (* a reader receives *)
    left. exists (length (scanners s) + j)%nat, w, p, (fileReader p). fields.
    repeat split; auto.
    + rewrite nth_error_app2 by lia.
      now replace (length (scanners s) + j - length (scanners s))%nat
        with j by lia.
    + symmetry. apply replace_app_r.
    + rewrite H2. rewrite <- !Permutation_middle. reflexivity.
  - (* a reader acts *)
    destruct (active_reader_counted _ _ _ _ _ Hsound H0 H1) as [Hw Hcl].
    right; left. exists (length (scanners s) + j)%nat, w, act, rest.
    apply perform_performs in H2.
    assert (E : scanners s1 = scanners s /\ readers s1 = readers s
                /\ Permutation (dirChan s1 ++ senders s1 ++ fileChan s1)
                     (enqueued [Did act]
                      ++ dirChan s ++ senders s ++ fileChan s)).
    { inversion H2; subst; fields; repeat split; auto;
        cbn [enqueued app]; try lia; try congruence.
      - rewrite <- app_assoc. cbn [app].
        rewrite <- !Permutation_middle. reflexivity.
      - rewrite !app_assoc. rewrite <- Permutation_cons_append.
        reflexivity. }
    destruct E as (Es & Er & Ep). fields. rewrite Es, Er.
    repeat split; auto.
    + rewrite nth_error_app2 by lia.
      now replace (length (scanners s) + j - length (scanners s))%nat
        with j by lia.
    + symmetry. apply replace_app_r.
  - (* a sender delivers *)
    right; right. fields. repeat split; auto.
    rewrite (remove_nth_Permutation _ _ _ H0) at 2.
    rewrite <- app_assoc. cbn [app].
    rewrite <- !Permutation_middle. reflexivity.
  - (* a sender on a closed queue *)
    destruct (waiting_sender_counted _ _ _ Hsound H0). congruence.
  - right; right. fields. repeat split; auto.
  - right; right. destruct werr; fields; repeat split; auto.
  - right; right. fields. repeat split; auto.
Qed.

End HandsChange.

Lemma NoDup_app_disjoint {A} (l1 l2 : list A) x :
  NoDup (l1 ++ l2) -> In x l1 -> ~ In x l2.
Proof.
  induction l1 as [|y l1 IH]; cbn [app In]; [tauto|].
  intros H [->|Hx] H2; inversion H; subst.
  - apply H3. apply in_or_app. now right.
  - now apply IH.
Qed.

Lemma NoDup_app_l {A} (l1 l2 : list A) : NoDup (l1 ++ l2) -> NoDup l1.
Proof.
  induction l1 as [|y l1 IH]; cbn [app]; [constructor|].
  intros H. inversion H; subst. constructor; auto.
  intros Hy. apply H2. apply in_or_app. now left.
Qed.

Section Tidy.

Context {D : Declarations} {FS : FileSystem}.
Variable a : Archiver.

Lemma directoryScanner_paths p :
  Forall (fun b => filePath b = p) (blocksSent (directoryScanner a p)).
Proof.
  rewrite directoryScanner_blocks. destruct (prefix "/" p); [constructor|].
  destruct (Open p); [|constructor].
  constructor; [|constructor]. apply metadataBlock_path.
Qed.

Lemma fileReader_paths p :
  Forall (fun b => filePath b = p) (blocksSent (fileReader p)).
Proof.
  rewrite fileReader_blocks. destruct (Open p); [|constructor].
  constructor; [apply metadataBlock_path|].
  apply Forall_app. split.
  - apply Forall_forall. intros b Hb. apply in_map_iff in Hb.
    now destruct Hb as (c & <- & _).
  - constructor; [reflexivity|constructor].
Qed.

Lemma round_nonempty p body :
  body = directoryScanner a p \/ body = fileReader p -> body <> [].
Proof.
  intros [->| ->] E.
  - destruct (directoryScanner_owing a p) as [_ H]. rewrite E in H.
    discriminate.
  - destruct (fileReader_owing p) as [_ H]. rewrite E in H. discriminate.
Qed.

Lemma round_paths p body :
  body = directoryScanner a p \/ body = fileReader p ->
  Forall (fun b => filePath b = p) (blocksSent body).
Proof.
  intros [->| ->]; [apply directoryScanner_paths|apply fileReader_paths].
Qed.

Lemma tidy_Run : tidy a [] (Run a).
Proof.
  assert (I : forall i x, nth_error (hands (Run a)) i = Some x -> todo x = []).
  { intros i x H. apply nth_error_In in H. unfold hands in H.
    rewrite Run_scanners, Run_readers in H.
    apply in_app_or in H. destruct H as [H|H];
      apply repeat_spec in H; now subst. }
  repeat split.
  - exfalso. eauto.
  - exfalso. eauto.
  - exfalso. eauto.
  - intros i j x y Hx _ Bx. exfalso. eauto.
  - intros [].
  - unfold units, waiting. destruct (Run_queues a) as (-> & -> & -> & _).
    cbn [enqueued taken]. now rewrite !app_nil_r.
Qed.

Lemma tidy_change h s e s' :
  NoDup (units a (h ++ [e])) ->
  tidy a h s -> handsChange a s e s' -> tidy a (h ++ [e]) s'.
Proof.
  intros Hnd (I1 & I2 & I3 & I4) Hch.
  assert (Hnd0 : NoDup (waiting s ++ taken h)).
  { eapply Permutation_NoDup; [exact I4|].
    unfold units in *. rewrite enqueued_app, app_assoc in Hnd.
    now apply NoDup_app_l in Hnd. }
  unfold tidy. rewrite stream_app, taken_app. unfold units.
  rewrite enqueued_app.
  destruct Hch as [(k & x & p & body & Hk & Hx & -> & Hb & -> & Pw)
                  |[(k & x & act & rest & Hk & Hx & -> & -> & Pw)
                   |(-> & -> & -> & -> & Pw)]].
  - (* a worker receives [p] *)
    cbn [stream taken enqueued]. rewrite !app_nil_r.
    assert (Hp : ~ In p (taken h)).
    { apply (NoDup_app_disjoint (waiting s)); auto.
      apply (Permutation_in _ (Permutation_sym Pw)). now left. }
    assert (Hfree : forall i y, nth_error (hands s) i = Some y ->
                      todo y <> [] -> job y <> p).
    { intros i y Hy By E. destruct (I1 i y Hy By) as [Hin _].
      rewrite E in Hin. contradiction. }
    assert (Hnone : about p (stream h) = []) by (apply I3; auto).
    repeat split.
    + destruct (Nat.eq_dec k i) as [<-|Hne].
      * rewrite (nth_error_replace_same _ _ _ _ Hk) in H.
        injection H as <-. cbn [job]. apply in_or_app. right. now left.
      * rewrite nth_error_replace_other in H by assumption.
        apply in_or_app. left. now apply (I1 i x0 H).
    + destruct (Nat.eq_dec k i) as [<-|Hne].
      * rewrite (nth_error_replace_same _ _ _ _ Hk) in H.
        injection H as <-. cbn [job todo]. now apply round_paths.
      * rewrite nth_error_replace_other in H by assumption.
        now apply (I1 i x0 H).
    + destruct (Nat.eq_dec k i) as [<-|Hne].
      * rewrite (nth_error_replace_same _ _ _ _ Hk) in H.
        injection H as <-. cbn [job todo]. rewrite Hnone. cbn [app].
        unfold roundOf. destruct Hb as [->| ->]; auto.
      * rewrite nth_error_replace_other in H by assumption.
        now apply (I1 i x0 H).
    + intros i j y z Hy Hz By Bz E.
      destruct (Nat.eq_dec k i) as [<-|Hi];
        destruct (Nat.eq_dec k j) as [<-|Hj]; auto.
      * rewrite (nth_error_replace_same _ _ _ _ Hk) in Hy.
        injection Hy as <-. cbn [job] in E.
        rewrite nth_error_replace_other in Hz by assumption.
        exfalso. apply (Hfree j z Hz Bz). congruence.
      * rewrite (nth_error_replace_same _ _ _ _ Hk) in Hz.
        injection Hz as <-. cbn [job] in E.
        rewrite nth_error_replace_other in Hy by assumption.
        exfalso. apply (Hfree i y Hy By). congruence.
      * rewrite nth_error_replace_other in Hy, Hz by assumption.
        eapply I2; eauto.
    + intros Hin.
      assert (Hq : p0 <> p).
      { intros ->. apply (H k (mkWorker p body)).
        - eapply nth_error_replace_same; eauto.
        - cbn [todo]. now apply round_nonempty with p.
        - reflexivity. }
      apply I3.
      * intros i y Hy By. destruct (Nat.eq_dec k i) as [<-|Hne].
        -- rewrite Hk in Hy. injection Hy as <-. congruence.
        -- apply (H i y); auto.
           now rewrite nth_error_replace_other by assumption.
      * apply in_app_or in Hin. destruct Hin as [Hin|[<-|[]]]; congruence.
    + intros Hin.
      assert (Hq : p0 <> p).
      { intros ->. apply Hin. apply in_or_app. right. now left. }
      apply I3.
      * intros i y Hy By. destruct (Nat.eq_dec k i) as [<-|Hne].
        -- rewrite Hk in Hy. injection Hy as <-. congruence.
        -- apply (H i y); auto.
           now rewrite nth_error_replace_other by assumption.
      * intros Hin'. apply Hin. apply in_or_app. now left.
    + rewrite I4, Pw. cbn [app]. rewrite app_assoc.
      now rewrite <- Permutation_cons_append.
  - (* a worker performs [act] *)
    cbn [taken]. rewrite !app_nil_r, stream_Did.
    assert (Bx : todo x <> []) by (rewrite Hx; discriminate).
    destruct (I1 k x Hk Bx) as (Hin & Hpaths & Hround).
    rewrite Hx in Hpaths, Hround.
    change (act :: rest) with ([act] ++ rest) in Hpaths, Hround.
    rewrite blocksSent_app in Hpaths, Hround.
    apply Forall_app in Hpaths. destruct Hpaths as [Pa Pr].
    assert (Hsame : about (job x) (stream h ++ blocksSent [act])
                    = about (job x) (stream h) ++ blocksSent [act])
      by (rewrite about_app, (about_same _ _ Pa); reflexivity).
    assert (Hother : forall r, job x <> r ->
                       about r (stream h ++ blocksSent [act])
                       = about r (stream h)).
    { intros r Hr. rewrite about_app, (about_other _ _ _ Pa Hr).
      apply app_nil_r. }
    repeat split.
    + destruct (Nat.eq_dec k i) as [<-|Hne].
      * rewrite (nth_error_replace_same _ _ _ _ Hk) in H.
        now injection H as <-.
      * rewrite nth_error_replace_other in H by assumption.
        now apply (I1 i x0 H).
    + destruct (Nat.eq_dec k i) as [<-|Hne].
      * rewrite (nth_error_replace_same _ _ _ _ Hk) in H.
        now injection H as <-.
      * rewrite nth_error_replace_other in H by assumption.
        now apply (I1 i x0 H).
    + destruct (Nat.eq_dec k i) as [<-|Hne].
      * rewrite (nth_error_replace_same _ _ _ _ Hk) in H.
        injection H as <-. cbn [job todo].
        rewrite Hsame, <- app_assoc. exact Hround.
      * rewrite nth_error_replace_other in H by assumption.
        rewrite Hother; [now apply (I1 i x0 H)|].
        intros E. apply Hne. eapply I2; eauto.
    + intros i j y z Hy Hz By Bz E.
      assert (Old : forall n w, nth_error
                      (replace k (mkWorker (job x) rest) (hands s)) n
                      = Some w -> todo w <> [] ->
                      exists w', nth_error (hands s) n = Some w'
                                 /\ todo w' <> [] /\ job w' = job w).
      { intros n w Hw Bw. destruct (Nat.eq_dec k n) as [<-|Hne].
        - rewrite (nth_error_replace_same _ _ _ _ Hk) in Hw.
          injection Hw as <-. exists x. auto.
        - rewrite nth_error_replace_other in Hw by assumption.
          exists w. auto. }
      destruct (Old i y Hy By) as (y' & Hy' & By' & Ey).
      destruct (Old j z Hz Bz) as (z' & Hz' & Bz' & Ez).
      eapply I2; eauto. congruence.
    + intros Hin'. destruct (string_dec (job x) p) as [<-|Hne].
      * assert (Hrest : rest = []).
        { destruct rest as [|r rest]; [reflexivity|]. exfalso.
          apply (H k (mkWorker (job x) (r :: rest))); auto.
          - eapply nth_error_replace_same; eauto.
          - discriminate. }
        subst rest. cbn [blocksSent] in Hround.
        rewrite app_nil_r in Hround. now rewrite Hsame.
      * rewrite Hother by assumption. apply I3; auto.
        intros i y Hy By. destruct (Nat.eq_dec k i) as [<-|Hi].
        -- rewrite Hk in Hy. now injection Hy as <-.
        -- apply (H i y); auto.
           now rewrite nth_error_replace_other by assumption.
    + intros Hin'. destruct (string_dec (job x) p) as [<-|Hne];
        [contradiction|].
      rewrite Hother by assumption. apply I3; auto.
      intros i y Hy By. destruct (Nat.eq_dec k i) as [<-|Hi].
      * rewrite Hk in Hy. now injection Hy as <-.
      * apply (H i y); auto.
        now rewrite nth_error_replace_other by assumption.
    + rewrite Pw. rewrite app_assoc, I4.
      rewrite (Permutation_app_comm (waiting s ++ taken h)).
      now rewrite app_assoc.
  - (* the hands stay *)
    rewrite !app_nil_r. refine (conj I1 (conj I2 (conj I3 _))).
    now rewrite Pw.
Qed.

Lemma reaches_tidy h s :
  ready a -> reaches a h s -> NoDup (units a h) -> tidy a h s.
Proof.
  intros Hready Hr. induction Hr as [|h s t e s' Hr IH Hf]; intros Hnd.
  - apply tidy_Run.
  - apply (tidy_change h s e s'); auto.
    + apply IH. unfold units in *. rewrite enqueued_app, app_assoc in Hnd.
      now apply NoDup_app_l in Hnd.
    + apply steps_handsChange.
      * eapply reaches_sound; eauto.
      * eapply fire_steps; eauto.
Qed.

End Tidy.

Section Shapes.

Context {D : Declarations} {FS : FileSystem}.
Variable a : Archiver.

Lemma roundOf_pathShape p l : roundOf a p l -> pathShape p l.
Proof.
  intros [->| ->].
  - rewrite directoryScanner_blocks. destruct (prefix "/" p); [now left|].
    destruct (Open p) as [dir|]; [|now left].
    right. left. now exists dir.
  - rewrite fileReader_blocks. destruct (Open p) as [file|]; [|now left].
    right. right. now exists file, (chunksRead (Read file)).
Qed.

Lemma reaches_stream h s :
  reaches a h s -> returned s <> Some Panicked ->
  stream h = written h ++ blockChan s.
Proof.
  revert h s. apply (reaches_invariant a
    (fun h s => returned s <> Some Panicked ->
                stream h = written h ++ blockChan s)).
  - intros _. destruct (Run_queues a) as (_ & _ & _ & -> & _). reflexivity.
  - intros h s e s' Hr IH Hst. rewrite stream_app, written_app.
    assert (Hs : stream h = written h ++ blockChan s).
    { apply IH. inversion Hst; congruence. }
    clear IH. intros Hret. step_cases Hst.
    all: cbn [stream written blocksSent app]; rewrite ?app_nil_r.
    all: try (exfalso; apply Hret; reflexivity).
    all: try assumption.
    all: try (rewrite Hs; symmetry; apply app_assoc).
    rewrite Hs, H0, <- app_assoc. now destruct werr.
Qed.

Lemma closed_all_idle s :
  sound s -> closed s = true ->
  forall i x, nth_error (hands s) i = Some x -> todo x = [].
Proof.
  intros (Hacc & Hs & Hr & Hc & _) Hcl i x Hx.
  specialize (Hc Hcl). unfold accounted in Hacc.
  pose proof (load_nonneg _ Hs). pose proof (load_nonneg _ Hr).
  assert (L1 : load (scanners s) = 0) by (unfold len in *; lia).
  assert (L2 : load (readers s) = 0) by (unfold len in *; lia).
  pose proof (load_idle _ Hs L1) as I1. pose proof (load_idle _ Hr L2) as I2.
  apply nth_error_In in Hx. unfold hands in Hx. apply in_app_or in Hx.
  rewrite Forall_forall in I1, I2. destruct Hx; auto.
Qed.

End Shapes.

(** C5, amended.  When no path was put on a work queue twice, then once
    the queues are closed and the block queue is drained the written
    blocks of every path are, in stream order, none at all, or exactly
    one Directory block, or exactly one StartOfFile block followed by
    Data blocks and exactly one EndOfFile block. *)
Theorem blocks_of_a_path_form_one_round
  {D : Declarations} {FS : FileSystem} (a : Archiver) h s :
  ready a -> reaches a h s -> NoDup (units a h) ->
  closed s = true -> blockChan s = [] ->
  forall p, pathShape p (about p (written h)).
Proof.
  intros Hready Hr Hnd Hcl Hb p.
  pose proof (reaches_sound a h s Hready Hr) as Hsound.
  assert (Hw : written h = stream h).
  { rewrite (reaches_stream a h s Hr), Hb; [now rewrite app_nil_r|].
    apply Hsound. }
  rewrite Hw.
  destruct (reaches_tidy a h s Hready Hr Hnd) as (_ & _ & I3 & _).
  destruct (I3 p) as [Hin Hout].
  { intros i x Hx Bx. exfalso. apply Bx.
    eapply closed_all_idle; eauto. }
  destruct (in_dec string_dec p (taken h)) as [Ht|Ht].
  - apply (roundOf_pathShape a). auto.
  - left. auto.
Qed.

Lemma exampleArchiver_ready : ready exampleArchiver.
Proof. unfold ready. cbn. repeat split; lia. Qed.

(** In the run of the example tree every path was queued once, and the
    three blocks of [root/keep] are its StartOfFile block, one Data block
    and its EndOfFile block. *)
Lemma blocks_of_a_path_form_one_round_witness :
  units exampleArchiver (snd (fst exampleRun))
  = ["root"; "root/keep"; "root/skip"; "root/d"; "root/d/f"]
  /\ map blockType (about "root/keep" (written (snd (fst exampleRun))))
     = [blockTypeStartOfFile; blockTypeData; blockTypeEndOfFile]
  /\ pathShape "root/keep" (about "root/keep" (written (snd (fst exampleRun)))).
Proof.
  assert (U : units exampleArchiver (snd (fst exampleRun))
              = ["root"; "root/keep"; "root/skip"; "root/d"; "root/d/f"])
    by (vm_compute; reflexivity).
  split; [exact U|]. split; [vm_compute; reflexivity|].
  apply (@blocks_of_a_path_form_one_round refDeclarations exampleFS
           exampleArchiver (snd (fst exampleRun)) (snd exampleRun)).
  - exact exampleArchiver_ready.
  - exact exampleRun_reaches.
  - rewrite U. repeat constructor; cbn [In]; intuition discriminate.
  - vm_compute; reflexivity.
  - vm_compute; reflexivity.
Defined.

Lemma duplicateRun_reaches :
  reaches duplicateArchiver (snd (fst duplicateRun)) (snd duplicateRun).
Proof.
  unfold duplicateRun.
  destruct (drive duplicateArchiver 200 (Run duplicateArchiver))
    as [[ts es] s] eqn:E.
  apply drive_exec in E. cbn [fst snd].
  apply (exec_reaches duplicateArchiver ts [] (Run duplicateArchiver) es s).
  - constructor.
  - exact E.
Qed.

(** C5, as stated, fails: with the directory [root/d] added twice the run
    returns [nil] and the stream holds two Directory blocks for [root/d]
    and two StartOfFile and two EndOfFile blocks for [root/d/f]. *)
Lemma duplicate_root_repeats_blocks :
  reaches duplicateArchiver (snd (fst duplicateRun)) (snd duplicateRun)
  /\ returned (snd duplicateRun) = Some Nil
  /\ map blockType (about "root/d" (written (snd (fst duplicateRun))))
     = [blockTypeDirectory; blockTypeDirectory]
  /\ map blockType (about "root/d/f" (written (snd (fst duplicateRun))))
     = [blockTypeStartOfFile; blockTypeData; blockTypeEndOfFile;
        blockTypeStartOfFile; blockTypeData; blockTypeEndOfFile]
  /\ ~ pathShape "root/d" (about "root/d" (written (snd (fst duplicateRun)))).
Proof.
  split; [exact duplicateRun_reaches|].
  split; [vm_compute; reflexivity|].
  assert (T : map blockType
                (about "root/d" (written (snd (fst duplicateRun))))
              = [blockTypeDirectory; blockTypeDirectory])
    by (vm_compute; reflexivity).
  split; [exact T|]. split; [vm_compute; reflexivity|].
  revert T. generalize (about "root/d" (written (snd (fst duplicateRun)))).
  intros l T [E|[(file & E)|(file & chunks & E)]];
    subst l; cbn [map] in T; try discriminate.
  injection T as T _. rewrite metadataBlock_type in T. discriminate.
Qed.

(** ** The exported exclusion patterns *)

Section Exported.

Context {D : Declarations} {FS : FileSystem}.
Variables (pats : list string) (a : Archiver).

Lemma directoryScanner_exported p :
  directoryScanner (withExcludePatterns pats a) p = directoryScanner a p.
Proof. reflexivity. Qed.

Lemma Run_exported : Run (withExcludePatterns pats a) = Run a.
Proof. reflexivity. Qed.

Lemma fire_exported s t : fire (withExcludePatterns pats a) s t = fire a s t.
Proof. reflexivity. Qed.

Lemma exec_exported sched : forall s,
  exec (withExcludePatterns pats a) s sched = exec a s sched.
Proof.
  induction sched as [|t sched IH]; intros s; cbn [exec]; [reflexivity|].
  rewrite fire_exported. destruct (fire a s t) as [[e s']|]; [|reflexivity].
  now rewrite IH.
Qed.

End Exported.

Lemma excludingRun_reaches :
  reaches excludingArchiver (snd (fst excludingRun)) (snd excludingRun).
Proof.
  unfold excludingRun.
  destruct (drive excludingArchiver 200 (Run excludingArchiver))
    as [[ts es] s] eqn:E.
  apply drive_exec in E. cbn [fst snd].
  apply (exec_reaches excludingArchiver ts [] (Run excludingArchiver) es s).
  - constructor.
  - exact E.
Qed.

(** C1.  The patterns assigned to the exported field [ExcludePatterns]
    are never consulted: every schedule runs as it does without them.
    With [ExcludePatterns = ["root/skip"]] the run of the example tree
    returns [nil] and its stream holds the StartOfFile and EndOfFile
    blocks of [root/skip], a path that matches the pattern. *)
Theorem exported_exclude_patterns_are_ignored :
  (forall (D : Declarations) (FS : FileSystem) pats a sched,
     exec (withExcludePatterns pats a) (Run (withExcludePatterns pats a)) sched
     = exec a (Run a) sched)
  /\ ExcludePatterns excludingArchiver = ["root/skip"]
  /\ Match "root/skip" "root/skip" = Some true
  /\ reaches excludingArchiver (snd (fst excludingRun)) (snd excludingRun)
  /\ returned (snd excludingRun) = Some Nil
  /\ map blockType (about "root/skip" (written (snd (fst excludingRun))))
     = [blockTypeStartOfFile; blockTypeEndOfFile].
Proof.
  split; [intros; rewrite Run_exported; apply exec_exported|].
  split; [reflexivity|]. split; [reflexivity|].
  split; [exact excludingRun_reaches|].
  split; vm_compute; reflexivity.
Qed.

(** ** What [Run] leaves in the sink *)

Section RunOutputFacts.

Context {D : Declarations} {FS : FileSystem}.
Variable a : Archiver.

Lemma writing_Run : writing a [] (Run a).
Proof.
  unfold writing, Run, archiveWriter. cbn [written app].
  destruct (writerStart (output a)) as [st [| |]] eqn:E; fields.
  - destruct (_ || _); split; try discriminate.
    + intros r [= <-] Hr. now elim Hr.
    + intros _ rest. reflexivity.
  - destruct (_ || _); split; try discriminate.
    + intros r [= <-] Hr. now elim Hr.
    + intros r [= <-] _. exists (Failed e). repeat split. discriminate.
  - destruct (_ || _); split; try discriminate.
    + intros r [= <-] Hr. now elim Hr.
    + intros r [= <-] Hr. now elim Hr.
Qed.

Lemma writing_step h s e s' :
  writing a h s -> steps a s e s' -> writing a (h ++ [e]) s'.
Proof.
  intros [Hn _] Hst.
  assert (Hret : returned s = None) by (inversion Hst; assumption).
  specialize (Hn Hret). unfold writing. rewrite written_app.
  step_cases Hst; cbn [written]; rewrite ?app_nil_r.
  all: try (split; [intros _; exact Hn|intros r Hr; congruence]).
  all: try (split; [discriminate|intros r [= <-] Hp; now elim Hp]).
  - (* the writer writes a block *)
    assert (Hb : archiveWriter (output a) (written h ++ [b])
                 = writerLoop (writer s) [b])
      by (rewrite <- (app_nil_r (written h ++ [b])), <- app_assoc; apply Hn).
    cbn [writerLoop] in Hb. rewrite H1 in Hb.
    destruct werr; fields; (split; [|intros r Hr; try congruence]).
    + intros _ rest0. rewrite <- app_assoc. cbn [app].
      rewrite Hn. cbn [writerLoop]. rewrite H1. reflexivity.
    + discriminate.
    + injection Hr as <-. intros _. exists (Failed e).
      split; [exact Hb|]. split; [reflexivity|discriminate].
    + discriminate.
  - (* the writer returns *)
    split; [discriminate|]. intros r [= <-] _. exists werr.
    specialize (Hn []). rewrite app_nil_r in Hn. cbn [writerLoop] in Hn.
    rewrite H2 in Hn. repeat split; auto.
Qed.

Lemma reaches_writing h s : reaches a h s -> writing a h s.
Proof.
  revert h s. apply (reaches_invariant a (writing a)).
  - exact writing_Run.
  - intros h s e s' _. apply writing_step.
Qed.

End RunOutputFacts.

(** ** Panics, termination and the roots that fit *)

(** A run of an archiver with a [Logger], queue sizes that are not
    negative, one unit of work counted for every root and a positive
    chunk size never panics: no [Done] takes the WaitGroup counter below
    zero, nothing is sent on a closed channel and the writer meets no
    block it cannot encode.  The counter is the number of paths waiting
    in the queues plus the rounds in progress, and once the queues are
    closed the counter is zero, no path waits and every worker is at its
    receive. *)
Theorem run_never_panics
  {D : Declarations} {FS : FileSystem} (a : Archiver) h s :
  ready a -> 0 < BlockSize -> reaches a h s ->
  returned s <> Some Panicked
  /\ wip s = len (dirChan s) + len (senders s) + len (fileChan s)
             + load (scanners s) + load (readers s)
  /\ (closed s = true ->
      wip s = 0 /\ waiting s = []
      /\ forall i x, nth_error (hands s) i = Some x -> todo x = []).
Proof.
  intros Hready _ Hr. pose proof (reaches_sound a h s Hready Hr) as Hs.
  pose proof Hs as (Hacc & Hsc & Hrd & Hc & Hp).
  split; [exact Hp|]. split; [exact Hacc|]. intros Hcl.
  split; [auto|]. split; [|now apply closed_all_idle].
  specialize (Hc Hcl). unfold accounted in Hacc.
  pose proof (load_nonneg _ Hsc). pose proof (load_nonneg _ Hrd).
  unfold waiting, len in *.
  destruct (dirChan s); [|cbn [length] in Hacc; lia].
  destruct (senders s); [|cbn [length] in Hacc; lia].
  destruct (fileChan s); [reflexivity|cbn [length] in Hacc; lia].
Qed.

Lemma run_never_panics_witness :
  ready exampleArchiver
  /\ 0 < @BlockSize refDeclarations
  /\ closed (snd exampleRun) = true
  /\ returned (snd exampleRun) <> Some Panicked
  /\ wip (snd exampleRun) = 0.
Proof.
  assert (C : closed (snd exampleRun) = true) by (vm_compute; reflexivity).
  destruct (@run_never_panics refDeclarations exampleFS exampleArchiver
              (snd (fst exampleRun)) (snd exampleRun)
              exampleArchiver_ready ltac:(cbn; lia) exampleRun_reaches)
    as (P & _ & Q).
  split; [exact exampleArchiver_ready|]. split; [cbn; lia|].
  split; [exact C|].
  split; [exact P|]. exact (proj1 (Q C)).
Defined.

(** With at least one scanner and one reader, a positive chunk size and
    a finite tree in which every call on the file system returns, every
    directory listing ends and the reads of every file come to [io.EOF]
    or an error (what a [File] is; a FIFO or a device is none), every
    schedule of a run is bounded in length and a run that has not
    returned can take a step: [Run] returns. *)
Theorem run_terminates
  {D : Declarations} {FS : FileSystem}
  (dirs : string -> Prop) (weight : string -> nat) (a : Archiver) :
  ready a -> 0 < BlockSize ->
  1 <= DirReaderCount a -> 1 <= FileReaderCount a ->
  scannable dirs a -> finiteTree weight a ->
  (forall sched es s,
     exec a (Run a) sched = Some (es, s) ->
     (length sched <= remaining weight (Run a))%nat)
  /\ (forall h s,
        reaches a h s -> returned s = None ->
        exists t e s', fire a s t = Some (e, s')).
Proof.
  intros Hready _ Hd Hf Hcov Hfin. split.
  - intros sched es s He.
    pose proof (remaining_exec weight a Hfin sched _ _ _ He). lia.
  - intros h s Hr Hret.
    pose proof (reaches_sound a _ _ Hready Hr) as Hs.
    pose proof (reaches_steady dirs a Hcov _ _ Hr) as Hst.
    exact (progress dirs a s Hs Hst Hd Hf Hret).
Qed.

Lemma run_terminates_witness :
  0 < @BlockSize refDeclarations
  /\ (forall sched es s,
     exec absoluteArchiver (Run absoluteArchiver) sched = Some (es, s) ->
     (length sched <= remaining exampleWeight (Run absoluteArchiver))%nat)
  /\ (forall h s,
        reaches absoluteArchiver h s -> returned s = None ->
        exists t e s', fire absoluteArchiver s t = Some (e, s')).
Proof.
  split; [cbn; lia|].
  apply (@run_terminates refDeclarations exampleFS exampleDirs exampleWeight
           absoluteArchiver absoluteArchiver_ready
           ltac:(cbn; lia) ltac:(cbn; lia) ltac:(cbn; lia)
           absoluteArchiver_scannable absoluteArchiver_finite).
Defined.

Lemma AddDirs_fits paths : forall a,
  len (queued a) + len paths <= DirScanQueueSize a ->
  exists a', AddDirs a paths = Some a'
             /\ queued a' = queued a ++ paths
             /\ workInProgress a' = workInProgress a + len paths
             /\ DirScanQueueSize a' = DirScanQueueSize a
             /\ FileReadQueueSize a' = FileReadQueueSize a
             /\ BlockQueueSize a' = BlockQueueSize a.
Proof.
  induction paths as [|p paths IH]; intros a H; cbn [AddDirs].
  - exists a. rewrite app_nil_r. unfold len. cbn [length].
    repeat split; try reflexivity. lia.
  - unfold len in H. cbn [length] in H. unfold AddDir.
    destruct (len (queued a) <? DirScanQueueSize a) eqn:E;
      [|apply Z.ltb_ge in E; unfold len in E; lia].
    match goal with
    | |- context [AddDirs ?b paths] => destruct (IH b) as (a' & H1 & H2 & H3 & H4)
    end.
    + cbn [queued directoryScanQueue DirScanQueueSize]. unfold len.
      rewrite length_app. cbn [length]. lia.
    + exists a'. split; [exact H1|].
      cbn [queued directoryScanQueue workInProgress DirScanQueueSize
           FileReadQueueSize BlockQueueSize] in *.
      rewrite H2, H3, <- app_assoc. unfold len. cbn [length app].
      repeat split; try tauto. lia.
Qed.

Lemma AddDirs_blocks paths : forall a,
  len (queued a) <= DirScanQueueSize a ->
  DirScanQueueSize a < len (queued a) + len paths ->
  AddDirs a paths = None.
Proof.
  induction paths as [|p paths IH]; intros a Hq H; cbn [AddDirs].
  - unfold len in *. cbn [length] in H. lia.
  - unfold len in H. cbn [length] in H. unfold AddDir.
    destruct (len (queued a) <? DirScanQueueSize a) eqn:E; [|reflexivity].
    apply Z.ltb_lt in E. apply IH;
      cbn [queued directoryScanQueue DirScanQueueSize]; unfold len in *;
      rewrite length_app; cbn [length]; lia.
Qed.

(** [AddDir] before [Run] returns while the scan queue has room: on an
    archiver as [NewArchiver] makes it, up to 128 roots are queued in the
    order given, one unit of work counted for each, and the 129th call
    blocks for ever, since nothing receives before [Run]. *)
Theorem AddDirs_returns_while_queue_has_room (out : option nat) paths :
  (len paths <= 128 ->
   exists a, AddDirs (NewArchiver out) paths = Some a
             /\ queued a = paths /\ workInProgress a = len paths
             /\ ready a)
  /\ (128 < len paths -> AddDirs (NewArchiver out) paths = None).
Proof.
  split; intros H.
  - destruct (AddDirs_fits paths (NewArchiver out)) as (a & H1 & H2 & H3 & H4 & H5 & H6).
    { cbn. unfold len in *. lia. }
    exists a. cbn in H2, H3, H4, H5, H6.
    split; [exact H1|]. split; [exact H2|]. split; [exact H3|].
    unfold ready. rewrite H2, H3, H5, H6.
    repeat split; lia.
  - apply AddDirs_blocks; cbn; unfold len in *; lia.
Qed.

(** ** The listing of a directory *)

(** [readdirnames] delivers the names of every batch before the first
    call that answers [io.EOF], those of a batch that came with another
    error included, and closes the channel at that call; the names that
    come with [io.EOF] and the calls after it are not looked at.  When no
    call answers [io.EOF] the channel is never closed. *)
Theorem readdirnames_until_EOF calls names rest eof :
  Forall (fun c => snd c <> EOF) calls ->
  readdirnamesFrom (calls ++ (names, EOF) :: rest) eof
  = (concat (map fst calls), true)
  /\ readdirnamesFrom calls eof = (concat (map fst calls), eof).
Proof.
  induction 1 as [|[ns e] calls Hc _ [IH1 IH2]];
    cbn [app map concat readdirnamesFrom fst snd] in *; [split; reflexivity|].
  rewrite IH1, IH2. destruct e; try (now elim Hc); split; reflexivity.
Qed.

Lemma readdirnames_until_EOF_witness :
  readdirnamesFrom
    ([(["a"; "b"], ErrNone); (["c"], ErrOther)] ++ (["lost"], EOF) :: [(["d"], ErrNone)])
    false
  = (["a"; "b"; "c"], true)
  /\ readdirnamesFrom [(["a"; "b"], ErrNone); (["c"], ErrOther)] false
     = (["a"; "b"; "c"], false).
Proof.
  apply (readdirnames_until_EOF
           [(["a"; "b"], ErrNone); (["c"], ErrOther)] ["lost"]
           [(["d"], ErrNone)] false).
  repeat constructor; discriminate.
Defined.

(** ** The entries a scanner queues *)

Lemma snoc_split {A} (h1 h2 h : list A) e e' :
  h1 ++ e :: h2 = h ++ [e'] ->
  (h2 = [] /\ h1 = h /\ e = e')
  \/ (exists h2', h2 = h2' ++ [e'] /\ h = h1 ++ e :: h2').
Proof.
  intros H. induction h2 as [|y h2 _] using rev_ind.
  - left. apply app_inj_tail in H. tauto.
  - right. exists h2. rewrite app_comm_cons, app_assoc in H.
    apply app_inj_tail in H. destruct H as [H ->]. split; auto.
Qed.

Lemma nth_error_firstn_skipn {A} (l : list A) : forall n x,
  nth_error l n = Some x -> l = firstn n l ++ x :: skipn (S n) l.
Proof.
  induction l as [|y l IH]; intros [|n] x H;
    cbn [nth_error firstn skipn app] in *; try discriminate.
  - now injection H as ->.
  - f_equal. now apply IH.
Qed.

Section EntriesFacts.

Context {D : Declarations} {FS : FileSystem}.
Variable a : Archiver.

Lemma inRound_Run : inRound a [] (Run a).
Proof.
  intros i x H Hb. exfalso. apply Hb.
  apply nth_error_In in H. unfold hands in H.
  rewrite Run_scanners, Run_readers in H.
  apply in_app_or in H. destruct H as [H|H];
    apply repeat_spec in H; now subst.
Qed.

Lemma inRound_change h s e s' :
  inRound a h s -> handsChange a s e s' -> inRound a (h ++ [e]) s'.
Proof.
  intros Hin Hch i y Hy By. rewrite stream_app, taken_app.
  assert (Old : forall i y, nth_error (hands s) i = Some y -> todo y <> [] ->
            In (job y) (taken h ++ taken [e])
            /\ exists body done,
                 (body = directoryScanner a (job y) \/ body = fileReader (job y))
                 /\ body = done ++ todo y
                 /\ incl (blocksSent done) (stream h ++ stream [e])).
  { intros j z Hz Bz. destruct (Hin j z Hz Bz) as (Ht & body & done & H1 & H2 & H3).
    split; [apply in_or_app; now left|].
    exists body, done. repeat split; auto.
    intros b Hb. apply in_or_app. left. auto. }
  destruct Hch as [(k & x & p & body & Hk & Hx & -> & Hb & Hh & _)
                  |[(k & x & act & rest & Hk & Hx & -> & Hh & _)
                   |(Hh & _)]].
  - rewrite Hh in Hy. destruct (Nat.eq_dec k i) as [<-|Hne].
    + rewrite (nth_error_replace_same _ _ _ _ Hk) in Hy.
      injection Hy as <-. cbn [job todo taken].
      split; [apply in_or_app; right; now left|].
      exists body, [].
      split; [exact Hb|]. split; [reflexivity|]. intros b [].
    + rewrite nth_error_replace_other in Hy by assumption.
      exact (Old i y Hy By).
  - rewrite Hh in Hy. destruct (Nat.eq_dec k i) as [<-|Hne].
    + rewrite (nth_error_replace_same _ _ _ _ Hk) in Hy.
      injection Hy as <-. cbn [job todo] in *.
      destruct (Hin k x Hk) as (Ht & body' & done & H1 & H2 & H3).
      { rewrite Hx. discriminate. }
      split; [apply in_or_app; now left|].
      exists body', (done ++ [act]). split; [exact H1|]. split.
      * rewrite H2, Hx, <- app_assoc. reflexivity.
      * rewrite blocksSent_app, stream_Did. intros b Hb'.
        apply in_app_or in Hb'. apply in_or_app.
        destruct Hb' as [Hb'|Hb']; auto.
    + rewrite nth_error_replace_other in Hy by assumption.
      exact (Old i y Hy By).
  - rewrite Hh in Hy. exact (Old i y Hy By).
Qed.

Lemma reaches_inRound h s : ready a -> reaches a h s -> inRound a h s.
Proof.
  intros Hready Hr. induction Hr as [|h s t e s' Hr IH Hf].
  - apply inRound_Run.
  - apply (inRound_change h s e s' IH). apply steps_handsChange.
    + eapply reaches_sound; eauto.
    + eapply fire_steps; eauto.
Qed.

Lemma scanEntry_sends d n act q :
  In act (scanEntry a d n) -> act = SendFile q \/ act = GoSendDir q ->
  q = Join d n
  /\ exists fi, eligible a q fi /\ (act = GoSendDir q <-> IsDir fi = true).
Proof.
  unfold scanEntry, eligible. intros Hin Hact.
  destruct (excludeFile (excludePatterns a) (Join d n)) eqn:Ex; [destruct Hin|].
  destruct (Lstat (Join d n)) as [fi|] eqn:El; [|destruct Hin].
  destruct (Z.land (Mode fi) ModeSymlink =? 0) eqn:Es;
    cbn [negb] in Hin; [|destruct Hin].
  apply Z.eqb_eq in Es.
  destruct Hin as [<-|Hin]; [destruct Hact; discriminate|].
  destruct (IsDir fi) eqn:Ed; destruct Hin as [<-|[]];
    destruct Hact as [[= <-]|[= <-]];
    (split; [reflexivity|]); exists fi; (split; [auto|]);
    split; intros; congruence.
Qed.

Lemma directoryScanner_sends d done act rest q :
  directoryScanner a d = done ++ act :: rest ->
  act = SendFile q \/ act = GoSendDir q ->
  exists dir fi,
    listedIn d dir q /\ eligible a q fi
    /\ (act = GoSendDir q <-> IsDir fi = true)
    /\ In (metadataBlock d blockTypeDirectory dir) (blocksSent done).
Proof.
  intros E Hact.
  assert (Hin : In act (directoryScanner a d))
    by (rewrite E; apply in_or_app; right; now left).
  unfold directoryScanner, listedIn in *.
  destruct (prefix "/" d).
  { destruct Hin as [<-|[<-|[]]]; destruct Hact; discriminate. }
  destruct (Open d) as [dir|].
  2:{ destruct Hin as [<-|[]]; destruct Hact; discriminate. }
  destruct (getModeOwnership dir) as [[u g] m] eqn:Eg.
  destruct (readdirnames dir) as [names closes] eqn:En.
  destruct Hin as [<-|Hin]; [destruct Hact; discriminate|].
  apply in_app_or in Hin. destruct Hin as [Hin|Hin].
  2:{ destruct closes; cbn [In] in Hin;
        repeat (destruct Hin as [<-|Hin]; [destruct Hact; discriminate|]);
        destruct Hin. }
  apply in_flat_map in Hin. destruct Hin as (n & Hn & Hin).
  destruct (scanEntry_sends d n act q Hin Hact) as (-> & fi & He & Hd).
  exists dir, fi. split; [|split; [exact He|split; [exact Hd|]]].
  - split; [reflexivity|]. split; [reflexivity|].
    exists n. split; [now rewrite En|reflexivity].
  - destruct done as [|x done]; cbn [app] in E.
    + injection E as <-. destruct Hact; discriminate.
    + injection E as <- _. cbn [blocksSent]. left.
      unfold metadataBlock. now rewrite Eg.
Qed.

Lemma fileReader_sends p done act rest q :
  fileReader p = done ++ act :: rest ->
  act = SendFile q \/ act = GoSendDir q -> False.
Proof.
  intros E Hact. pose proof (fileReader_quiet p) as Hq.
  rewrite E in Hq. apply Forall_app in Hq. destruct Hq as [_ Hq].
  inversion Hq; subst. destruct Hact; subst; contradiction.
Qed.

End EntriesFacts.

(** Whenever a scanner puts a path on a queue, the path is an entry
    listed in a directory that the scanner opened and whose Directory
    block is already in the stream; the entry matches no pattern of
    [a.excludePatterns], [os.Lstat] answered for it and it is not a
    symbolic link; and it goes to the directory queue exactly when
    [os.Lstat] says it is a directory. *)
Theorem queued_entries_are_listed_and_eligible
  {D : Declarations} {FS : FileSystem} (a : Archiver) h s :
  ready a -> reaches a h s ->
  forall h1 act h2 q,
    h = h1 ++ Did act :: h2 -> act = SendFile q \/ act = GoSendDir q ->
    exists d dir fi,
      listedIn d dir q /\ eligible a q fi
      /\ (act = GoSendDir q <-> IsDir fi = true)
      /\ In (metadataBlock d blockTypeDirectory dir) (stream h1).
Proof.
  intros Hready Hr. induction Hr as [|h s t e s' Hr IH Hf];
    intros h1 act h2 q E Hact.
  - destruct h1; discriminate.
  - symmetry in E. apply snoc_split in E.
    destruct E as [(-> & -> & <-)|(h2' & -> & ->)]; [|eapply IH; eauto].
    pose proof (reaches_sound a _ _ Hready Hr) as Hsound.
    pose proof (reaches_inRound a _ _ Hready Hr) as Hin.
    apply fire_steps in Hf.
    destruct (steps_handsChange a _ _ _ Hsound Hf)
      as [(k & x & p & body & _ & _ & [=] & _)
         |[(k & x & act' & rest & Hk & Hx & [= <-] & _)
          |(_ & _ & _ & He & _)]].
    + destruct (Hin k x Hk) as (_ & body & done & Hb & Hd & Hs).
      { rewrite Hx. discriminate. }
      rewrite Hx in Hd. destruct Hb as [-> | ->].
      * destruct (directoryScanner_sends a _ _ _ _ q Hd Hact)
          as (dir & fi & H1 & H2 & H3 & H4).
        exists (job x), dir, fi.
        split; [exact H1|]. split; [exact H2|]. split; [exact H3|]. auto.
      * destruct (fileReader_sends _ _ _ _ q Hd Hact).
    + destruct Hact as [-> | ->]; discriminate.
Qed.

(** In the run of the example tree the eighth event queues the
    directory [root/d], an entry of [root]. *)
Lemma queued_entries_are_listed_and_eligible_witness :
  exists d dir fi,
    listedIn d dir "root/d" /\ eligible exampleArchiver "root/d" fi
    /\ (GoSendDir "root/d" = GoSendDir "root/d" <-> IsDir fi = true)
    /\ In (metadataBlock d blockTypeDirectory dir)
         (stream (firstn 7 (snd (fst exampleRun)))).
Proof.
  apply (@queued_entries_are_listed_and_eligible refDeclarations exampleFS
           exampleArchiver (snd (fst exampleRun)) (snd exampleRun)
           exampleArchiver_ready exampleRun_reaches
           (firstn 7 (snd (fst exampleRun))) (GoSendDir "root/d")
           (skipn 8 (snd (fst exampleRun))) "root/d").
  - apply nth_error_firstn_skipn. vm_compute; reflexivity.
  - right; reflexivity.
Defined.

(** ** What [Run] returns *)

Section Results.

Context {D : Declarations} {FS : FileSystem}.
Variable a : Archiver.

Lemma writerLoop_fails blocks : forall st e,
  snd (writerLoop st blocks) = Failed e ->
  e = ErrWrite /\ limit (fst st) <> None.
Proof.
  induction blocks as [|b blocks IH]; intros st e H; cbn [writerLoop] in H.
  - now apply (tame_writeChecksumBlock (fst st)).
  - destruct (writerRound_tame st b) as [L F].
    destruct (writerRound st b) as [st' [| |]]; cbn [fst snd] in *.
    + destruct (IH st' e H) as [-> Hl]. split; congruence.
    + apply F. exact H.
    + discriminate.
Qed.

Lemma archiveWriter_fails lim blocks e :
  snd (archiveWriter lim blocks) = Failed e -> e = ErrWrite /\ lim <> None.
Proof.
  unfold archiveWriter, writerStart.
  destruct (tame_Write fastArchiverHeader (mkOutput [] lim crc64.New))
    as [L F].
  destruct (Write fastArchiverHeader (mkOutput [] lim crc64.New))
    as [o [| |]]; cbn [fst snd limit] in *; intros H.
  - destruct (writerLoop_fails blocks (o, 0) e H) as [-> Hl].
    cbn [fst] in Hl. split; congruence.
  - apply F. exact H.
  - discriminate.
Qed.

Lemma steps_err s e s' :
  steps a s e s' ->
  err s' = err s
  \/ (e = Did SetError /\ err s' = Some ErrAbsoluteDirectoryPath).
Proof.
  intros H. step_cases H; auto. destruct werr; fields; auto.
Qed.

Lemma steps_Did s act s' :
  steps a s (Did act) s' ->
  exists k x rest, nth_error (hands s) k = Some x /\ todo x = act :: rest.
Proof.
  intros H. unfold hands. inversion H; subst.
  - exists i, w, rest. split; [|assumption].
    rewrite nth_error_app1; [assumption|].
    apply nth_error_Some. congruence.
  - exists (length (scanners s) + j)%nat, w, rest. split; [|assumption].
    rewrite nth_error_app2 by lia.
    now replace (length (scanners s) + j - length (scanners s))%nat
      with j by lia.
Qed.

Lemma round_SetError p body done rest :
  body = directoryScanner a p \/ body = fileReader p ->
  body = done ++ SetError :: rest -> prefix "/" p = true.
Proof.
  intros Hbody Hd.
  assert (Hs : In SetError body)
    by (rewrite Hd; apply in_or_app; right; now left).
  destruct Hbody as [-> | ->].
  - unfold directoryScanner in Hs.
    destruct (prefix "/" p); [reflexivity|]. exfalso.
    destruct (Open p) as [dir|]; [|destruct Hs as [Hs|[]]; discriminate].
    destruct (getModeOwnership dir) as [[u g] m].
    destruct (readdirnames dir) as [names closes].
    destruct Hs as [Hs|Hs]; [discriminate|].
    apply in_app_or in Hs. destruct Hs as [Hs|Hs].
    + apply in_flat_map in Hs. destruct Hs as (n & _ & Hs).
      unfold scanEntry in Hs.
      destruct (excludeFile _ _); [destruct Hs|].
      destruct (Lstat _) as [fi|]; [|destruct Hs].
      destruct (negb _); [destruct Hs|].
      destruct Hs as [Hs|Hs]; [discriminate|].
      destruct (IsDir fi); destruct Hs as [Hs|[]]; discriminate.
    + destruct closes; cbn [In] in Hs; intuition discriminate.
  - exfalso. pose proof (fileReader_quiet p) as Hq.
    rewrite Forall_forall in Hq. exact (Hq _ Hs).
Qed.

Lemma blamed_step h s e s' :
  inRound a h s -> blamed h s -> steps a s e s' -> blamed (h ++ [e]) s'.
Proof.
  intros Hin Hb Hst. unfold blamed in *. rewrite taken_app.
  destruct (steps_err s e s' Hst) as [E|[-> E]].
  - rewrite E. destruct Hb as [Hb|(Hb & p & Hp & Ha)]; [now left|].
    right. split; [exact Hb|]. exists p. split; [|exact Ha].
    apply in_or_app. now left.
  - right. split; [exact E|].
    destruct (steps_Did _ _ _ Hst) as (k & x & rest & Hk & Hx).
    destruct (Hin k x Hk) as (Ht & body & done & Hbody & Hd & _).
    { rewrite Hx. discriminate. }
    exists (job x). split; [apply in_or_app; now left|].
    rewrite Hx in Hd. exact (round_SetError _ _ _ _ Hbody Hd).
Qed.

Lemma reaches_blamed h s : ready a -> reaches a h s -> blamed h s.
Proof.
  intros Hready Hr. induction Hr as [|h s t e s' Hr IH Hf].
  - left. now destruct (Run_queues a) as (_ & _ & _ & _ & _ & _ & ->).
  - apply (blamed_step h s e s'); auto.
    + now apply reaches_inRound.
    + eapply fire_steps; eauto.
Qed.

End Results.

(** ** What [Run] leaves in a sink that takes every write *)

(** With a sink that refuses no write (and a [Logger] and a positive
    chunk size), once [Run] has returned the sink holds what
    [archiveWriter] writes for the blocks received from the block queue,
    the writer met no error and the result is [a.error]; the queues were
    closed, and every block that a scanner or reader had sent was
    received and written, in the order sent. *)
Theorem run_output_is_archiveWriter
  {D : Declarations} {FS : FileSystem} (a : Archiver) h s r :
  ready a -> 0 < BlockSize -> output a = None ->
  reaches a h s -> returned s = Some r ->
  archiveWriter None (written h) = (fst (writer s), Nil)
  /\ r = runResult s Nil
  /\ closed s = true
  /\ written h = stream h.
Proof.
  intros Hready _ Hout Hr Hret.
  pose proof (reaches_sound a h s Hready Hr) as (_ & _ & _ & _ & Hp).
  assert (Hnp : r <> Panicked) by congruence.
  destruct (reaches_writing a h s Hr) as [_ H].
  destruct (H r Hret Hnp) as (werr & Hw & Hres & Hq).
  rewrite Hout in Hw.
  assert (E : werr = Nil).
  { destruct werr as [|e|]; [reflexivity| |].
    - destruct (archiveWriter_fails None (written h) e) as [_ Hl];
        [now rewrite Hw|]. now elim Hl.
    - subst r. now elim Hnp. }
  subst werr. destruct (Hq eq_refl) as [Hc Hb].
  split; [exact Hw|]. split; [exact Hres|]. split; [exact Hc|].
  rewrite (reaches_stream a h s Hr Hp), Hb. now rewrite app_nil_r.
Qed.

(** The run of the example tree returns [nil]; its sink is the one of
    [archiveWriter] on the ten blocks sent. *)
Lemma run_output_is_archiveWriter_witness :
  ready exampleArchiver
  /\ 0 < @BlockSize refDeclarations
  /\ output exampleArchiver = None
  /\ returned (snd exampleRun) = Some Nil
  /\ archiveWriter None (written (snd (fst exampleRun)))
     = (fst (writer (snd exampleRun)), Nil)
  /\ Nil = runResult (snd exampleRun) Nil
  /\ closed (snd exampleRun) = true
  /\ written (snd (fst exampleRun)) = stream (snd (fst exampleRun)).
Proof.
  assert (R : returned (snd exampleRun) = Some Nil) by (vm_compute; reflexivity).
  split; [exact exampleArchiver_ready|]. split; [reflexivity|].
  split; [reflexivity|]. split; [exact R|].
  exact (@run_output_is_archiveWriter refDeclarations exampleFS
           exampleArchiver (snd (fst exampleRun)) (snd exampleRun) Nil
           exampleArchiver_ready eq_refl eq_refl exampleRun_reaches R).
Defined.

(** What [Run] returns is nil, or the absolute-path error when a worker
    received an absolute path, or the error of a sink that refused a
    write: a path that does not open, an entry that [os.Lstat] does not
    answer for, a handle that cannot be stat'ed and a read that fails
    never make [Run] fail. *)
Theorem run_result_cases
  {D : Declarations} {FS : FileSystem} (a : Archiver) h s r :
  ready a -> reaches a h s -> returned s = Some r ->
  r = Nil
  \/ (r = Failed ErrAbsoluteDirectoryPath
      /\ exists p, In p (taken h) /\ prefix "/" p = true)
  \/ (r = Failed ErrWrite /\ output a <> None).
Proof.
  intros Hready Hr Hret.
  pose proof (reaches_sound a h s Hready Hr) as (_ & _ & _ & _ & Hp).
  assert (Hnp : r <> Panicked) by congruence.
  destruct (reaches_writing a h s Hr) as [_ H].
  destruct (H r Hret Hnp) as (werr & Hw & Hres & _).
  destruct werr as [|e|].
  - unfold runResult in Hres.
    destruct (reaches_blamed a h s Hready Hr) as [E|(E & Habs)];
      rewrite E in Hres; auto.
  - cbn [runResult] in Hres. right; right.
    destruct (archiveWriter_fails (output a) (written h) e) as [-> Hl];
      [now rewrite Hw|]. auto.
  - cbn [runResult] in Hres. contradiction.
Qed.

Lemma drive_reaches {D : Declarations} {FS : FileSystem} (a : Archiver) n :
  reaches a (snd (fst (drive a n (Run a)))) (snd (drive a n (Run a))).
Proof.
  destruct (drive a n (Run a)) as [[ts es] s] eqn:E.
  apply drive_exec in E. cbn [fst snd].
  apply (exec_reaches a ts [] (Run a) es s); [constructor|exact E].
Qed.

(** The run with the roots [/abs] and [root] returns the absolute-path
    error, and [/abs] is a path a worker received. *)
Lemma run_result_cases_witness :
  returned (snd absoluteRun) = Some (Failed ErrAbsoluteDirectoryPath)
  /\ (Failed ErrAbsoluteDirectoryPath = Nil
      \/ (Failed ErrAbsoluteDirectoryPath = Failed ErrAbsoluteDirectoryPath
          /\ exists p, In p (taken (snd (fst absoluteRun)))
                       /\ prefix "/" p = true)
      \/ (Failed ErrAbsoluteDirectoryPath = Failed ErrWrite
          /\ output absoluteArchiver <> None)).
Proof.
  assert (R : returned (snd absoluteRun)
              = Some (Failed ErrAbsoluteDirectoryPath))
    by (vm_compute; reflexivity).
  split; [exact R|].
  exact (@run_result_cases refDeclarations exampleFS absoluteArchiver
           (snd (fst absoluteRun)) (snd absoluteRun) _
           absoluteArchiver_ready
           (@drive_reaches refDeclarations exampleFS absoluteArchiver 200) R).
Defined.

(** ** Runs that never return *)

Section Hangs.

Context {D : Declarations} {FS : FileSystem}.
Variable a : Archiver.

Lemma open_run_not_returned h s :
  ready a -> output a = None -> reaches a h s -> closed s = false ->
  returned s = None.
Proof.
  intros Hready Hout Hr Hcl.
  destruct (returned s) as [r|] eqn:Hret; [exfalso|reflexivity].
  pose proof (reaches_sound a h s Hready Hr) as (_ & _ & _ & _ & Hp).
  assert (Hnp : r <> Panicked) by congruence.
  destruct (reaches_writing a h s Hr) as [_ H].
  destruct (H r Hret Hnp) as (werr & Hw & Hres & Hq).
  destruct werr as [|e|].
  - destruct (Hq eq_refl). congruence.
  - destruct (archiveWriter_fails (output a) (written h) e) as [_ Hl];
      [now rewrite Hw|]. contradiction.
  - cbn [runResult] in Hres. contradiction.
Qed.

Lemma busy_not_closed s k x :
  sound s -> nth_error (hands s) k = Some x -> todo x <> [] ->
  closed s = false.
Proof.
  intros Hsound Hk Hb. destruct (closed s) eqn:Hcl; [exfalso|reflexivity].
  apply Hb. exact (closed_all_idle s Hsound Hcl k x Hk).
Qed.

Lemma steps_not_Stall s act s' : steps a s (Did act) s' -> act <> Stall.
Proof. intros H E. subst. inversion H; subst; discriminate. Qed.

Lemma Stall_stays s e s' :
  sound s -> steps a s e s' ->
  (exists k x, nth_error (hands s) k = Some x /\ In Stall (todo x)) ->
  exists k x, nth_error (hands s') k = Some x /\ In Stall (todo x).
Proof.
  intros Hsound Hst (k & x & Hk & Hs).
  destruct (steps_handsChange a _ _ _ Hsound Hst)
    as [(k0 & x0 & p & body & Hk0 & Hx0 & -> & _ & Hh & _)
       |[(k0 & x0 & act & rest & Hk0 & Hx0 & -> & Hh & _)
        |(Hh & _)]]; rewrite Hh.
  - exists k, x. split; [|exact Hs].
    rewrite nth_error_replace_other; [exact Hk|].
    intros <-. rewrite Hk in Hk0. injection Hk0 as <-.
    rewrite Hx0 in Hs. destruct Hs.
  - destruct (Nat.eq_dec k0 k) as [<-|Hne].
    + exists k0, (mkWorker (job x0) rest).
      split; [eapply nth_error_replace_same; eauto|].
      rewrite Hk in Hk0. injection Hk0 as <-. rewrite Hx0 in Hs.
      destruct Hs as [->|Hs]; [|exact Hs].
      now destruct (steps_not_Stall _ _ _ Hst).
    + exists k, x. split; [|exact Hs].
      now rewrite nth_error_replace_other.
  - exists k, x. auto.
Qed.

Lemma stalled_run_goes_on sched : forall h s,
  ready a -> output a = None -> reaches a h s ->
  (exists k x, nth_error (hands s) k = Some x /\ In Stall (todo x)) ->
  forall es s', exec a s sched = Some (es, s') ->
    returned s' = None /\ closed s' = false.
Proof.
  induction sched as [|t sched IH]; intros h s Hready Hout Hr Hs es s' He;
    cbn [exec] in He.
  - injection He as _ <-. destruct Hs as (k & x & Hk & Hs).
    pose proof (reaches_sound a h s Hready Hr) as Hsound.
    assert (Hcl : closed s = false).
    { apply (busy_not_closed s k x Hsound Hk). intros E.
      rewrite E in Hs. destruct Hs. }
    split; [|exact Hcl]. now apply (open_run_not_returned h).
  - destruct (fire a s t) as [[e s1]|] eqn:Hf; [|discriminate].
    destruct (exec a s1 sched) as [[es1 s2]|] eqn:Hx; [|discriminate].
    injection He as _ <-.
    apply (IH (h ++ [e]) s1 Hready Hout) with (es := es1); [| |exact Hx].
    + econstructor; eauto.
    + apply (Stall_stays s e s1); auto.
      * now apply (reaches_sound a h).
      * exact (fire_steps a s t e s1 Hf).
Qed.

Lemma directoryScanner_stalls p dir :
  prefix "/" p = false -> Open p = Some dir ->
  snd (readdirnames dir) = false -> In Stall (directoryScanner a p).
Proof.
  intros Hp Ho Hc. unfold directoryScanner. rewrite Hp, Ho.
  destruct (getModeOwnership dir) as [[u g] m].
  destruct (readdirnames dir) as [names closes]. cbn [snd] in Hc. subst.
  right. apply in_or_app. right. now left.
Qed.

End Hangs.

(** Once a scanner has received a relative path that opens but whose
    listing never answers [io.EOF] (a regular file given as a root, for
    one), then with a sink that takes every write [Run] never returns and
    the queues are never closed, however the goroutines are scheduled. *)
Theorem stalled_listing_run_never_returns
  {D : Declarations} {FS : FileSystem} (a : Archiver) h s i p dir s1 :
  ready a -> output a = None -> reaches a h s ->
  fire a s (Scanner i) = Some (Took p, s1) ->
  prefix "/" p = false -> Open p = Some dir ->
  snd (readdirnames dir) = false ->
  forall sched es s', exec a s1 sched = Some (es, s') ->
    returned s' = None /\ closed s' = false.
Proof.
  intros Hready Hout Hr Hf Hp Ho Hc sched es s' He.
  apply (stalled_run_goes_on a sched (h ++ [Took p]) s1 Hready Hout)
    with (es := es); [econstructor; eauto| |exact He].
  unfold fire in Hf. destruct (returned s); [discriminate|].
  destruct (nth_error (scanners s) i) as [w|] eqn:Hw; [|discriminate].
  destruct (todo w) as [|act rest].
  - destruct (dirChan s) as [|q rest]; [discriminate|].
    injection Hf as -> <-.
    exists i, (mkWorker p (directoryScanner a p)). split.
    + unfold hands. fields. rewrite nth_error_app1.
      * eapply nth_error_replace_same; eauto.
      * rewrite replace_length. apply nth_error_Some. congruence.
    + cbn [todo]. now apply directoryScanner_stalls with dir.
  - destruct (perform a s act); discriminate.
Qed.

(** The regular file [root/keep] as the only root: the first scanner
    receives it, and the run goes on for ever. *)
Lemma stalled_listing_run_never_returns_witness :
  exists s1,
    fire fileRootArchiver (Run fileRootArchiver) (Scanner 0)
    = Some (Took "root/keep", s1)
    /\ forall sched es s', exec fileRootArchiver s1 sched = Some (es, s') ->
         returned s' = None /\ closed s' = false.
Proof.
  eexists. split; [vm_compute; reflexivity|].
  apply (@stalled_listing_run_never_returns refDeclarations exampleFS
           fileRootArchiver [] (Run fileRootArchiver) 0 "root/keep"
           (regular [([1; 2; 3], ErrNone)])).
  - unfold ready. cbn. repeat split; lia.
  - reflexivity.
  - constructor.
  - vm_compute; reflexivity.
  - reflexivity.
  - reflexivity.
  - reflexivity.
Defined.

Section NoScanners.

Context {D : Declarations} {FS : FileSystem}.
Variable a : Archiver.
Hypothesis none : DirReaderCount a <= 0.

Lemma roots_wait h s :
  reaches a h s ->
  scanners s = [] /\ (exists rest, dirChan s = queued a ++ rest)
  /\ fileChan s = [] /\ Forall (fun w => todo w = []) (readers s)
  /\ taken h = [] /\ stream h = [].
Proof.
  revert h s. apply (reaches_invariant a
    (fun h s => scanners s = []
                /\ (exists rest, dirChan s = queued a ++ rest)
                /\ fileChan s = [] /\ Forall (fun w => todo w = []) (readers s)
                /\ taken h = [] /\ stream h = [])).
  - rewrite Run_scanners, Run_readers.
    destruct (Run_queues a) as (-> & _ & -> & _).
    replace (Z.to_nat (DirReaderCount a)) with O by lia.
    split; [reflexivity|]. split; [exists []; now rewrite app_nil_r|].
    split; [reflexivity|]. split; [now apply Forall_repeat|].
    split; reflexivity.
  - intros h s e s' _ (Hs & (rest0 & Hd) & Hf & Hi & Ht & Hb) Hst.
    rewrite taken_app, stream_app, Ht, Hb.
    step_cases Hst; cbn [taken stream app].
    all: try (rewrite Hs in *; match goal with
                | H : nth_error [] ?i = Some _ |- _ =>
                    destruct i; discriminate
                end).
    all: try congruence.
    all: try (rewrite Forall_forall in Hi;
              match goal with
              | H : nth_error (readers _) _ = Some ?w, E : todo ?w = _ :: _
                |- _ => apply nth_error_In in H; rewrite (Hi _ H) in E;
                        discriminate
              end).
    all: try (repeat split; eauto; fail).
    + split; [assumption|]. split; [|auto].
      exists (rest0 ++ [p]). now rewrite Hd, app_assoc.
    + destruct werr; fields; repeat split; eauto.
Qed.

End NoScanners.

(** With no directory scanner ([DirReaderCount <= 0]), a root queued and
    a sink that takes every write, no path is ever received, the queues
    are never closed and [Run] never returns. *)
Theorem run_without_scanners_never_returns
  {D : Declarations} {FS : FileSystem} (a : Archiver) h s :
  ready a -> output a = None -> DirReaderCount a <= 0 -> queued a <> [] ->
  reaches a h s ->
  returned s = None /\ closed s = false /\ taken h = [] /\ stream h = [].
Proof.
  intros Hready Hout Hnone Hq Hr.
  destruct (roots_wait a Hnone h s Hr) as (Hs & (rest & Hd) & _ & _ & Ht & Hb).
  pose proof (reaches_sound a h s Hready Hr) as Hsound.
  pose proof Hsound as (Hacc & _ & Hrd & Hc & _).
  assert (Hcl : closed s = false).
  { destruct (closed s); [exfalso|reflexivity].
    specialize (Hc eq_refl). unfold accounted in Hacc.
    rewrite Hs, Hd in Hacc. cbn [load] in Hacc.
    pose proof (load_nonneg _ Hrd). unfold len in *.
    rewrite length_app in Hacc. destruct (queued a); [now apply Hq|].
    cbn [length] in Hacc. lia. }
  split; [now apply (open_run_not_returned a h)|]. auto.
Qed.

(** The archiver with the root [/abs] and no scanner, as [Run] starts
    it. *)
Lemma run_without_scanners_never_returns_witness :
  ready noScanners /\ output noScanners = None
  /\ DirReaderCount noScanners <= 0 /\ queued noScanners <> []
  /\ returned (Run noScanners) = None /\ closed (Run noScanners) = false.
Proof.
  assert (R : ready noScanners) by (unfold ready; cbn; repeat split; lia).
  assert (Q : queued noScanners <> []) by discriminate.
  assert (N : DirReaderCount noScanners <= 0) by (cbn; lia).
  destruct (@run_without_scanners_never_returns refDeclarations exampleFS
              noScanners [] (Run noScanners) R eq_refl N Q
              (reaches_Run noScanners)) as (H1 & H2 & _).
  exact (conj R (conj eq_refl (conj N (conj Q (conj H1 H2))))).
Defined.

(** ** Every queued path is received *)

Section Units.

Context {D : Declarations} {FS : FileSystem}.
Variable a : Archiver.

Lemma units_change h s e s' :
  Permutation (units a h) (waiting s ++ taken h) ->
  handsChange a s e s' ->
  Permutation (units a (h ++ [e])) (waiting s' ++ taken (h ++ [e])).
Proof.
  intros I4 Hch. unfold units in *. rewrite enqueued_app, taken_app.
  destruct Hch as [(k & x & p & body & _ & _ & -> & _ & _ & Pw)
                  |[(k & x & act & rest & _ & _ & -> & _ & Pw)
                   |(_ & _ & -> & -> & Pw)]].
  - cbn [taken enqueued]. rewrite !app_nil_r, I4, Pw. cbn [app].
    rewrite app_assoc. now rewrite <- Permutation_cons_append.
  - cbn [taken]. rewrite !app_nil_r, Pw, app_assoc, I4.
    rewrite (Permutation_app_comm (waiting s ++ taken h)).
    now rewrite app_assoc.
  - rewrite !app_nil_r. now rewrite Pw.
Qed.

Lemma reaches_units h s :
  ready a -> reaches a h s ->
  Permutation (units a h) (waiting s ++ taken h).
Proof.
  intros Hready Hr. induction Hr as [|h s t e s' Hr IH Hf].
  - unfold units, waiting. destruct (Run_queues a) as (-> & -> & -> & _).
    cbn [enqueued taken]. now rewrite !app_nil_r.
  - apply (units_change h s e s' IH). apply steps_handsChange.
    + eapply reaches_sound; eauto.
    + eapply fire_steps; eauto.
Qed.

Lemma closed_nothing_waits s :
  sound s -> closed s = true ->
  dirChan s = [] /\ senders s = [] /\ fileChan s = [].
Proof.
  intros (Hacc & Hsc & Hrd & Hc & _) Hcl. specialize (Hc Hcl).
  unfold accounted in Hacc.
  pose proof (load_nonneg _ Hsc). pose proof (load_nonneg _ Hrd).
  unfold len in *.
  destruct (dirChan s); [|cbn [length] in Hacc; lia].
  destruct (senders s); [|cbn [length] in Hacc; lia].
  destruct (fileChan s); [auto|cbn [length] in Hacc; lia].
Qed.

End Units.

(** Nothing is lost and nothing is made up: at every point of a run the
    roots and the paths the scanners have queued are, counted with
    repetitions, the paths still waiting in a queue or a sender goroutine
    and the paths the workers have received; once the queues are closed
    every one of them has been received, as often as it was queued. *)
Theorem every_queued_path_is_received
  {D : Declarations} {FS : FileSystem} (a : Archiver) h s :
  ready a -> reaches a h s ->
  Permutation (queued a ++ enqueued h)
    (dirChan s ++ senders s ++ fileChan s ++ taken h)
  /\ (closed s = true -> Permutation (queued a ++ enqueued h) (taken h)).
Proof.
  intros Hready Hr. pose proof (reaches_units a h s Hready Hr) as P.
  unfold units, waiting in P. rewrite <- !app_assoc in P.
  split; [exact P|]. intros Hcl.
  destruct (closed_nothing_waits s (reaches_sound a h s Hready Hr) Hcl)
    as (Hd & Hs & Hf).
  now rewrite Hd, Hs, Hf in P.
Qed.

(** The run of the example tree: the root and the four entries queued
    are the five paths received. *)
Lemma every_queued_path_is_received_witness :
  closed (snd exampleRun) = true
  /\ queued exampleArchiver ++ enqueued (snd (fst exampleRun))
     = ["root"; "root/keep"; "root/skip"; "root/d"; "root/d/f"]
  /\ Permutation (queued exampleArchiver ++ enqueued (snd (fst exampleRun)))
       (taken (snd (fst exampleRun))).
Proof.
  assert (C : closed (snd exampleRun) = true) by (vm_compute; reflexivity).
  split; [exact C|]. split; [vm_compute; reflexivity|].
  exact (proj2 (@every_queued_path_is_received refDeclarations exampleFS
                  exampleArchiver (snd (fst exampleRun)) (snd exampleRun)
                  exampleArchiver_ready exampleRun_reaches) C).
Defined.

(** ** A run without roots *)

Section EmptyRun.

Context {D : Declarations} {FS : FileSystem}.
Variable a : Archiver.
Hypothesis noRoots : queued a = [].

Lemma nothing_to_do h s :
  ready a -> reaches a h s ->
  (forall k x, nth_error (hands s) k = Some x -> todo x = [])
  /\ waiting s = [] /\ taken h = [] /\ stream h = [].
Proof.
  intros Hready Hr. induction Hr as [|h s t e s' Hr IH Hf].
  - destruct (tidy_Run a) as (_ & _ & _ & P).
    unfold units in P. rewrite noRoots in P. cbn [enqueued taken app] in P.
    rewrite app_nil_r in P. apply Permutation_nil in P.
    repeat split; auto. intros k x H.
    apply nth_error_In in H. unfold hands in H.
    rewrite Run_scanners, Run_readers in H.
    apply in_app_or in H. destruct H as [H|H];
      apply repeat_spec in H; now subst.
  - destruct IH as (Hi & Hw & Ht & Hs).
    rewrite taken_app, stream_app, Ht, Hs.
    pose proof (reaches_sound a h s Hready Hr) as Hsound.
    apply fire_steps in Hf.
    destruct (steps_handsChange a _ _ _ Hsound Hf)
      as [(k & x & p & body & _ & _ & _ & _ & _ & Pw)
         |[(k & x & act & rest & Hk & Hx & _)
          |(Hh & -> & -> & _ & Pw)]].
    + rewrite Hw in Pw. now apply Permutation_nil_cons in Pw.
    + rewrite (Hi k x Hk) in Hx. discriminate.
    + rewrite Hh. rewrite Hw in Pw. apply Permutation_sym in Pw.
      apply Permutation_nil in Pw. repeat split; auto.
Qed.

Lemma archiveWriter_nothing :
  archiveWriter None []
  = (emit (checksumHead
           ++ be64 (crc64.Checksum (fastArchiverHeader ++ checksumHead)))
       (emit fastArchiverHeader (mkOutput [] None crc64.New)), Nil).
Proof.
  unfold archiveWriter, writerStart.
  rewrite Write_unlimited by reflexivity. cbn [writerLoop fst].
  rewrite writeChecksumBlock_unlimited by reflexivity.
  rewrite (hashed_checksumHead _ (hashed_start None)).
  reflexivity.
Qed.

Lemma Run_not_returned :
  ready a -> output a = None -> returned (Run a) = None.
Proof.
  intros (_ & Hf & Hb & Hd) Hout. unfold Run, writerStart. rewrite Hout.
  rewrite Write_unlimited by reflexivity.
  rewrite (proj2 (Z.ltb_ge _ _) Hf), (proj2 (Z.ltb_ge _ _) Hb).
  destruct (directoryScanQueue a); [reflexivity|].
  now rewrite (proj2 (Z.ltb_ge _ _) (Hd eq_refl)).
Qed.

Lemma empty_run_returns :
  ready a -> output a = None ->
  exists es s', exec a (Run a) [Terminator; Writer] = Some (es, s')
                /\ returned s' = Some Nil.
Proof.
  intros Hready Hout. pose proof (Run_not_returned Hready Hout) as Hret.
  destruct (Run_queues a) as (_ & _ & _ & Hb & Hc & Hw & He).
  destruct Hready as (Hwip & _). rewrite noRoots in Hwip.
  assert (F1 : fire a (Run a) Terminator
               = Some (ClosedQueues, setClosed (Run a) true)).
  { unfold fire. rewrite Hret, Hc, Hw, Hwip. reflexivity. }
  cbn [exec]. rewrite F1.
  unfold fire. fields. rewrite Hret, Hb.
  destruct (writeChecksumBlock (fst (writer (Run a)))) as [o werr] eqn:Ew.
  eexists _, _. split; [reflexivity|]. fields.
  assert (Hl : limit (fst (writer (Run a))) = None).
  { unfold Run, writerStart. rewrite Hout.
    rewrite Write_unlimited by reflexivity. reflexivity. }
  rewrite (writeChecksumBlock_unlimited _ Hl) in Ew. injection Ew as _ <-.
  unfold runResult. fields. now rewrite He.
Qed.

Lemma empty_run_idle h s :
  ready a -> reaches a h s -> returned s = None ->
  (forall i x, nth_error (scanners s) i = Some x -> todo x = [])
  /\ (forall j x, nth_error (readers s) j = Some x -> todo x = [])
  /\ dirChan s = [] /\ senders s = [] /\ fileChan s = []
  /\ blockChan s = [].
Proof.
  intros Hready Hr Hret.
  destruct (nothing_to_do h s Hready Hr) as (Hi & Hw & _ & Hs).
  assert (Hin : forall x, In x (hands s) -> todo x = []).
  { intros x Hx. destruct (In_nth_error _ _ Hx) as [k Hk]. eauto. }
  unfold waiting in Hw. apply app_eq_nil in Hw. destruct Hw as [Hd Hw].
  apply app_eq_nil in Hw. destruct Hw as [Hse Hf].
  assert (Hb : blockChan s = []).
  { assert (Hp : returned s <> Some Panicked) by congruence.
    pose proof (reaches_stream a h s Hr Hp) as E. rewrite Hs in E.
    symmetry in E. now apply app_eq_nil in E. }
  repeat split; auto.
  - intros i x Hx. apply Hin. unfold hands. apply in_or_app. left.
    eapply nth_error_In, Hx.
  - intros j x Hx. apply Hin. unfold hands. apply in_or_app. right.
    eapply nth_error_In, Hx.
Qed.

Lemma empty_step h s e s' :
  ready a -> reaches a h s -> steps a s e s' -> (toGo s' < toGo s)%nat.
Proof.
  intros Hready Hr Hst.
  assert (Hret : returned s = None) by (inversion Hst; assumption).
  destruct (empty_run_idle h s Hready Hr Hret)
    as (Hi & Hj & Hd & Hse & Hf & Hb).
  unfold toGo at 2. rewrite Hret.
  inversion Hst; subst; clear Hst; try congruence.
  - rewrite (Hi _ _ H0) in H1. discriminate.
  - rewrite (Hj _ _ H0) in H1. discriminate.
  - rewrite Hse in H0. now destruct k.
  - rewrite Hse in H0. now destruct k.
  - unfold toGo. fields. rewrite Hret, H0. lia.
  - unfold toGo. fields. destruct (closed s); lia.
Qed.

Lemma empty_exec sched : forall h s es s',
  ready a -> reaches a h s -> exec a s sched = Some (es, s') ->
  (length sched + toGo s' <= toGo s)%nat.
Proof.
  induction sched as [|t rest IH]; intros h s es s' Hready Hr He;
    cbn [exec] in He.
  - injection He as _ <-. cbn [length]. lia.
  - destruct (fire a s t) as [[e s1]|] eqn:Hf; [|discriminate].
    destruct (exec a s1 rest) as [[es1 s2]|] eqn:Hx; [|discriminate].
    injection He as _ <-.
    pose proof (empty_step h s e s1 Hready Hr (fire_steps a _ _ _ _ Hf)).
    pose proof (IH (h ++ [e]) s1 es1 s2 Hready
                  (reaches_fire a h s t e s1 Hr Hf) Hx).
    cbn [length]. lia.
Qed.

Lemma empty_progress h s :
  ready a -> reaches a h s -> returned s = None ->
  exists t e s', fire a s t = Some (e, s').
Proof.
  intros Hready Hr Hret.
  destruct (empty_run_idle h s Hready Hr Hret)
    as (Hi & Hj & Hd & Hse & Hf & Hb).
  pose proof (reaches_sound a h s Hready Hr) as (Hacc & _).
  destruct (closed s) eqn:Hcl.
  - exists Writer. unfold fire. rewrite Hret, Hb, Hcl.
    destruct (writeChecksumBlock (fst (writer s))); eauto.
  - assert (Hz : wip s = 0).
    { unfold accounted in Hacc. rewrite Hacc, Hd, Hse, Hf.
      rewrite !load_of_idle; [reflexivity| |].
      - apply Forall_forall. intros x Hx.
        destruct (In_nth_error _ _ Hx) as [k Hk]. eauto.
      - apply Forall_forall. intros x Hx.
        destruct (In_nth_error _ _ Hx) as [k Hk]. eauto. }
    exists Terminator. unfold fire. rewrite Hret, Hcl, Hz. cbn. eauto.
Qed.

End EmptyRun.

(** A run without roots ends after two steps, whatever the schedule and
    the sizes of the pools: no schedule of it is longer than two steps,
    a run that has not returned can take a step (the terminator closes
    the queues, then the writer writes the final checksum block) and
    [Run] returns nil; no worker receives a path or sends a block, and
    what the sink holds once [Run] has returned is the header followed
    by one checksum block over the header and the block's own head. *)
Theorem run_without_roots
  {D : Declarations} {FS : FileSystem} (a : Archiver) :
  ready a -> queued a = [] -> output a = None ->
  (forall sched es s,
     exec a (Run a) sched = Some (es, s) -> (length sched <= 2)%nat)
  /\ (forall h s,
        reaches a h s -> returned s = None ->
        exists t e s', fire a s t = Some (e, s'))
  /\ (exists es s', exec a (Run a) [Terminator; Writer] = Some (es, s')
                    /\ returned s' = Some Nil)
  /\ forall h s, reaches a h s ->
       taken h = [] /\ stream h = []
       /\ forall r, returned s = Some r ->
            r = Nil
            /\ sink (fst (writer s))
               = fastArchiverHeader ++ checksumHead
                 ++ be64 (crc64.Checksum (fastArchiverHeader ++ checksumHead)).
Proof.
  intros Hready Hq Hout.
  split.
  { intros sched es s He.
    pose proof (empty_exec a Hq sched [] (Run a) es s Hready
                  (reaches_Run a) He) as H.
    assert (toGo (Run a) <= 2)%nat
      by (unfold toGo; destruct (returned (Run a)), (closed (Run a)); lia).
    lia. }
  split; [intros h s Hr; now apply (empty_progress a Hq h s)|].
  split; [now apply empty_run_returns|].
  intros h s Hr.
  destruct (nothing_to_do a Hq h s Hready Hr) as (_ & _ & Ht & Hs).
  split; [exact Ht|]. split; [exact Hs|]. intros r Hret.
  pose proof (reaches_sound a h s Hready Hr) as (_ & _ & _ & _ & Hp).
  assert (Hnp : r <> Panicked) by congruence.
  assert (Hw : written h = []).
  { pose proof (reaches_stream a h s Hr Hp) as E. rewrite Hs in E.
    symmetry in E. now apply app_eq_nil in E. }
  destruct (reaches_writing a h s Hr) as [_ H].
  destruct (H r Hret Hnp) as (werr & Ha & Hres & _).
  rewrite Hw, Hout, archiveWriter_nothing in Ha. injection Ha as Ho <-.
  split.
  - unfold runResult in Hres.
    destruct (reaches_blamed a h s Hready Hr) as [E|(_ & p & Hp' & _)].
    + now rewrite E in Hres.
    + rewrite Ht in Hp'. destruct Hp'.
  - rewrite <- Ho. unfold emit. cbn [sink app]. reflexivity.
Qed.

(** The archiver as [NewArchiver] makes it, with a sink that takes every
    write and no root added. *)
Lemma run_without_roots_witness :
  ready (NewArchiver None)
  /\ queued (NewArchiver None) = []
  /\ output (NewArchiver None) = None
  /\ (forall sched es s,
        exec (NewArchiver None) (Run (NewArchiver None)) sched
        = Some (es, s) ->
        (length sched <= 2)%nat)
  /\ exists es s',
       exec (NewArchiver None) (Run (NewArchiver None)) [Terminator; Writer]
       = Some (es, s')
       /\ returned s' = Some Nil.
Proof.
  assert (R : ready (NewArchiver None))
    by (unfold ready; cbn; repeat split; lia).
  split; [exact R|]. split; [reflexivity|]. split; [reflexivity|].
  destruct (@run_without_roots refDeclarations exampleFS (NewArchiver None)
              R eq_refl eq_refl) as (H1 & _ & H3 & _).
  split; [exact H1|exact H3].
Defined.

(** ** The whole round of every path *)

Lemma dirQueued_app h h' : dirQueued (h ++ h') = dirQueued h ++ dirQueued h'.
Proof.
  induction h as [|[] h IH]; cbn [dirQueued app]; rewrite ?IH; try reflexivity.
  destruct act; cbn [app]; now rewrite ?IH.
Qed.

Lemma fileQueued_app h h' :
  fileQueued (h ++ h') = fileQueued h ++ fileQueued h'.
Proof.
  induction h as [|[] h IH]; cbn [fileQueued app]; rewrite ?IH;
    try reflexivity.
  destruct act; cbn [app]; now rewrite ?IH.
Qed.

Lemma enqueued_pools h :
  Permutation (enqueued h) (dirQueued h ++ fileQueued h).
Proof.
  induction h as [|e h IH]; [reflexivity|].
  destruct e; cbn [enqueued dirQueued fileQueued]; auto.
  destruct act; cbn [app]; auto.
  rewrite IH. apply Permutation_middle.
Qed.

Ltac incl_solve :=
  let z := fresh "z" in
  let Hz := fresh "Hz" in
  intros z Hz; cbn [dirQueued fileQueued app In] in *;
  repeat (rewrite in_app_iff in * ); cbn [In] in *; tauto.

Section PoolChange.

Context {D : Declarations} {FS : FileSystem}.
Variable a : Archiver.

Lemma remove_nth_incl {A} (l : list A) : forall k, incl (remove_nth k l) l.
Proof.
  induction l as [|y l IH]; intros [|k] z Hz; cbn [remove_nth] in *; auto.
  - now right.
  - destruct Hz as [->|Hz]; [now left|right; eapply IH; eauto].
Qed.

Lemma performs_pools s act s1 :
  performs a s act s1 ->
  scanners s1 = scanners s /\ readers s1 = readers s
  /\ incl (dirChan s1 ++ senders s1)
       (dirQueued [Did act] ++ dirChan s ++ senders s)
  /\ incl (fileChan s1) (fileQueued [Did act] ++ fileChan s).
Proof.
  intros H. inversion H; subst; fields; repeat split; auto; incl_solve.
Qed.

Lemma steps_poolChange s e s' : steps a s e s' -> poolChange a s e s'.
Proof.
  intros Hstep. unfold poolChange, hands.
  inversion Hstep; subst; clear Hstep.
  - (* a scanner receives *)
    left. exists i, w, p, (directoryScanner a p). fields.
    split; [|split; [assumption|split; [reflexivity|split; [|split]]]].
    + rewrite nth_error_app1; [assumption|].
      apply nth_error_Some. congruence.
    + symmetry. now apply replace_app_l with w.
    + left. split; [reflexivity|]. rewrite H2. now left.
    + split; [|apply incl_refl]. rewrite H2. incl_solve.
  - (* a scanner acts *)
    right; left. exists i, w, act, rest.
    apply perform_performs in H2.
    destruct (performs_pools _ _ _ H2) as (Es & Er & Id & If).
    fields. rewrite Es, Er.
    split; [|split; [assumption|split; [reflexivity|split; [|split]]]];
      auto.
    + rewrite nth_error_app1; [assumption|].
      apply nth_error_Some. congruence.
    + symmetry. now apply replace_app_l with w.
  - (* a reader receives *)
    left. exists (length (scanners s) + j)%nat, w, p, (fileReader p). fields.
    split; [|split; [assumption|split; [reflexivity|split; [|split]]]].
    + rewrite nth_error_app2 by lia.
      now replace (length (scanners s) + j - length (scanners s))%nat
        with j by lia.
    + symmetry. apply replace_app_r.
    + right. split; [reflexivity|]. rewrite H2. now left.
    + split; [apply incl_refl|]. rewrite H2. incl_solve.
  - (* a reader acts *)
    right; left. exists (length (scanners s) + j)%nat, w, act, rest.
    apply perform_performs in H2.
    destruct (performs_pools _ _ _ H2) as (Es & Er & Id & If).
    fields. rewrite Es, Er.
    split; [|split; [assumption|split; [reflexivity|split; [|split]]]];
      auto.
    + rewrite nth_error_app2 by lia.
      now replace (length (scanners s) + j - length (scanners s))%nat
        with j by lia.
    + symmetry. apply replace_app_r.
  - (* a sender delivers *)
    right; right. fields. repeat split; auto; [|apply incl_refl].
    pose proof (remove_nth_incl (senders s) k) as Hi.
    apply nth_error_In in H0.
    intros z Hz. rewrite !in_app_iff in *. cbn [In] in Hz.
    destruct Hz as [[Hz|[<-|[]]]|Hz]; auto.
  - right; right. fields. repeat split; auto; apply incl_refl.
  - right; right. fields. repeat split; auto; apply incl_refl.
  - right; right. destruct werr; fields; repeat split; auto; apply incl_refl.
  - right; right. fields. repeat split; auto; apply incl_refl.
Qed.

End PoolChange.

Section Neat.

Context {D : Declarations} {FS : FileSystem}.
Variable a : Archiver.

Lemma roundFor_later h e p l : roundFor a h p l -> roundFor a (h ++ [e]) p l.
Proof.
  unfold roundFor, dirUnits. rewrite dirQueued_app, fileQueued_app.
  intros [[H E]|[H E]]; [left|right]; (split; [|exact E]);
    rewrite ?app_assoc; apply in_or_app; now left.
Qed.

Lemma neat_Run : neat a [] (Run a).
Proof.
  assert (I : forall i x, nth_error (hands (Run a)) i = Some x -> todo x = []).
  { intros i x H. apply nth_error_In in H. unfold hands in H.
    rewrite Run_scanners, Run_readers in H.
    apply in_app_or in H. destruct H as [H|H];
      apply repeat_spec in H; now subst. }
  split; [|split; [|split]].
  - intros i x H Hb. exfalso. eauto.
  - intros p _ [].
  - destruct (Run_queues a) as (-> & -> & _). unfold dirUnits.
    cbn [dirQueued]. rewrite !app_nil_r. apply incl_refl.
  - destruct (Run_queues a) as (_ & _ & -> & _). intros z [].
Qed.

Lemma neat_change h s e s' :
  NoDup (units a (h ++ [e])) ->
  tidy a h s -> neat a h s -> poolChange a s e s' ->
  neat a (h ++ [e]) s'.
Proof.
  intros Hnd (I1 & I2 & I3 & I4) (N1 & N3 & Nd & Nf) Hch.
  assert (Hnd0 : NoDup (waiting s ++ taken h)).
  { eapply Permutation_NoDup; [exact I4|].
    unfold units in *. rewrite enqueued_app, app_assoc in Hnd.
    now apply NoDup_app_l in Hnd. }
  unfold neat. rewrite stream_app, taken_app, fileQueued_app.
  destruct Hch as [(k & x & p & body & Hk & Hx & -> & -> & Hb & Id & If)
                  |[(k & x & act & rest & Hk & Hx & -> & -> & Id & If)
                   |(-> & -> & -> & Hq1 & Hq2 & Id & If)]].
  - (* a worker receives [p] *)
    cbn [stream taken fileQueued]. rewrite !app_nil_r.
    assert (Hw : In p (waiting s)).
    { unfold waiting. rewrite !in_app_iff.
      destruct Hb as [[_ Hb]|[_ Hb]]; auto. }
    assert (Hp : ~ In p (taken h))
      by (apply (NoDup_app_disjoint (waiting s)); auto).
    assert (Hfree : forall i y, nth_error (hands s) i = Some y ->
                      todo y <> [] -> job y <> p).
    { intros i y Hy By E. destruct (I1 i y Hy By) as [Hin _].
      rewrite E in Hin. contradiction. }
    assert (Hnone : about p (stream h) = []) by (apply I3; auto).
    assert (Hbody : body = directoryScanner a p \/ body = fileReader p)
      by (destruct Hb as [[-> _]|[-> _]]; auto).
    split; [|split; [|split]].
    + intros i y Hy By. destruct (Nat.eq_dec k i) as [<-|Hne].
      * rewrite (nth_error_replace_same _ _ _ _ Hk) in Hy.
        injection Hy as <-. cbn [job todo]. rewrite Hnone. cbn [app].
        apply roundFor_later.
        destruct Hb as [[-> Hb]|[-> Hb]]; [left|right];
          (split; [|reflexivity]).
        -- apply Nd. apply in_or_app. now left.
        -- now apply Nf.
      * rewrite nth_error_replace_other in Hy by assumption.
        apply roundFor_later. exact (N1 i y Hy By).
    + intros q Hq Hin.
      assert (Hne : q <> p).
      { intros ->. apply (Hq k (mkWorker p body)).
        - eapply nth_error_replace_same; eauto.
        - cbn [todo]. exact (round_nonempty a p body Hbody).
        - reflexivity. }
      apply roundFor_later. apply N3.
      * intros i y Hy By. destruct (Nat.eq_dec k i) as [<-|Hi].
        -- rewrite Hk in Hy. injection Hy as <-. congruence.
        -- apply (Hq i y); auto.
           now rewrite nth_error_replace_other by assumption.
      * apply in_app_or in Hin. destruct Hin as [Hin|[<-|[]]]; congruence.
    + intros z Hz. unfold dirUnits. rewrite dirQueued_app, app_assoc.
      apply in_or_app. left. now apply Nd, Id.
    + intros z Hz. now apply Nf, If.
  - (* a worker performs [act] *)
    cbn [taken]. rewrite !app_nil_r, stream_Did.
    assert (Bx : todo x <> []) by (rewrite Hx; discriminate).
    destruct (I1 k x Hk Bx) as (Hin & Hpaths & _).
    pose proof (N1 k x Hk Bx) as Hround.
    rewrite Hx in Hpaths, Hround.
    change (act :: rest) with ([act] ++ rest) in Hpaths, Hround.
    rewrite blocksSent_app in Hpaths, Hround.
    apply Forall_app in Hpaths. destruct Hpaths as [Pa Pr].
    assert (Hsame : about (job x) (stream h ++ blocksSent [act])
                    = about (job x) (stream h) ++ blocksSent [act])
      by (rewrite about_app, (about_same _ _ Pa); reflexivity).
    assert (Hother : forall r, job x <> r ->
                       about r (stream h ++ blocksSent [act])
                       = about r (stream h)).
    { intros r Hr. rewrite about_app, (about_other _ _ _ Pa Hr).
      apply app_nil_r. }
    split; [|split; [|split]].
    + intros i y Hy By. apply roundFor_later.
      destruct (Nat.eq_dec k i) as [<-|Hne].
      * rewrite (nth_error_replace_same _ _ _ _ Hk) in Hy.
        injection Hy as <-. cbn [job todo].
        rewrite Hsame, <- app_assoc. exact Hround.
      * rewrite nth_error_replace_other in Hy by assumption.
        rewrite Hother; [exact (N1 i y Hy By)|].
        intros E. apply Hne. eapply I2; eauto.
    + intros q Hq Hin'. apply roundFor_later.
      destruct (string_dec (job x) q) as [<-|Hne].
      * assert (Hrest : rest = []).
        { destruct rest as [|r rest]; [reflexivity|]. exfalso.
          apply (Hq k (mkWorker (job x) (r :: rest))); auto.
          - eapply nth_error_replace_same; eauto.
          - discriminate. }
        subst rest. cbn [blocksSent] in Hround.
        rewrite app_nil_r in Hround. now rewrite Hsame.
      * rewrite Hother by assumption. apply N3; auto.
        intros i y Hy By. destruct (Nat.eq_dec k i) as [<-|Hi].
        -- rewrite Hk in Hy. now injection Hy as <-.
        -- apply (Hq i y); auto.
           now rewrite nth_error_replace_other by assumption.
    + intros z Hz. apply Id in Hz. unfold dirUnits in *.
      rewrite dirQueued_app. apply in_app_or in Hz.
      destruct Hz as [Hz|Hz].
      * rewrite !in_app_iff. auto.
      * apply Nd in Hz. rewrite !in_app_iff in *. tauto.
    + intros z Hz. apply If in Hz.
      rewrite !in_app_iff in *. destruct Hz as [Hz|Hz]; auto.
  - (* the hands stay *)
    unfold roundFor, dirUnits in *.
    rewrite ?dirQueued_app, ?fileQueued_app, Hq1, Hq2, !app_nil_r.
    split; [exact N1|]. split; [exact N3|].
    split; intros z Hz; [apply Nd, Id|apply Nf, If]; exact Hz.
Qed.

Lemma reaches_neat h s :
  ready a -> reaches a h s -> NoDup (units a h) -> neat a h s.
Proof.
  intros Hready Hr. induction Hr as [|h s t e s' Hr IH Hf]; intros Hnd.
  - apply neat_Run.
  - assert (Hnd0 : NoDup (units a h)).
    { unfold units in *. rewrite enqueued_app, app_assoc in Hnd.
      now apply NoDup_app_l in Hnd. }
    apply (neat_change h s e s'); auto.
    + now apply reaches_tidy.
    + apply steps_poolChange. exact (fire_steps a s t e s' Hf).
Qed.

Lemma pools_apart h p :
  NoDup (units a h) -> In p (dirUnits a h) -> In p (fileQueued h) -> False.
Proof.
  unfold units, dirUnits. intros Hnd Hd Hf.
  assert (P : Permutation (queued a ++ enqueued h)
                ((queued a ++ dirQueued h) ++ fileQueued h)).
  { rewrite <- app_assoc. apply Permutation_app_head.
    apply enqueued_pools. }
  apply (Permutation_NoDup P) in Hnd.
  exact (NoDup_app_disjoint _ _ _ Hnd Hd Hf).
Qed.

Lemma pools_units h p :
  In p (dirUnits a h) \/ In p (fileQueued h) -> In p (units a h).
Proof.
  unfold units, dirUnits. intros H.
  assert (P : Permutation ((queued a ++ dirQueued h) ++ fileQueued h)
                (queued a ++ enqueued h)).
  { rewrite <- app_assoc. apply Permutation_app_head.
    symmetry. apply enqueued_pools. }
  apply (Permutation_in _ P). rewrite in_app_iff. exact H.
Qed.

End Neat.

(** When no path was put on a work queue twice, then once the queues
    are closed and the block queue is drained the stream is complete and
    holds nothing else: every root and every queued directory has
    exactly the blocks of a scanner's round (its Directory block, when
    the path is relative and opens), every path put on the file queue
    has exactly the blocks of a reader's round (the StartOfFile block,
    one Data block for every chunk read, and the EndOfFile block, when
    the file opens), in this order, and no other path has a block. *)
Theorem stream_holds_every_round
  {D : Declarations} {FS : FileSystem} (a : Archiver) h s :
  ready a -> reaches a h s -> NoDup (units a h) ->
  closed s = true -> blockChan s = [] ->
  (forall p, In p (dirUnits a h) ->
     about p (written h)
     = if prefix "/" p then []
       else match Open p with
            | Some dir => [metadataBlock p blockTypeDirectory dir]
            | None => []
            end)
  /\ (forall p, In p (fileQueued h) ->
        about p (written h)
        = match Open p with
          | Some file =>
              metadataBlock p blockTypeStartOfFile file
              :: map (dataBlock p) (chunksRead (Read file))
              ++ [endOfFileBlock p]
          | None => []
          end)
  /\ (forall p, ~ In p (units a h) -> about p (written h) = []).
Proof.
  intros Hready Hr Hnd Hcl Hb.
  pose proof (reaches_sound a h s Hready Hr) as Hsound.
  assert (Hw : written h = stream h).
  { rewrite (reaches_stream a h s Hr), Hb; [now rewrite app_nil_r|].
    apply Hsound. }
  rewrite Hw.
  destruct (reaches_tidy a h s Hready Hr Hnd) as (_ & _ & I3 & _).
  destruct (reaches_neat a h s Hready Hr Hnd) as (_ & N3 & _).
  assert (Idle : forall p i x, nth_error (hands s) i = Some x ->
                   todo x <> [] -> job x <> p).
  { intros p i x Hx Bx. exfalso. apply Bx.
    eapply closed_all_idle; eauto. }
  assert (Taken : forall p, In p (units a h) -> In p (taken h)).
  { intros p Hp. pose proof (reaches_units a h s Hready Hr) as P.
    destruct (closed_nothing_waits s Hsound Hcl) as (Hd & Hs & Hf).
    unfold waiting in P. rewrite Hd, Hs, Hf in P. cbn [app] in P.
    exact (Permutation_in _ P Hp). }
  split; [|split].
  - intros p Hp. rewrite <- (directoryScanner_blocks a p).
    destruct (N3 p (Idle p)) as [[_ E]|[Hf _]]; auto.
    + apply Taken, pools_units. now left.
    + destruct (pools_apart a h p Hnd Hp Hf).
  - intros p Hp. rewrite <- (fileReader_blocks p).
    destruct (N3 p (Idle p)) as [[Hd _]|[_ E]]; auto.
    + apply Taken, pools_units. now right.
    + destruct (pools_apart a h p Hnd Hd Hp).
  - intros p Hp. apply (I3 p (Idle p)). intros Ht. apply Hp.
    pose proof (reaches_units a h s Hready Hr) as P.
    apply (Permutation_in _ (Permutation_sym P)).
    apply in_or_app. now right.
Qed.

(** The run of the example tree: the root [root], the file [root/keep]
    of three bytes and a path that was never queued. *)
Lemma stream_holds_every_round_witness :
  map blockType (about "root" (written (snd (fst exampleRun))))
  = [blockTypeDirectory]
  /\ map (fun b => (blockType b, numBytes b))
       (about "root/keep" (written (snd (fst exampleRun))))
     = [(blockTypeStartOfFile, 0); (blockTypeData, 3); (blockTypeEndOfFile, 0)]
  /\ about "root/link" (written (snd (fst exampleRun))) = [].
Proof.
  assert (U : units exampleArchiver (snd (fst exampleRun))
              = ["root"; "root/keep"; "root/skip"; "root/d"; "root/d/f"])
    by (vm_compute; reflexivity).
  destruct (@stream_holds_every_round refDeclarations exampleFS
              exampleArchiver (snd (fst exampleRun)) (snd exampleRun)
              exampleArchiver_ready exampleRun_reaches) as (H1 & H2 & H3).
  - rewrite U. repeat constructor; cbn [In]; intuition discriminate.
  - vm_compute; reflexivity.
  - vm_compute; reflexivity.
  - split; [|split].
    + rewrite (H1 "root"); [reflexivity|]. vm_compute. now left.
    + rewrite (H2 "root/keep"); [reflexivity|]. vm_compute. now left.
    + apply H3. rewrite U. cbn [In]. intuition discriminate.
Defined.

(** ** A directory comes before its entries *)

Section Order.

Context {D : Declarations} {FS : FileSystem}.
Variable a : Archiver.

Lemma reaches_split h1 e h2 s :
  reaches a (h1 ++ e :: h2) s ->
  exists s1 s2, reaches a h1 s1 /\ steps a s1 e s2.
Proof.
  intros Hr. remember (h1 ++ e :: h2) as h eqn:E. revert h2 E.
  induction Hr as [|h s t e' s' Hr IH Hf]; intros h2 E.
  - destruct h1; discriminate.
  - symmetry in E. apply snoc_split in E.
    destruct E as [(-> & -> & <-)|(h2' & -> & ->)].
    + exists s, s'. split; [exact Hr|]. exact (fire_steps a s t e s' Hf).
    + now apply (IH h2').
Qed.

Lemma unqueued_has_no_block h s p :
  ready a -> reaches a h s -> NoDup (units a h) ->
  ~ In p (units a h) -> about p (stream h) = [].
Proof.
  intros Hready Hr Hnd Hp.
  pose proof (reaches_units a h s Hready Hr) as P.
  assert (Ht : ~ In p (taken h)).
  { intros Ht. apply Hp. apply (Permutation_in _ (Permutation_sym P)).
    apply in_or_app. now right. }
  destruct (reaches_tidy a h s Hready Hr Hnd) as (I1 & _ & I3 & _).
  apply I3; [|exact Ht].
  intros i x Hx Bx E. destruct (I1 i x Hx Bx) as [Hin _].
  rewrite E in Hin. contradiction.
Qed.

End Order.

(** When no path is put on a work queue twice, a path has no block in
    the stream before a scanner queues it, and by then the Directory
    block of the directory that lists it is in the stream: in the
    archive a directory comes before everything below it. *)
Theorem directory_block_precedes_entries
  {D : Declarations} {FS : FileSystem} (a : Archiver) h s :
  ready a -> reaches a h s -> NoDup (units a h) ->
  forall h1 act h2 q,
    h = h1 ++ Did act :: h2 -> act = SendFile q \/ act = GoSendDir q ->
    about q (stream h1) = []
    /\ exists d dir,
         listedIn d dir q
         /\ In (metadataBlock d blockTypeDirectory dir) (stream h1).
Proof.
  intros Hready Hr Hnd h1 act h2 q -> Hact.
  destruct (reaches_split a h1 (Did act) h2 s Hr) as (s1 & s2 & Hr1 & Hst).
  assert (Hnd1 : NoDup (units a h1 ++ [q])).
  { unfold units in *. rewrite enqueued_app in Hnd.
    change (Did act :: h2) with ([Did act] ++ h2) in Hnd.
    rewrite enqueued_app, !app_assoc in Hnd. apply NoDup_app_l in Hnd.
    destruct Hact as [-> | ->]; exact Hnd. }
  split.
  - apply (unqueued_has_no_block a h1 s1); auto.
    + now apply NoDup_app_l in Hnd1.
    + intros Hin. apply (NoDup_app_disjoint _ _ q Hnd1 Hin). now left.
  - destruct (steps_Did a _ _ _ Hst) as (k & x & rest & Hk & Hx).
    destruct (reaches_inRound a h1 s1 Hready Hr1 k x Hk)
      as (_ & body & done & Hb & Hd & Hs).
    { rewrite Hx. discriminate. }
    rewrite Hx in Hd. destruct Hb as [-> | ->].
    + destruct (directoryScanner_sends a _ _ _ _ q Hd Hact)
        as (dir & fi & H1 & _ & _ & H4).
      exists (job x), dir. auto.
    + destruct (fileReader_sends _ _ _ _ q Hd Hact).
Qed.

(** In the run of the example tree the file [root/d/f] is queued by the
    26th event, after the Directory block of [root/d]. *)
Lemma directory_block_precedes_entries_witness :
  about "root/d/f" (stream (firstn 25 (snd (fst exampleRun)))) = []
  /\ exists d dir,
       listedIn d dir "root/d/f"
       /\ In (metadataBlock d blockTypeDirectory dir)
            (stream (firstn 25 (snd (fst exampleRun)))).
Proof.
  assert (U : units exampleArchiver (snd (fst exampleRun))
              = ["root"; "root/keep"; "root/skip"; "root/d"; "root/d/f"])
    by (vm_compute; reflexivity).
  apply (@directory_block_precedes_entries refDeclarations exampleFS
           exampleArchiver (snd (fst exampleRun)) (snd exampleRun)
           exampleArchiver_ready exampleRun_reaches) with
    (act := SendFile "root/d/f") (h2 := skipn 26 (snd (fst exampleRun))).
  - rewrite U. repeat constructor; cbn [In]; intuition discriminate.
  - apply nth_error_firstn_skipn. vm_compute; reflexivity.
  - left; reflexivity.
Defined.

(** ** The stream can be read back *)

Lemma app_same_length {A} (l1 l2 r1 r2 : list A) :
  length l1 = length l2 -> l1 ++ r1 = l2 ++ r2 -> l1 = l2 /\ r1 = r2.
Proof.
  revert l2. induction l1 as [|x l1 IH]; intros [|y l2] Hl E;
    cbn [length app] in *; try discriminate; [auto|].
  injection E as -> E. destruct (IH l2 ltac:(lia) E) as [-> ->]. auto.
Qed.

Lemma bigEndian_same n v w :
  bigEndian n v = bigEndian n w ->
  v mod 256 ^ Z.of_nat n = w mod 256 ^ Z.of_nat n.
Proof.
  intros E. rewrite <- (bigEndian_value n v), <- (bigEndian_value n w).
  now rewrite E.
Qed.

Lemma bigEndian_split n v w r1 r2 :
  bigEndian n v ++ r1 = bigEndian n w ++ r2 ->
  v mod 256 ^ Z.of_nat n = w mod 256 ^ Z.of_nat n /\ r1 = r2.
Proof.
  intros E. apply app_same_length in E.
  - destruct E as [E ->]. split; [now apply bigEndian_same|reflexivity].
  - now rewrite !bigEndian_length.
Qed.

Lemma bytesOf_inj s : forall t, bytesOf s = bytesOf t -> s = t.
Proof.
  induction s as [|c s IH]; intros [|d t] E; cbn [bytesOf] in E;
    try discriminate; [reflexivity|].
  injection E as Ec E. apply N2Z.inj in Ec.
  rewrite <- (ascii_N_embedding c), <- (ascii_N_embedding d), Ec.
  f_equal. now apply IH.
Qed.

Section ReadBack.

Context {D : Declarations}.
Hypothesis distinct : distinctTypes D.

Lemma encodeFrame_parts f :
  encodeFrame f
  = be16 (uint16 (len (pathBytes f))) ++ pathBytes f ++ [tagOf f] ++ bodyOf f.
Proof.
  destruct f as [b|v]; cbn [encodeFrame pathBytes tagOf bodyOf].
  - unfold wire, blockHead. now rewrite <- !app_assoc.
  - unfold checksumHead. now rewrite <- !app_assoc.
Qed.

Lemma carriable_path f : carriable f -> 0 <= len (pathBytes f) < 65536.
Proof.
  destruct f as [b|v]; cbn [carriable pathBytes]; unfold len.
  - intros (H & _). lia.
  - cbn [length]. lia.
Qed.

Lemma head_split f1 f2 r1 r2 :
  carriable f1 -> carriable f2 ->
  encodeFrame f1 ++ r1 = encodeFrame f2 ++ r2 ->
  pathBytes f1 = pathBytes f2 /\ tagOf f1 = tagOf f2
  /\ bodyOf f1 ++ r1 = bodyOf f2 ++ r2.
Proof.
  intros C1 C2 E. rewrite !encodeFrame_parts, <- !app_assoc in E.
  apply carriable_path in C1, C2.
  apply bigEndian_split in E. destruct E as [El E].
  change (256 ^ Z.of_nat 2) with 65536 in El. unfold uint16 in El.
  rewrite !Z.mod_mod in El by lia. rewrite !Z.mod_small in El by lia.
  apply app_same_length in E; [|unfold len in El; lia].
  destruct E as [-> E]. cbn [app] in E. injection E as -> E. auto.
Qed.

Lemma frame_split f1 f2 r1 r2 :
  carriable f1 -> carriable f2 ->
  encodeFrame f1 ++ r1 = encodeFrame f2 ++ r2 ->
  shown f1 = shown f2 /\ r1 = r2.
Proof.
  intros C1 C2 E.
  destruct (head_split f1 f2 r1 r2 C1 C2 E) as (Hp & Ht & Hb).
  destruct (distinctTypes_neq distinct)
    as (n1 & n2 & n3 & n4 & n5 & n6 & n7 & n8 & n9 & n10).
  destruct f1 as [b1|v1], f2 as [b2|v2];
    cbn [pathBytes tagOf bodyOf carriable shown] in *.
  - apply bytesOf_inj in Hp.
    destruct C1 as (_ & T1 & N1), C2 as (_ & T2 & N2).
    unfold payload in Hb. rewrite <- Ht in *. rewrite <- Hp.
    destruct T1 as [T|[T|[T|T]]]; rewrite T in *;
      rewrite ?Z.eqb_refl, ?orb_true_r in *;
      rewrite ?(proj2 (Z.eqb_neq _ _)) in * by congruence;
      cbn [orb] in *.
    + rewrite <- !app_assoc in Hb.
      apply bigEndian_split in Hb. destruct Hb as [Eu Hb].
      apply bigEndian_split in Hb. destruct Hb as [Eg Hb].
      apply bigEndian_split in Hb. destruct Hb as [Em ->].
      change (256 ^ Z.of_nat 4) with 4294967296 in *. unfold uint32 in *.
      rewrite !Z.mod_mod in Eu, Eg by lia.
      now rewrite Eu, Eg, Em.
    + rewrite <- !app_assoc in Hb.
      apply bigEndian_split in Hb. destruct Hb as [Eu Hb].
      apply bigEndian_split in Hb. destruct Hb as [Eg Hb].
      apply bigEndian_split in Hb. destruct Hb as [Em ->].
      change (256 ^ Z.of_nat 4) with 4294967296 in *. unfold uint32 in *.
      rewrite !Z.mod_mod in Eu, Eg by lia.
      now rewrite Eu, Eg, Em.
    + destruct (N1 eq_refl) as [B1 L1], (N2 eq_refl) as [B2 L2].
      rewrite !(proj2 (Z.leb_le _ _)) in Hb by lia.
      rewrite <- !app_assoc in Hb.
      apply bigEndian_split in Hb. destruct Hb as [En Hb].
      change (256 ^ Z.of_nat 2) with 65536 in En. unfold uint16 in En.
      rewrite !Z.mod_mod in En by lia. rewrite !Z.mod_small in En by lia.
      apply app_same_length in Hb.
      * destruct Hb as [Ef ->]. now rewrite Ef, En.
      * rewrite !length_firstn. unfold len in B1, B2.
        clear - B1 B2 En. lia.
    + cbn [app] in Hb. now subst.
  - exfalso. destruct C1 as (_ & T1 & _). intuition congruence.
  - exfalso. destruct C2 as (_ & T2 & _). intuition congruence.
  - apply bigEndian_split in Hb. destruct Hb as [Ev ->].
    change (256 ^ Z.of_nat 8) with (2 ^ 64) in Ev.
    rewrite !Z.mod_small in Ev by lia. now subst.
Qed.

Lemma encodeFrame_nonempty f : encodeFrame f <> [].
Proof.
  rewrite encodeFrame_parts. intros E.
  apply (f_equal (@length byte)) in E.
  unfold be16 in E. rewrite !length_app, bigEndian_length in E.
  cbn [length] in E. lia.
Qed.

End ReadBack.

(** The layout can be read back: two sequences of frames that the layout
    can carry and that [writeBlock] and [writeChecksumBlock] lay out as
    the same bytes are the same sequence in every field that is written
    (path, type, and uid, gid and mode in 32 bits, or count and data). *)
Theorem frames_are_read_back_uniquely {D : Declarations} fs1 fs2 :
  distinctTypes D ->
  Forall carriable fs1 -> Forall carriable fs2 ->
  encodeFrames fs1 = encodeFrames fs2 ->
  map shown fs1 = map shown fs2.
Proof.
  intros Hd. unfold encodeFrames. revert fs2.
  induction fs1 as [|f1 fs1 IH]; intros [|f2 fs2] C1 C2 E;
    cbn [flat_map map] in *.
  - reflexivity.
  - symmetry in E. apply app_eq_nil in E.
    now destruct (encodeFrame_nonempty f2).
  - apply app_eq_nil in E. now destruct (encodeFrame_nonempty f1).
  - inversion C1; subst. inversion C2; subst.
    destruct (frame_split Hd f1 f2 _ _ H1 H3 E) as [-> E'].
    f_equal. now apply IH.
Qed.

(** A block with a uid beyond 32 bits, a count and a buffer, and the
    block the reader of the stream gets back for it. *)
Lemma frames_are_read_back_uniquely_witness :
  encodeFrames [FBlock wideBlock; FChecksum 5]
  = encodeFrames [FBlock plainBlock; FChecksum 5]
  /\ map shown [FBlock wideBlock; FChecksum 5]
     = map shown [FBlock plainBlock; FChecksum 5].
Proof.
  assert (E : encodeFrames [FBlock wideBlock; FChecksum 5]
              = encodeFrames [FBlock plainBlock; FChecksum 5])
    by (vm_compute; reflexivity).
  split; [exact E|].
  apply (@frames_are_read_back_uniquely refDeclarations _ _
           refDeclarations_distinct); [| |exact E].
  - constructor; [|constructor; [|constructor]].
    + cbn. split; [lia|]. split; [now left|]. intros [=].
    + cbn. lia.
  - constructor; [|constructor; [|constructor]].
    + cbn. split; [lia|]. split; [now left|]. intros [=].
    + cbn. lia.
Defined.

(** ** The archive of a run that returned nil *)

Section SmallCounts.

Context {D : Declarations} {FS : FileSystem}.
Variable a : Archiver.

Lemma round_counts p body b :
  body = directoryScanner a p \/ body = fileReader p ->
  In b (blocksSent body) -> 0 <= numBytes b < 65536.
Proof.
  intros [-> | ->] Hin.
  - rewrite directoryScanner_blocks in Hin.
    destruct (prefix "/" p); [destruct Hin|].
    destruct (Open p) as [dir|]; [|destruct Hin].
    destruct Hin as [<-|[]]. unfold metadataBlock.
    destruct (getModeOwnership dir) as [[u g] m]. cbn [numBytes]. lia.
  - rewrite fileReader_blocks in Hin.
    destruct (Open p) as [file|]; [|destruct Hin].
    destruct Hin as [<-|Hin].
    + unfold metadataBlock.
      destruct (getModeOwnership file) as [[u g] m]. cbn [numBytes]. lia.
    + apply in_app_or in Hin. destruct Hin as [Hin|[<-|[]]].
      * apply in_map_iff in Hin. destruct Hin as (c & <- & _).
        unfold dataBlock, uint16. cbn [numBytes].
        apply Z.mod_pos_bound. lia.
      * cbn [endOfFileBlock numBytes]. lia.
Qed.

Lemma reaches_counts h s :
  ready a -> reaches a h s ->
  forall b, In b (stream h) -> 0 <= numBytes b < 65536.
Proof.
  intros Hready Hr. induction Hr as [|h s t e s' Hr IH Hf]; intros b Hin.
  - destruct Hin.
  - rewrite stream_app in Hin. apply in_app_or in Hin.
    destruct Hin as [Hin|Hin]; [now apply IH|].
    destruct e; cbn [stream] in Hin; try contradiction.
    destruct act; cbn [stream] in Hin; try contradiction.
    destruct Hin as [<-|[]].
    apply fire_steps in Hf.
    destruct (steps_Did a _ _ _ Hf) as (k & x & rest & Hk & Hx).
    destruct (reaches_inRound a h s Hready Hr k x Hk)
      as (_ & body & done & Hb & Hd & _).
    { rewrite Hx. discriminate. }
    apply (round_counts (job x) body _ Hb).
    rewrite Hd, Hx, blocksSent_app. apply in_or_app. right. now left.
Qed.

End SmallCounts.

(** With a sink that refuses no write (and a [Logger] and a positive
    chunk size): when [Run] has returned nil, the sink holds the header
    followed by frames that carry, in the order sent, exactly the blocks
    the scanners and readers sent, with checksum blocks in between; every
    checksum block stores the CRC-64 of all bytes of the sink before its
    value; the last frame is a checksum block; and every block sent is
    one that the layout can carry when its path is shorter than 65536
    bytes. *)
Theorem returned_nil_archive_is_whole
  {D : Declarations} {FS : FileSystem} (a : Archiver) h s :
  ready a -> 0 < BlockSize -> output a = None ->
  reaches a h s -> returned s = Some Nil ->
  exists fs,
    sink (fst (writer s)) = fastArchiverHeader ++ encodeFrames fs
    /\ blocksOf fs = stream h
    /\ (forall pre v post,
          fs = pre ++ FChecksum v :: post ->
          v = crc64.Checksum
                (fastArchiverHeader ++ encodeFrames pre ++ checksumHead))
    /\ (exists fs' v, fs = fs' ++ [FChecksum v])
    /\ (forall b, In b (stream h) ->
          len (bytesOf (filePath b)) < 65536 -> carriable (FBlock b)).
Proof.
  intros Hready _ _ Hr Hret.
  destruct (reaches_writing a h s Hr) as [_ H].
  destruct (H Nil Hret ltac:(discriminate)) as (werr & Hw & Hres & Hq).
  assert (E : werr = Nil).
  { destruct werr; [reflexivity| |]; cbn [runResult] in Hres; discriminate. }
  subst werr. destruct (Hq eq_refl) as [_ Hb].
  assert (Hs : written h = stream h).
  { rewrite (reaches_stream a h s Hr), Hb; [now rewrite app_nil_r|].
    rewrite Hret. discriminate. }
  rewrite Hs in Hw. apply archiveWriter_frames in Hw. cbv zeta in Hw.
  set (o0 := emit fastArchiverHeader (mkOutput [] (output a) crc64.New)) in *.
  pose proof (framesFrom_spaced (stream h) o0 0 (Z.le_refl 0)) as Hsp.
  exists (framesFrom o0 0 (stream h)).
  split; [rewrite Hw; reflexivity|].
  split; [apply blocksOf_framesFrom|].
  split; [|split; [apply Hsp|]].
  - intros pre v post Hfs.
    exact (framesFrom_checksums (stream h) o0 0 pre v post
             (hashed_start (output a)) Hfs).
  - intros b Hin Hl.
    destruct (reaches_encodable a h s Hr) as (_ & _ & _ & Hp).
    rewrite Forall_forall in Hp. destruct (Hp b Hin) as [Ht Hn].
    cbn [carriable]. split; [exact Hl|]. split; [exact Ht|].
    intros Hd. split; [exact Hn|].
    apply (reaches_counts a h s Hready Hr b Hin).
Qed.

(** The run of the example tree. *)
Lemma returned_nil_archive_is_whole_witness :
  ready exampleArchiver
  /\ 0 < @BlockSize refDeclarations
  /\ output exampleArchiver = None
  /\ returned (snd exampleRun) = Some Nil
  /\ exists fs,
       sink (fst (writer (snd exampleRun)))
       = fastArchiverHeader ++ encodeFrames fs
       /\ blocksOf fs = stream (snd (fst exampleRun))
       /\ exists fs' v, fs = fs' ++ [FChecksum v].
Proof.
  assert (R : returned (snd exampleRun) = Some Nil) by (vm_compute; reflexivity).
  split; [exact exampleArchiver_ready|]. split; [reflexivity|].
  split; [reflexivity|]. split; [exact R|].
  destruct (@returned_nil_archive_is_whole refDeclarations exampleFS
              exampleArchiver (snd (fst exampleRun)) (snd exampleRun)
              exampleArchiver_ready eq_refl eq_refl exampleRun_reaches R)
    as (fs & H1 & H2 & _ & H4 & _).
  exists fs. auto.
Defined.

(** ** The unexported exclusion patterns *)

Lemma excludeFile_true_iff
  {FS : FileSystem} (patterns : list string) (filePath : string) :
  excludeFile patterns filePath = true
  <-> exists pattern, In pattern patterns /\ Match pattern filePath = Some true.
Proof.
  induction patterns as [|p patterns IH]; cbn [excludeFile In].
  - split; [discriminate|]. intros (pat & [] & _).
  - destruct (Match p filePath) as [[|]|] eqn:E.
    + split; [|reflexivity]. intros _. exists p. auto.
    + rewrite IH. split.
      * intros (pat & Hin & Hm). exists pat. auto.
      * intros (pat & [<-|Hin] & Hm); [congruence|]. exists pat. auto.
    + rewrite IH. split.
      * intros (pat & Hin & Hm). exists pat. auto.
      * intros (pat & [<-|Hin] & Hm); [congruence|]. exists pat. auto.
Qed.

Section Excluded.

Context {D : Declarations} {FS : FileSystem}.
Variable a : Archiver.

Lemma enqueued_not_excluded h s :
  ready a -> reaches a h s ->
  forall q, In q (enqueued h) -> excludeFile (excludePatterns a) q = false.
Proof.
  intros Hready Hr. induction Hr as [|h s t e s' Hr IH Hf]; intros q Hin.
  - destruct Hin.
  - rewrite enqueued_app in Hin. apply in_app_or in Hin.
    destruct Hin as [Hin|Hin]; [now apply IH|].
    destruct e; cbn [enqueued] in Hin; try contradiction.
    assert (Hact : act = SendFile q \/ act = GoSendDir q).
    { destruct act; cbn [enqueued] in Hin; try contradiction;
        destruct Hin as [<-|[]]; auto. }
    apply fire_steps in Hf.
    destruct (steps_Did a _ _ _ Hf) as (k & x & rest & Hk & Hx).
    destruct (reaches_inRound a h s Hready Hr k x Hk)
      as (_ & body & done & Hb & Hd & _).
    { rewrite Hx. discriminate. }
    rewrite Hx in Hd. destruct Hb as [-> | ->].
    + destruct (directoryScanner_sends a _ _ _ _ q Hd Hact)
        as (dir & fi & _ & He & _). apply He.
    + destruct (fileReader_sends _ _ _ _ q Hd Hact).
Qed.

End Excluded.

(** Exclusion as the scanner implements it, on the unexported patterns:
    when no path is put on a work queue twice, a path that matches a
    pattern of [a.excludePatterns] and is not itself a root is never put
    on a queue and has no block in the stream, whatever [os.Lstat] says
    about it. *)
Theorem excluded_entries_have_no_block
  {D : Declarations} {FS : FileSystem} (a : Archiver) h s :
  ready a -> reaches a h s -> NoDup (units a h) ->
  forall p pattern,
    In pattern (excludePatterns a) -> Match pattern p = Some true ->
    ~ In p (queued a) ->
    ~ In p (enqueued h) /\ about p (stream h) = [].
Proof.
  intros Hready Hr Hnd p pattern Hpat Hm Hroot.
  assert (Hq : ~ In p (enqueued h)).
  { intros Hin.
    pose proof (enqueued_not_excluded a h s Hready Hr p Hin) as E.
    assert (T : excludeFile (excludePatterns a) p = true)
      by (apply excludeFile_true_iff; eauto).
    congruence. }
  split; [exact Hq|].
  apply (unqueued_has_no_block a h s); auto.
  unfold units. rewrite in_app_iff. tauto.
Qed.

(** The example tree with the pattern [root/skip] in the unexported
    field: the run returns nil and [root/skip] has no block. *)
Lemma excluded_entries_have_no_block_witness :
  returned (snd skippingRun) = Some Nil
  /\ ~ In "root/skip" (enqueued (snd (fst skippingRun)))
  /\ about "root/skip" (stream (snd (fst skippingRun))) = [].
Proof.
  split; [vm_compute; reflexivity|].
  assert (U : units skippingArchiver (snd (fst skippingRun))
              = ["root"; "root/keep"; "root/d"; "root/d/f"])
    by (vm_compute; reflexivity).
  apply (@excluded_entries_have_no_block refDeclarations exampleFS
           skippingArchiver (snd (fst skippingRun)) (snd skippingRun))
    with (pattern := "root/skip").
  - unfold ready. cbn. repeat split; lia.
  - exact (@drive_reaches refDeclarations exampleFS skippingArchiver 200).
  - rewrite U. repeat constructor; cbn [In]; intuition discriminate.
  - now left.
  - reflexivity.
  - cbn. intuition discriminate.
Defined.
